(** * Rubik's-cube face recognition: detection filter, grid assignment,
      colour matrix, net ordering, face and net rendering, statistics

    Shallow embedding of [RubiksCubeRecognition/main.cpp].

    Conventions of the embedding.
    - The [double] values that OpenCV reports (areas, moments) are carried
      by their values, rationals ([Qc]).
    - The [float] coordinates of a centroid are carried by their values as
      well, so that they can be compared as numbers; plus and minus
      infinity are carried by [2^128] and [-2^128], which no finite
      [float] reaches.  A centroid is never a NaN.
    - The arithmetic on them is that of IEEE 754, with its rounding, its
      infinities and its NaN ([spec_float]): binary64 for the quotient of
      two moments, binary32 (24 bits of precision, exponents up to 128)
      for the conversion of the quotient to [float] and for the thresholds
      of [assignToGrid].  Every operation on [float]s is rounded to
      binary32, as with SSE arithmetic.
    - [int] values are [Z]; [char] is [ascii]; [std::string] is [string].
    - [std::vector] is [list]; an out-of-range [operator[]] (undefined in
      C++) makes the embedded function return [None].
    - [std::map] is [gmap]; the non-const [operator[]] inserts a
      value-initialised entry for a missing key, as in C++.
    - OpenCV calls are not part of the program: what they return (contours,
      areas, moments, bounding boxes, the pixels covered by a stroke or by a
      text) is an input of the embedding. *)

From Stdlib Require Import Ascii QArith Qcanon Lqa SpecFloat.
From stdpp Require Import numbers strings sorting gmap list.

Local Open Scope Z_scope.

(** ** Data structures *)

(** [cv::Scalar], restricted to the three channels of a [CV_8UC3] pixel. *)
Record Scalar := mkScalar { sc0 : Z; sc1 : Z; sc2 : Z }.

Record Point2f := mkPoint2f { px : Qc; py : Qc }.

Record Rect := mkRect { rx : Z; ry : Z; rwidth : Z; rheight : Z }.

Record ColorRange := mkColorRange {
  minVal : Scalar;
  maxVal : Scalar;
  name : string;
  drawColor : Scalar;
  code : ascii
}.

Record ColorBlock := mkColorBlock {
  center : Point2f;
  colorName : string;
  colorValue : Scalar;
  boundingBox : Rect;
  row : Z;
  col : Z;
  area : Qc
}.

Global Instance Scalar_eq_dec : EqDecision Scalar.
Proof. solve_decision. Defined.

Definition set_row (r : Z) (b : ColorBlock) : ColorBlock :=
  mkColorBlock (center b) (colorName b) (colorValue b) (boundingBox b)
               r (col b) (area b).

Definition set_col (c : Z) (b : ColorBlock) : ColorBlock :=
  mkColorBlock (center b) (colorName b) (colorValue b) (boundingBox b)
               (row b) c (area b).

(** ** Floats *)

(** [a < b] on two finite floats, carried by their values. *)
Definition Qc_ltb (x y : Qc) : bool :=
  match (x ?= y)%Qc with Lt => true | _ => false end.

(** The operations of binary32, and the division of binary64. *)
Definition f32_add : spec_float → spec_float → spec_float := SFadd 24 128.
Definition f32_sub : spec_float → spec_float → spec_float := SFsub 24 128.
Definition f32_div : spec_float → spec_float → spec_float := SFdiv 24 128.
Definition f64_div : spec_float → spec_float → spec_float := SFdiv 53 1024.

(** The conversion of an [int] to [float]. *)
Definition f32_of_int (z : Z) : spec_float := binary_normalize 24 128 z 0 false.

(** The conversion of a [double] to [float]. *)
Definition f32_of_f64 (d : spec_float) : spec_float :=
  match d with
  | S754_finite s m e =>
      binary_normalize 24 128 (if s then Zneg m else Zpos m) e s
  | _ => d
  end.

(** The number of a format that has a given value: the quotient of the
    numerator by the denominator, rounded once by the division [div] of
    the format, to nearest and ties to even.  Nothing is rounded when the
    value is that of a number of the format; a value beyond the range of
    the format gives an infinity. *)
Definition ofValue (div : spec_float → spec_float → spec_float) (q : Qc)
  : spec_float :=
  match Qnum q with
  | Z0 => S754_zero false
  | Zpos n => div (S754_finite false n 0) (S754_finite false (Qden q) 0)
  | Zneg n => div (S754_finite true n 0) (S754_finite false (Qden q) 0)
  end.

Definition toFloat : Qc → spec_float := ofValue f32_div.
Definition toDouble : Qc → spec_float := ofValue f64_div.

Definition pow2 (e : Z) : Qc :=
  match e with
  | Z0 => Qc_of_Z 1
  | Zpos p => Qc_of_Z (2 ^ Zpos p)
  | Zneg p => (/ Qc_of_Z (2 ^ Zpos p))%Qc
  end.

(** The value of the finite float with sign [s], mantissa [m] and exponent
    [e]. *)
Definition floatValue (s : bool) (m : positive) (e : Z) : Qc :=
  (Qc_of_Z (if s then Zneg m else Zpos m) * pow2 e)%Qc.

(** The value that carries a [float].  A NaN has none; it is given 0. *)
Definition valueOfFloat (f : spec_float) : Qc :=
  match f with
  | S754_zero _ => Qc_of_Z 0
  | S754_infinity s => if s then (- pow2 128)%Qc else pow2 128
  | S754_nan => Qc_of_Z 0
  | S754_finite s m e => floatValue s m e
  end.

(** [y < t] for a float [y], carried by its value, and any float [t]:
    false for a NaN; nothing is below minus infinity, and everything but
    plus infinity is below plus infinity. *)
Definition floatLess (y : Qc) (t : spec_float) : bool :=
  match t with
  | S754_nan => false
  | S754_infinity s => if s then false else Qc_ltb y (pow2 128)
  | S754_zero _ => Qc_ltb y (Qc_of_Z 0)
  | S754_finite s m e => Qc_ltb y (floatValue s m e)
  end.

(** ** [std::sort]

    The order [std::sort] gives to equivalent elements is unspecified.  For
    the ranges of this program (at most nine elements) libstdc++ runs its
    insertion sort: every element, from left to right, is moved into the
    sorted prefix, after the elements it is not smaller than. *)
Section std_sort.
Context {A : Type} (less : A → A → bool).

Fixpoint linear_insert (x : A) (sorted : list A) : list A :=
  match sorted with
  | [] => [x]
  | y :: rest =>
      if less x y then x :: y :: rest else y :: linear_insert x rest
  end.

Definition std_sort (l : list A) : list A :=
  foldl (λ sorted x, linear_insert x sorted) [] l.
End std_sort.

(** ** Detection: what OpenCV reports for one contour *)

Record Moments := mkMoments { m00 : Qc; m10 : Qc; m01 : Qc }.

(** What OpenCV reports for one contour: its area, its two first-order
    moments and [boundingRect (approxPolyDP ...)]. *)
Record Contour := mkContour {
  contourArea : Qc;
  moment10 : Qc;
  moment01 : Qc;
  approxBoundingRect : Rect
}.

(** [moments (contour)].  Its [m00] is the area of the contour: OpenCV
    computes it by the sum over the points of the contour that gives
    [contourArea] its value. *)
Definition moments (ct : Contour) : Moments :=
  mkMoments (contourArea ct) (moment10 ct) (moment01 ct).

(** An image, seen through [inRange], [morphologyEx] and [findContours]:
    the external contours of the mask of each colour range. *)
Definition Image : Type := ColorRange → list Contour.

(** ** CubeFaceAnalyzer *)

Record CubeFaceAnalyzer := mkCubeFaceAnalyzer {
  colorTable : list ColorRange;
  colorCodes : gmap string ascii
}.

Definition initialColorTable : list ColorRange :=
  [ mkColorRange (mkScalar 0 146 92) (mkScalar 94 187 155) "Red"
      (mkScalar 0 0 255) "R";
    mkColorRange (mkScalar 139 80 146) (mkScalar 255 111 255) "Yellow"
      (mkScalar 0 255 255) "Y";
    mkColorRange (mkScalar 82 42 0) (mkScalar 177 101 169) "Green"
      (mkScalar 0 255 0) "G";
    mkColorRange (mkScalar 0 0 0) (mkScalar 255 255 94) "Blue"
      (mkScalar 255 0 0) "B";
    mkColorRange (mkScalar 160 127 90) (mkScalar 226 177 110) "White"
      (mkScalar 255 255 255) "W";
    mkColorRange (mkScalar 87 158 106) (mkScalar 163 255 172) "Pink"
      (mkScalar 203 192 255) "P" ].

(** The constructor: the table, then [colorCodes[c.name] = c.code]. *)
Definition newCubeFaceAnalyzer : CubeFaceAnalyzer :=
  mkCubeFaceAnalyzer initialColorTable
    (foldl (λ codes c, <[name c := code c]> codes) ∅ initialColorTable).

Definition compareColorBlocks (a b : ColorBlock) : bool :=
  if bool_decide (row a ≠ row b) then bool_decide (row a < row b)
  else bool_decide (col a < col b).

(** *** assignToGrid *)

Definition centerY (b : ColorBlock) : Qc := py (center b).
Definition centerX (b : ColorBlock) : Qc := px (center b).

(** [lo + (hi - lo) / 2] on floats: a subtraction, a division by the
    [int] 2 converted to [float], an addition, each rounded to binary32. *)
Definition rowThreshold (lo hi : Qc) : spec_float :=
  f32_add (toFloat lo)
          (f32_div (f32_sub (toFloat hi) (toFloat lo)) (f32_of_int 2)).

(** [yCoords[2] + (yCoords[3] - yCoords[2]) / 2] and its sibling. *)
Definition rowThresholds (yCoords : list Qc)
  : option (spec_float * spec_float) :=
  y2 ← yCoords !! 2%nat;
  y3 ← yCoords !! 3%nat;
  y5 ← yCoords !! 5%nat;
  y6 ← yCoords !! 6%nat;
  Some (rowThreshold y2 y3, rowThreshold y5 y6).

Definition rowIndex (rowThreshold1 rowThreshold2 : spec_float) (y : Qc) : Z :=
  if floatLess y rowThreshold1 then 0
  else if floatLess y rowThreshold2 then 1
  else 2.

Definition assignRow (rowThreshold1 rowThreshold2 : spec_float)
    (b : ColorBlock) : ColorBlock :=
  set_row (rowIndex rowThreshold1 rowThreshold2 (centerY b)) b.

(** [rowBlocks] holds pointers into [blocks]; a pointer is the index of the
    element it points to. *)
Definition rowBlocks (r : Z) (blocks : list ColorBlock) : list nat :=
  filter (λ i, row <$> blocks !! i = Some r) (seq 0 (length blocks)).

(** The lambda [a->center.x < b->center.x]. *)
Definition xLess (blocks : list ColorBlock) (a b : nat) : bool :=
  match blocks !! a, blocks !! b with
  | Some ba, Some bb => Qc_ltb (centerX ba) (centerX bb)
  | _, _ => false
  end.

(** [for (c = 0; c < rowBlocks.size(); c++) rowBlocks[c]->col = c], started
    at column [c]. *)
Fixpoint assignCols (c : nat) (ptrs : list nat) (blocks : list ColorBlock)
  : list ColorBlock :=
  match ptrs with
  | [] => blocks
  | p :: rest => assignCols (S c) rest (alter (set_col (Z.of_nat c)) p blocks)
  end.

Definition columnPass (blocks : list ColorBlock) (r : Z) : list ColorBlock :=
  assignCols 0 (std_sort (xLess blocks) (rowBlocks r blocks)) blocks.

Definition assignToGrid (blocks : list ColorBlock)
  : option (list ColorBlock) :=
  let yCoords := std_sort Qc_ltb (centerY <$> blocks) in
  '(rowThreshold1, rowThreshold2) ← rowThresholds yCoords;
  let blocks1 := assignRow rowThreshold1 rowThreshold2 <$> blocks in
  let blocks2 := foldl columnPass blocks1 [0; 1; 2] in
  Some (std_sort compareColorBlocks blocks2).

(** *** analyzeCubeFace *)

(** [if (area < 15000 || area > 150000) continue;] *)
Definition areaRejected (a : Qc) : bool :=
  Qc_ltb a (Qc_of_Z 15000) || Qc_ltb (Qc_of_Z 150000) a.

(** A coordinate of [Point2f center(m.m10 / m.m00, m.m01 / m.m00)]: the
    quotient of two [double]s, converted to [float].  The quotient is a
    NaN for [0 / 0] only. *)
Definition centroidCoordinate (num den : Qc) : Qc :=
  valueOfFloat (f32_of_f64 (f64_div (toDouble num) (toDouble den))).

(** [ColorBlock block;] leaves [row] and [col] of this block
    uninitialised: [garbage] is the pair of indeterminate values they
    hold.  The function is called for contours that passed the area filter
    only, so never with a zero [m00]. *)
Definition newBlock (garbage : Z * Z) (c : ColorRange) (ct : Contour)
  : ColorBlock :=
  let m := moments ct in
  mkColorBlock (mkPoint2f (centroidCoordinate (m10 m) (m00 m))
                          (centroidCoordinate (m01 m) (m00 m)))
               (name c) (drawColor c) (approxBoundingRect ct)
               garbage.1 garbage.2 (contourArea ct).

(** The loop over the contours of one colour.  Every iteration declares a
    block of its own: [indet k] is what the uninitialised fields of the
    block pushed at index [k] of [allBlocks] hold. *)
Definition scanContours (indet : nat → Z * Z) (c : ColorRange)
    (allBlocks : list ColorBlock) (contours : list Contour)
  : list ColorBlock :=
  foldl (λ acc ct,
           if areaRejected (contourArea ct) then acc
           else acc ++ [newBlock (indet (length acc)) c ct])
        allBlocks contours.

Definition detectBlocks (self : CubeFaceAnalyzer) (indet : nat → Z * Z)
    (img : Image) : list ColorBlock :=
  foldl (λ acc c, scanContours indet c acc (img c)) [] (colorTable self).

(** The annotations drawn on [outputImg] do not reach the returned blocks
    and are left out. *)
Definition analyzeCubeFace (self : CubeFaceAnalyzer) (indet : nat → Z * Z)
    (img : Image) : option (list ColorBlock) :=
  let allBlocks := detectBlocks self indet img in
  if decide (length allBlocks = 9%nat) then assignToGrid allBlocks
  else Some allBlocks.

(** *** createColorMatrix *)

(** [std::map::operator[]]: a missing key is inserted with ['\0']. *)
Definition map_subscript (m : gmap string ascii) (k : string)
  : ascii * gmap string ascii :=
  match m !! k with
  | Some v => (v, m)
  | None => (Ascii.zero, <[k := Ascii.zero]> m)
  end.

Abbreviation ColorMatrix := (list (list ascii)) (only parsing).

Definition blankMatrix : ColorMatrix :=
  replicate 3 (replicate 3 " "%char).

Definition inGrid (b : ColorBlock) : Prop :=
  0 ≤ row b ∧ row b < 3 ∧ 0 ≤ col b ∧ col b < 3.

Global Instance inGrid_dec b : Decision (inGrid b).
Proof. unfold inGrid. apply _. Defined.

(** The body of the loop over [blocks]: the matrix built so far and the
    analyzer, whose [colorCodes] the subscript may extend. *)
Definition placeBlock (st : list (list ascii) * CubeFaceAnalyzer)
    (block : ColorBlock) : list (list ascii) * CubeFaceAnalyzer :=
  let '(colorMatrix, this) := st in
  if decide (inGrid block) then
    let '(ch, codes) := map_subscript (colorCodes this) (colorName block) in
    (alter (λ cells, <[Z.to_nat (col block) := ch]> cells)
           (Z.to_nat (row block)) colorMatrix,
     mkCubeFaceAnalyzer (colorTable this) codes)
  else (colorMatrix, this).

Definition createColorMatrix (self : CubeFaceAnalyzer)
    (blocks : list ColorBlock) : ColorMatrix * CubeFaceAnalyzer :=
  foldl placeBlock (blankMatrix, self) blocks.

Definition getColorCodeMap (self : CubeFaceAnalyzer) : gmap ascii Scalar :=
  foldl (λ colorCodeMap c, <[code c := drawColor c]> colorCodeMap) ∅
        (colorTable self).

Definition getColorMap (self : CubeFaceAnalyzer) : gmap string Scalar :=
  foldl (λ colorMap c, <[name c := drawColor c]> colorMap) ∅
        (colorTable self).

(** ** main: the per-face loop and the reordering for the net *)

Definition filenames : list string :=
  [ "data/cubeface1.jpg"; "data/cubeface2.jpg"; "data/cubeface3.jpg";
    "data/cubeface4.jpg"; "data/cubeface5.jpg"; "data/cubeface6.jpg" ]%string.

Definition faceNames : list string :=
  [ "Front"; "Back"; "Left"; "Right"; "Up"; "Down" ]%string.

(** [ImageLoader::loadImage] on a file system [fs]: [None] is the empty
    [Mat] that [imread] returns for a file it cannot read. *)
Definition loadImage (fs : gmap string Image) (filename : string)
  : option Image := fs !! filename.

Record MainState := mkMainState {
  analyzer : CubeFaceAnalyzer;
  allColorMatrices : list ColorMatrix
}.

(** One iteration of the loop over [filenames]; [indet i] gives the
    indeterminate contents of the fresh blocks of iteration [i].  The
    windows shown and the files written are left out. *)
Definition processFace (fs : gmap string Image)
    (indet : nat → nat → Z * Z)
    (st : MainState) (i : nat) : option MainState :=
  filename ← filenames !! i;
  match loadImage fs filename with
  | None => Some st
  | Some img =>
      blocks ← analyzeCubeFace (analyzer st) (indet i) img;
      let '(colorMatrix, this) := createColorMatrix (analyzer st) blocks in
      Some (mkMainState this (allColorMatrices st ++ [colorMatrix]))
  end.

Fixpoint forEach {S A : Type} (body : S → A → option S) (s : S)
    (l : list A) : option S :=
  match l with
  | [] => Some s
  | a :: rest => s' ← body s a; forEach body s' rest
  end.

(** [vector<int> order = { 4, 2, 0, 3, 1, 5 }] *)
Definition order : list nat := [4; 2; 0; 3; 1; 5]%nat.

Definition reorderMatrices (all : list ColorMatrix) : list ColorMatrix :=
  foldl (λ reorderedMatrices idx,
           if decide (idx < length all)%nat
           then from_option (λ m, reorderedMatrices ++ [m])
                            reorderedMatrices (all !! idx)
           else reorderedMatrices)
        [] order.

(** The matrices collected by the loop and, when at least one face was
    processed, the list handed to [drawCubeNet]. *)
Definition mainRun (fs : gmap string Image) (indet : nat → nat → Z * Z)
  : option (list ColorMatrix * option (list ColorMatrix)) :=
  st ← forEach (processFace fs indet)
               (mkMainState newCubeFaceAnalyzer [])
               (seq 0 (length filenames));
  let all := allColorMatrices st in
  Some (all, if decide (1 ≤ length all)%nat then Some (reorderMatrices all)
             else None).

(** The colour statistics printed at the end of [main]: the body
    [if (color != ' ') colorCount[color]++] and the three nested loops. *)
Definition countColor (colorCount : gmap ascii Z) (color : ascii)
  : gmap ascii Z :=
  if decide (color ≠ " "%char)
  then <[color := default 0 (colorCount !! color) + 1]> colorCount
  else colorCount.

Definition colorStatistics (allColorMatrices : list (list (list ascii)))
  : gmap ascii Z :=
  foldl (λ colorCount matrix,
           foldl (λ colorCount row, foldl countColor colorCount row)
                 colorCount matrix)
        ∅ allColorMatrices.

(** ** CubeVisualizer *)

Record CubeVisualizer := mkCubeVisualizer { blockSize : Z }.

Definition newCubeVisualizer : CubeVisualizer := mkCubeVisualizer 60.

(** A [CV_8UC3] image: its rows of pixels. *)
Abbreviation Mat := (list (list Scalar)) (only parsing).

(** [Mat(rows, cols, CV_8UC3, s)] allocates a buffer, whose bytes [raw] are
    whatever the allocator returns, and sets every pixel to [s]. *)
Definition Mat_alloc (raw : nat → nat → Scalar) (rows cols : Z) : Mat :=
  (λ y, raw y <$> seq 0 (Z.to_nat cols)) <$> seq 0 (Z.to_nat rows).

Definition Mat_setTo (s : Scalar) (m : Mat) : Mat :=
  (λ line : list Scalar, (λ _ : Scalar, s) <$> line) <$> m.

Definition Mat_new (raw : nat → nat → Scalar) (rows cols : Z) (s : Scalar)
  : Mat := Mat_setTo s (Mat_alloc raw rows cols).

Definition pixelAt (img : Mat) (x y : nat) : option Scalar :=
  line ← img !! y; line !! x.

(** Every pixel of the image that [cover] holds on takes [color]. *)
Definition paint (cover : Z → Z → bool) (color : Scalar) (img : Mat) : Mat :=
  imap (λ y line,
          imap (λ x p, if cover (Z.of_nat x) (Z.of_nat y) then color else p)
               line)
       img.

(** [rectangle (img, Rect, color, FILLED)]: the pixels of the rectangle. *)
Definition inRect (r : Rect) (x y : Z) : bool :=
  bool_decide (rx r ≤ x < rx r + rwidth r ∧ ry r ≤ y < ry r + rheight r).

Definition backgroundColor : Scalar := mkScalar 240 240 240.
Definition defaultGray : Scalar := mkScalar 128 128 128.
Definition borderColor : Scalar := mkScalar 50 50 50.
Definition textColor : Scalar := mkScalar 0 0 0.

Section rendering.
(** The pixels OpenCV covers when it strokes the outline of a rectangle
    with a thickness, and when it writes a text at an origin with a font
    scale and a thickness. *)
Variable strokePixels : Rect → Z → Z → Z → bool.
Variable textPixels : string → Z → Z → Qc → Z → Z → Z → bool.

Definition cellRect (self : CubeVisualizer) (margin : Z) (row col : nat)
  : Rect :=
  mkRect (margin + Z.of_nat col * blockSize self)
         (margin + Z.of_nat row * blockSize self)
         (blockSize self) (blockSize self).

Definition blockColorOf (colorCodeMap : gmap ascii Scalar) (colorCode : ascii)
  : Scalar :=
  default defaultGray (colorCodeMap !! colorCode).

(** The body of the two nested loops of [drawStandardFace]. *)
Definition drawCell (self : CubeVisualizer) (colorMatrix : ColorMatrix)
    (colorCodeMap : gmap ascii Scalar) (margin : Z) (row : nat)
    (faceImg : Mat) (col : nat) : option Mat :=
  cells ← colorMatrix !! row;
  colorCode ← cells !! col;
  let blockColor := blockColorOf colorCodeMap colorCode in
  let r := cellRect self margin row col in
  let img1 := paint (inRect r) blockColor faceImg in
  let img2 := paint (strokePixels r 2) borderColor img1 in
  Some (paint (textPixels (String colorCode EmptyString)
                          (rx r + blockSize self ÷ 3)
                          (ry r + 2 * blockSize self ÷ 3)
                          (Q2Qc (7 # 10)) 2)
              textColor img2).

Definition drawStandardFace (self : CubeVisualizer)
    (raw : nat → nat → Scalar) (colorMatrix : ColorMatrix)
    (colorCodeMap : gmap ascii Scalar) (faceName : string) : option Mat :=
  let margin := 10 in
  let labelHeight := if decide (faceName = EmptyString) then 0 else 25 in
  let faceImg := Mat_new raw (blockSize self * 3 + margin * 2 + labelHeight)
                         (blockSize self * 3 + margin * 2)
                         backgroundColor in
  faceImg ← forEach (λ img row,
                       forEach (drawCell self colorMatrix colorCodeMap
                                         margin row)
                               img [0; 1; 2]%nat)
                    faceImg [0; 1; 2]%nat;
  Some (if decide (faceName = EmptyString) then faceImg
        else paint (textPixels faceName margin
                               (Z.of_nat (length faceImg) - margin ÷ 2)
                               (Q2Qc (6 # 10)) 2)
                   textColor faceImg).
End rendering.

(** [Mat::zeros (rows, cols, CV_8UC3)] *)
Definition Mat_zeros (rows cols : Z) : Mat :=
  replicate (Z.to_nat rows) (replicate (Z.to_nat cols) (mkScalar 0 0 0)).

(** [facePositions]: the (column, row) of each face in the 4x3 layout. *)
Definition facePositions : list (Z * Z) :=
  [ (1, 0); (0, 1); (1, 1); (2, 1); (3, 1); (1, 2) ].

Definition faceLabels : list string :=
  [ "Up"; "Left"; "Front"; "Right"; "Back"; "Down" ]%string.

Section net.
Variable strokePixels : Rect → Z → Z → Z → bool.
Variable textPixels : string → Z → Z → Qc → Z → Z → Z → bool.

(** The rectangle of cell ([r], [c]) of the face whose corner is
    ([x], [y]). *)
Definition blockRect (self : CubeVisualizer) (x y : Z) (r c : nat) : Rect :=
  mkRect (x + Z.of_nat c * blockSize self) (y + Z.of_nat r * blockSize self)
         (blockSize self) (blockSize self).

(** The body of the loops over [r] and [c] of [drawCubeNet]. *)
Definition drawNetCell (self : CubeVisualizer)
    (allColorMatrices : list (list (list ascii)))
    (colorCodeMap : gmap ascii Scalar) (i : nat) (x y : Z) (r : nat)
    (cubeNet : Mat) (c : nat) : option Mat :=
  face ← allColorMatrices !! i;
  cells ← face !! r;
  colorCode ← cells !! c;
  let color := blockColorOf colorCodeMap colorCode in
  let img1 := paint (inRect (blockRect self x y r c)) color cubeNet in
  let img2 := paint (strokePixels (blockRect self x y r c) 2) borderColor
                    img1 in
  Some (paint (textPixels (String colorCode EmptyString)
                          (x + Z.of_nat c * blockSize self
                           + blockSize self ÷ 4)
                          (y + Z.of_nat r * blockSize self
                           + 3 * blockSize self ÷ 4)
                          (Q2Qc (5 # 10)) 1)
              textColor img2).

(** The corner of face [i] of the net. *)
Definition faceCorner (self : CubeVisualizer) (margin : Z) (pos : Z * Z)
  : Z * Z :=
  (margin + pos.1 * (blockSize self * 3 + margin),
   margin + pos.2 * (blockSize self * 3 + margin)).

(** The body of the loop over the faces. *)
Definition drawNetFace (self : CubeVisualizer)
    (allColorMatrices : list (list (list ascii)))
    (colorCodeMap : gmap ascii Scalar) (margin : Z) (cubeNet : Mat)
    (i : nat) : option Mat :=
  pos ← facePositions !! i;
  let '(x, y) := faceCorner self margin pos in
  cubeNet ← forEach (λ img r,
                       forEach (drawNetCell self allColorMatrices
                                            colorCodeMap i x y r)
                               img [0; 1; 2]%nat)
                    cubeNet [0; 1; 2]%nat;
  label ← faceLabels !! i;
  Some (paint (textPixels label (x + 5) (y - 5) (Q2Qc (6 # 10)) 2)
              textColor cubeNet).

Definition drawCubeNet (self : CubeVisualizer)
    (allColorMatrices : list (list (list ascii)))
    (colorCodeMap : gmap ascii Scalar) : option Mat :=
  let margin := 10 in
  let cols := 4 * (blockSize self * 3 + margin) + margin in
  let rows := 3 * (blockSize self * 3 + margin) + margin in
  let cubeNet := Mat_setTo backgroundColor (Mat_zeros rows cols) in
  forEach (drawNetFace self allColorMatrices colorCodeMap margin) cubeNet
          (seq 0 (length allColorMatrices `min` 6)).

End net.

(** * Vocabulary of the properties *)

Definition calibratedNames : list string :=
  [ "Red"; "Yellow"; "Green"; "Blue"; "White"; "Pink" ]%string.

Definition cellAlphabet : list ascii :=
  [ " "; "R"; "Y"; "G"; "B"; "W"; "P" ]%char.

(** A 3x3 matrix over the blank and the six codes. *)
Definition wellFormedMatrix (m : list (list ascii)) : Prop :=
  length m = 3%nat
  ∧ Forall (λ cells, length cells = 3%nat
                     ∧ Forall (λ ch, ch ∈ cellAlphabet) cells) m.

(** [a] may stand before [b]: [b] is not smaller than [a]. *)
Definition notAfter {A : Type} (less : A → A → bool) (a b : A) : Prop :=
  less b a = false.

(** A comparator that compares a rational key. *)
Definition keyLess {A : Type} (key : A → Qc) (a b : A) : bool :=
  Qc_ltb (key a) (key b).

Definition gridPos (b : ColorBlock) : Z * Z := (row b, col b).

(** Row-major order on grid positions. *)
Definition posLt (p q : Z * Z) : Prop :=
  p.1 < q.1 ∨ (p.1 = q.1 ∧ p.2 < q.2).

(** The same block, with possibly another column. *)
Definition colChanged (b b' : ColorBlock) : Prop := ∃ c, b' = set_col c b.

(** The abscissa a pointer leads to. *)
Definition xKey (blocks : list ColorBlock) (i : nat) : Qc :=
  from_option centerX (Qc_of_Z 0) (blocks !! i).

Definition sortedRow (r : Z) (blocks : list ColorBlock) : list nat :=
  std_sort (xLess blocks) (rowBlocks r blocks).

(** The place of a pointer in a list of pointers. *)
Fixpoint indexIn (i : nat) (l : list nat) : nat :=
  match l with
  | [] => 0
  | j :: rest => if decide (j = i) then 0 else S (indexIn i rest)
  end.

(** The column a block gets: its place among the pointers of its row,
    sorted by abscissa. *)
Definition noteColumn (B1 : list ColorBlock) (i : nat) (b : ColorBlock)
  : ColorBlock :=
  if decide (0 ≤ row b < 3)
  then set_col (Z.of_nat (indexIn i (sortedRow (row b) B1))) b
  else b.

Definition sortedY (blocks : list ColorBlock) : list Qc :=
  std_sort Qc_ltb (centerY <$> blocks).

(** The blocks after the row loop and the three column passes, before the
    final sort. *)
Definition taggedBlocks (t1 t2 : spec_float) (blocks : list ColorBlock)
  : list ColorBlock :=
  imap (noteColumn (assignRow t1 t2 <$> blocks)) (assignRow t1 t2 <$> blocks).

(** The exact midpoint of two values. *)
Definition midpoint (a b : Qc) : Qc := (a + (b - a) / Qc_of_Z 2)%Qc.

(** The threshold computed from [lo] and [hi] lies above [lo] and not
    above [hi]. *)
Definition separates (lo hi : Qc) : Prop :=
  floatLess lo (rowThreshold lo hi) = true
  ∧ floatLess hi (rowThreshold lo hi) = false.

(** The column noted on the block behind pointer [i]. *)
Definition columnOf (t1 t2 : spec_float) (blocks : list ColorBlock) (i : nat)
    (b : ColorBlock) : nat :=
  indexIn i (sortedRow (rowIndex t1 t2 (centerY b))
                       (assignRow t1 t2 <$> blocks)).

(** A block without its grid position. *)
Definition eraseGrid (b : ColorBlock) : ColorBlock := set_row 0 (set_col 0 b).

(** The number of elements that satisfy a test. *)
Fixpoint count {A : Type} (p : A → bool) (l : list A) : nat :=
  match l with
  | [] => 0
  | x :: rest => (if p x then 1 else 0) + count p rest
  end.

Definition allCells : list (Z * Z) :=
  [ (0, 0); (0, 1); (0, 2); (1, 0); (1, 1); (1, 2); (2, 0); (2, 1); (2, 2) ].

Global Instance posLt_dec : RelDecision posLt.
Proof. intros p q. unfold posLt. apply _. Defined.

(** No two blocks of row [r] have the same abscissa. *)
Definition noTiesInRow (r : Z) (blocks : list ColorBlock) : Prop :=
  ∀ i j bi bj,
    blocks !! i = Some bi → blocks !! j = Some bj →
    row bi = r → row bj = r → centerX bi = centerX bj → i = j.

(** The number of blocks of the row of [b] that lie to the left of [b]. *)
Definition leftInRow (blocks : list ColorBlock) (b : ColorBlock) : nat :=
  count (λ b', bool_decide (row b' = row b)
               && Qc_ltb (centerX b') (centerX b)) blocks.

(** The block behind every pointer, tagged with its row and rank. *)
Definition tagByRank (t1 t2 : spec_float) (blocks : list ColorBlock)
    (b : ColorBlock) : ColorBlock :=
  set_col (Z.of_nat (leftInRow (assignRow t1 t2 <$> blocks)
                               (assignRow t1 t2 b)))
          (assignRow t1 t2 b).

(** No two regions that the thresholds put in one row have the same
    abscissa. *)
Definition noColumnTies (blocks : list ColorBlock) : Prop :=
  ∀ t1 t2, rowThresholds (sortedY blocks) = Some (t1, t2) →
           ∀ r, noTiesInRow r (assignRow t1 t2 <$> blocks).

(** [L] lists nine regions level by level, from the smallest ordinate, and
    on each level from the smallest abscissa: the region at index [k] is
    the one of row [k / 3] and column [k mod 3]. *)
Record perfectLattice (L : list ColorBlock) : Prop := {
  lattice_nine : length L = 9%nat;
  lattice_level : ∀ i j bi bj,
    L !! i = Some bi → L !! j = Some bj →
    (i / 3 = j / 3)%nat → centerY bi = centerY bj;
  lattice_rows : ∀ i j bi bj,
    L !! i = Some bi → L !! j = Some bj →
    (i / 3 < j / 3)%nat → (centerY bi < centerY bj)%Qc;
  lattice_columns : ∀ i j bi bj,
    L !! i = Some bi → L !! j = Some bj →
    (i / 3 = j / 3)%nat → (i mod 3 < j mod 3)%nat →
    (centerX bi < centerX bj)%Qc
}.

(** The two thresholds that [assignToGrid] computes separate the sorted
    ordinates: the third lies below the first threshold and the fourth
    does not, the sixth lies below the second and the seventh does not. *)
Definition thresholdsSeparate (blocks : list ColorBlock) : Prop :=
  ∃ y2 y3 y5 y6,
    sortedY blocks !! 2%nat = Some y2 ∧ sortedY blocks !! 3%nat = Some y3
    ∧ sortedY blocks !! 5%nat = Some y5 ∧ sortedY blocks !! 6%nat = Some y6
    ∧ separates y2 y3 ∧ separates y5 y6.

(** The same, computed. *)
Definition thresholdsSeparateb (blocks : list ColorBlock) : bool :=
  match sortedY blocks !! 2%nat, sortedY blocks !! 3%nat,
        sortedY blocks !! 5%nat, sortedY blocks !! 6%nat with
  | Some y2, Some y3, Some y5, Some y6 =>
      floatLess y2 (rowThreshold y2 y3)
      && negb (floatLess y3 (rowThreshold y2 y3))
      && floatLess y5 (rowThreshold y5 y6)
      && negb (floatLess y6 (rowThreshold y5 y6))
  | _, _, _, _ => false
  end.

(** The regions of [L] with their labels written in. *)
Definition labelled (L : list ColorBlock) : list ColorBlock :=
  imap (λ k b, set_col (Z.of_nat (k mod 3)) (set_row (Z.of_nat (k / 3)) b)) L.

(** ** Rendering, call by call *)

Section rendering_vocabulary.
Variable strokePixels : Rect → Z → Z → Z → bool.
Variable textPixels : string → Z → Z → Qc → Z → Z → Z → bool.

(** One call of a drawing function: the pixels it covers and the colour
    it gives them. *)
Record PaintOp := mkPaintOp { opCover : Z → Z → bool; opColor : Scalar }.

Definition applyOps (ops : list PaintOp) (img : list (list Scalar))
  : list (list Scalar) :=
  foldl (λ im op, paint (opCover op) (opColor op) im) img ops.

(** The colour of a pixel after a sequence of calls: that of the last call
    that covers it. *)
Definition resolve (ops : list PaintOp) (x y : Z) (p : Scalar) : Scalar :=
  foldl (λ q op, if opCover op x y then opColor op else q) p ops.

Definition cellOps (self : CubeVisualizer) (colorCodeMap : gmap ascii Scalar)
    (margin : Z) (row col : nat) (colorCode : ascii) : list PaintOp :=
  let r := cellRect self margin row col in
  [ mkPaintOp (inRect r) (blockColorOf colorCodeMap colorCode);
    mkPaintOp (strokePixels r 2) borderColor;
    mkPaintOp (textPixels (String colorCode EmptyString)
                          (rx r + blockSize self ÷ 3)
                          (ry r + 2 * blockSize self ÷ 3)
                          (Q2Qc (7 # 10)) 2) textColor ].

Definition captionOps (faceName : string) (margin rows : Z) : list PaintOp :=
  if decide (faceName = EmptyString) then []
  else [ mkPaintOp (textPixels faceName margin (rows - margin ÷ 2)
                               (Q2Qc (6 # 10)) 2) textColor ].

Definition labelHeightOf (faceName : string) : Z :=
  if decide (faceName = EmptyString) then 0 else 25.

(** The pixels of a cell that its border stroke or its code letter
    covers. *)
Definition cellInk (self : CubeVisualizer) (margin : Z) (row col : nat)
    (colorCode : ascii) (x y : Z) : bool :=
  let r := cellRect self margin row col in
  strokePixels r 2 x y
  || textPixels (String colorCode EmptyString)
                (rx r + blockSize self ÷ 3) (ry r + 2 * blockSize self ÷ 3)
                (Q2Qc (7 # 10)) 2 x y.

Definition cellCode (colorMatrix : list (list ascii)) (row col : nat)
  : option ascii :=
  cells ← colorMatrix !! row; cells !! col.

Definition gridCells : list (nat * nat) :=
  [ (0, 0); (0, 1); (0, 2); (1, 0); (1, 1); (1, 2);
    (2, 0); (2, 1); (2, 2) ]%nat.

(** The pixels covered by a border stroke, a code letter or the
    caption. *)
Definition faceInk (self : CubeVisualizer) (colorMatrix : list (list ascii))
    (faceName : string) (x y : Z) : bool :=
  existsb (λ rc, match cellCode colorMatrix rc.1 rc.2 with
                 | Some colorCode => cellInk self 10 rc.1 rc.2 colorCode x y
                 | None => false
                 end) gridCells
  || existsb (λ op, opCover op x y)
             (captionOps faceName 10
                (blockSize self * 3 + 10 * 2 + labelHeightOf faceName)).

End rendering_vocabulary.

(** ** Further vocabulary *)

(** The contours [analyzeCubeFace] accepts, each with its range: for every
    calibrated range, in the order of the table, the contours whose area
    passes the filter, in the order of the contours. *)
Definition acceptedContours (self : CubeFaceAnalyzer) (img : Image)
  : list (ColorRange * Contour) :=
  c ← colorTable self;
  (λ ct, (c, ct))
    <$> filter (λ ct, areaRejected (contourArea ct) = false) (img c).

(** The regions [analyzeCubeFace] collects: one per accepted contour; the
    region at index [k] carries the indeterminate pair [indet k]. *)
Definition regionsOf (self : CubeFaceAnalyzer) (indet : nat → Z * Z)
    (img : Image) : list ColorBlock :=
  imap (λ k p, newBlock (indet k) p.1 p.2) (acceptedContours self img).

(** A region as [analyzeCubeFace] fills it in from a calibrated range. *)
Definition fromTable (self : CubeFaceAnalyzer) (b : ColorBlock) : Prop :=
  (∃ c, c ∈ colorTable self ∧ colorName b = name c
        ∧ colorValue b = drawColor c)
  ∧ (Qc_of_Z 15000 ≤ area b)%Qc ∧ (area b ≤ Qc_of_Z 150000)%Qc.

(** Rows follow the ordinates, columns follow the abscissas inside a
    row. *)
Definition rowsFollowY (grid : list ColorBlock) : Prop :=
  ∀ a b, a ∈ grid → b ∈ grid → (centerY a ≤ centerY b)%Qc → row a ≤ row b.

Definition colsFollowX (grid : list ColorBlock) : Prop :=
  ∀ a b, a ∈ grid → b ∈ grid → row a = row b →
         (centerX a < centerX b)%Qc → col a < col b.

(** The number of blocks of a list that lie in rows [lo] to [hi]. *)
Definition inRows (lo hi : Z) (grid : list ColorBlock) : nat :=
  length (filter (λ b, lo ≤ row b ≤ hi) grid).

(** What [colorCodes[n]] evaluates to: the code of [n], or the ['\0'] that
    the subscript inserts for a name it does not find. *)
Definition codeOf (codes : gmap string ascii) (n : string) : ascii :=
  default Ascii.zero (codes !! n).

(** The last block of a list that carries the position ([r], [c]). *)
Definition lastAt (r c : nat) (blocks : list ColorBlock)
  : option ColorBlock :=
  last (filter (λ b, row b = Z.of_nat r ∧ col b = Z.of_nat c) blocks).

(** Three rows of three cells. *)
Definition isMatrix3 (m : list (list ascii)) : Prop :=
  length m = 3%nat ∧ Forall (λ cells, length cells = 3%nat) m.

(** The names that [createColorMatrix] looks up: those of the blocks inside
    the grid. *)
Definition lookedUp (blocks : list ColorBlock) (n : string) : Prop :=
  Exists (λ b, inGrid b ∧ colorName b = n) blocks.

(** The last block of a list whose indeterminate pair, the one of its
    index, is the position ([r], [c]). *)
Definition lastGarbageAt (indet : nat → Z * Z) (r c : nat)
    (blocks : list ColorBlock) : option ColorBlock :=
  snd <$> last (filter (λ kb, indet kb.1 = (Z.of_nat r, Z.of_nat c))
                       (imap (λ k b, (k, b)) blocks)).

(** The last range of a table that carries a key. *)
Definition lastWith {K : Type} `{EqDecision K} (key : ColorRange → K) (k : K)
    (table : list ColorRange) : option ColorRange :=
  last (filter (λ c, key c = k) table).

(** How often a character occurs in the cells of a list of matrices. *)
Definition occurrences (ch : ascii) (all : list (list (list ascii))) : nat :=
  count (λ cell, bool_decide (cell = ch)) (concat (concat all)).

(** The files of [filenames] that can be read. *)
Definition readable (fs : gmap string Image) : list string :=
  filter (λ f, is_Some (loadImage fs f)) filenames.

(** The part of a matrix that lies in its first three rows and
    columns. *)
Definition topLeft3 (m : list (list ascii)) : list (list ascii) :=
  take 3 <$> take 3 m.

(** ** The net, call by call *)

Section net_vocabulary.
Variable strokePixels : Rect → Z → Z → Z → bool.
Variable textPixels : string → Z → Z → Qc → Z → Z → Z → bool.

(** The three calls for one cell of the net; the flag marks the call that
    fills the cell. *)
Definition netCellOps (self : CubeVisualizer)
    (colorCodeMap : gmap ascii Scalar) (x y : Z) (r c : nat)
    (colorCode : ascii) : list (bool * PaintOp) :=
  [ (true, mkPaintOp (inRect (blockRect self x y r c))
                     (blockColorOf colorCodeMap colorCode));
    (false, mkPaintOp (strokePixels (blockRect self x y r c) 2) borderColor);
    (false, mkPaintOp (textPixels (String colorCode EmptyString)
                                  (x + Z.of_nat c * blockSize self
                                   + blockSize self ÷ 4)
                                  (y + Z.of_nat r * blockSize self
                                   + 3 * blockSize self ÷ 4)
                                  (Q2Qc (5 # 10)) 1) textColor) ].

(** The calls for face [i]: its nine cells, then its label. *)
Definition netFaceOps (self : CubeVisualizer)
    (colorCodeMap : gmap ascii Scalar) (i : nat) (face : list (list ascii))
  : list (bool * PaintOp) :=
  match facePositions !! i, faceLabels !! i with
  | Some pos, Some label =>
      (rc ← gridCells;
       from_option (netCellOps self colorCodeMap
                               (faceCorner self 10 pos).1
                               (faceCorner self 10 pos).2 rc.1 rc.2)
                   [] (cellCode face rc.1 rc.2))
      ++ [ (false, mkPaintOp (textPixels label
                                         ((faceCorner self 10 pos).1 + 5)
                                         ((faceCorner self 10 pos).2 - 5)
                                         (Q2Qc (6 # 10)) 2) textColor) ]
  | _, _ => []
  end.

Definition netOps (self : CubeVisualizer) (colorCodeMap : gmap ascii Scalar)
    (allColorMatrices : list (list (list ascii))) : list (bool * PaintOp) :=
  concat (imap (netFaceOps self colorCodeMap) (take 6 allColorMatrices)).

(** The pixels covered by a border stroke, a code letter or a label of
    the net, and those covered by the filling of a cell. *)
Definition netInk (self : CubeVisualizer) (colorCodeMap : gmap ascii Scalar)
    (allColorMatrices : list (list (list ascii))) (x y : Z) : bool :=
  existsb (λ t, negb t.1 && opCover t.2 x y)
          (netOps self colorCodeMap allColorMatrices).

Definition netFill (self : CubeVisualizer) (colorCodeMap : gmap ascii Scalar)
    (allColorMatrices : list (list (list ascii))) (x y : Z) : bool :=
  existsb (λ t, t.1 && opCover t.2 x y)
          (netOps self colorCodeMap allColorMatrices).

Definition netCanvas (self : CubeVisualizer) : list (list Scalar) :=
  Mat_setTo backgroundColor
            (Mat_zeros (3 * (blockSize self * 3 + 10) + 10)
                       (4 * (blockSize self * 3 + 10) + 10)).

End net_vocabulary.

(** * Sample inputs *)

Definition sampleBlock (x y : Z) (n : string) (r c : Z) : ColorBlock :=
  mkColorBlock (mkPoint2f (Qc_of_Z x) (Qc_of_Z y)) n (mkScalar 0 0 0)
               (mkRect 0 0 0 0) r c (Qc_of_Z 20000).

(** A contour of the given area whose centroid is [(x, y)]. *)
Definition sampleContour (a x y : Z) : Contour :=
  mkContour (Qc_of_Z a) (Qc_of_Z (x * a)) (Qc_of_Z (y * a))
            (mkRect (x - 70) (y - 70) 140 140).

(** An image in which the range called [n] yields the given contours and
    the other ranges none. *)
Definition imageOf (n : string) (contours : list Contour) : Image :=
  λ c, if decide (name c = n) then contours else [].

(** A face on which eight red regions pass the area filter. *)
Definition eightRegions : Image :=
  imageOf "Red"
    [ sampleContour 20000 100 100; sampleContour 20000 300 100;
      sampleContour 20000 500 100; sampleContour 20000 100 300;
      sampleContour 20000 300 300; sampleContour 20000 500 300;
      sampleContour 20000 100 500; sampleContour 20000 300 500 ].

(** The first range of the table. *)
Definition redRange : ColorRange :=
  mkColorRange (mkScalar 0 146 92) (mkScalar 94 187 155) "Red"
               (mkScalar 0 0 255) "R".

(** A degenerate contour: its area, and so its [m00], is zero. *)
Definition degenerateContour : Contour :=
  mkContour (Qc_of_Z 0) (Qc_of_Z 0) (Qc_of_Z 0) (mkRect 30 30 0 0).

(** Indeterminate pairs that differ from block to block: the first two
    blocks hold grid positions, the others do not. *)
Definition mixedGarbage (k : nat) : Z * Z :=
  match k with
  | O => (0, 0)
  | S O => (1, 2)
  | _ => (7, -3)
  end.

(** A face of nine stickers of one colour, on a regular lattice. *)
Definition solidFace (n : string) : Image :=
  imageOf n
    [ sampleContour 20000 100 100; sampleContour 20000 300 100;
      sampleContour 20000 500 100; sampleContour 20000 100 300;
      sampleContour 20000 300 300; sampleContour 20000 500 300;
      sampleContour 20000 100 500; sampleContour 20000 300 500;
      sampleContour 20000 500 500 ].

Definition solidMatrix (ch : ascii) : list (list ascii) :=
  replicate 3 (replicate 3 ch).

(** The files of Back, Left, Right, Up and Down; the file of Front is
    missing. *)
Definition frontMissing : gmap string Image :=
  list_to_map
    [ ("data/cubeface2.jpg"%string, solidFace "Pink");
      ("data/cubeface3.jpg"%string, solidFace "Green");
      ("data/cubeface4.jpg"%string, solidFace "Blue");
      ("data/cubeface5.jpg"%string, solidFace "Yellow");
      ("data/cubeface6.jpg"%string, solidFace "White") ].

(** The six files. *)
Definition allSix : gmap string Image :=
  <["data/cubeface1.jpg"%string := solidFace "Red"]> frontMissing.

(** Nine regions of a well-photographed face, listed out of order, with
    indeterminate rows and columns. *)
Definition scrambledLattice : list ColorBlock :=
  [ sampleBlock 300 300 "White" 7 7; sampleBlock 500 100 "Red" 7 7;
    sampleBlock 100 500 "Blue" 7 7; sampleBlock 100 100 "Green" 7 7;
    sampleBlock 500 500 "Pink" 7 7; sampleBlock 300 100 "Yellow" 7 7;
    sampleBlock 100 300 "Red" 7 7; sampleBlock 500 300 "Green" 7 7;
    sampleBlock 300 500 "Blue" 7 7 ].

(** Nine regions of which four have the same ordinate. *)
Definition crowdedLevel : list ColorBlock :=
  [ sampleBlock 100 100 "Red" 7 7; sampleBlock 300 100 "Green" 7 7;
    sampleBlock 500 100 "Blue" 7 7; sampleBlock 700 100 "White" 7 7;
    sampleBlock 200 300 "Pink" 7 7; sampleBlock 400 300 "Yellow" 7 7;
    sampleBlock 100 500 "Red" 7 7; sampleBlock 300 500 "Green" 7 7;
    sampleBlock 500 500 "Blue" 7 7 ].

(** Nine regions of a slightly skewed face: all abscissas differ. *)
Definition skewedFace : list ColorBlock :=
  [ sampleBlock 100 100 "Red" 7 7; sampleBlock 305 105 "Green" 7 7;
    sampleBlock 510 110 "Blue" 7 7; sampleBlock 95 300 "White" 7 7;
    sampleBlock 300 305 "Pink" 7 7; sampleBlock 505 310 "Yellow" 7 7;
    sampleBlock 90 500 "Red" 7 7; sampleBlock 295 505 "Green" 7 7;
    sampleBlock 500 510 "Blue" 7 7 ].

(** Nine regions; two of the first row have the same abscissa. *)
Definition tiedColumn : list ColorBlock :=
  [ sampleBlock 100 100 "Red" 7 7; sampleBlock 100 160 "Blue" 7 7;
    sampleBlock 300 130 "Green" 7 7; sampleBlock 100 300 "White" 7 7;
    sampleBlock 300 300 "Pink" 7 7; sampleBlock 500 300 "Yellow" 7 7;
    sampleBlock 100 500 "Red" 7 7; sampleBlock 300 500 "Green" 7 7;
    sampleBlock 500 500 "Blue" 7 7 ].

(** The same regions, the first two exchanged. *)
Definition tiedColumnSwapped : list ColorBlock :=
  [ sampleBlock 100 160 "Blue" 7 7; sampleBlock 100 100 "Red" 7 7;
    sampleBlock 300 130 "Green" 7 7; sampleBlock 100 300 "White" 7 7;
    sampleBlock 300 300 "Pink" 7 7; sampleBlock 500 300 "Yellow" 7 7;
    sampleBlock 100 500 "Red" 7 7; sampleBlock 300 500 "Green" 7 7;
    sampleBlock 500 500 "Blue" 7 7 ].

(** The regions of [scrambledLattice], level by level. *)
Definition orderedLattice : list ColorBlock :=
  [ sampleBlock 100 100 "Green" 7 7; sampleBlock 300 100 "Yellow" 7 7;
    sampleBlock 500 100 "Red" 7 7; sampleBlock 100 300 "Red" 7 7;
    sampleBlock 300 300 "White" 7 7; sampleBlock 500 300 "Green" 7 7;
    sampleBlock 100 500 "Blue" 7 7; sampleBlock 300 500 "Blue" 7 7;
    sampleBlock 500 500 "Pink" 7 7 ].

(** The successor of 1 among the binary32 numbers. *)
Definition nextAfterOne : Qc := Q2Qc (8388609 # 8388608).

Definition levelBlock (x : Z) (y : Qc) (n : string) : ColorBlock :=
  mkColorBlock (mkPoint2f (Qc_of_Z x) y) n (mkScalar 0 0 0)
               (mkRect 0 0 0 0) 7 7 (Qc_of_Z 20000).

(** A perfect lattice, listed level by level, whose first two levels are
    two neighbouring binary32 numbers. *)
Definition ulpLattice : list ColorBlock :=
  [ levelBlock 100 (Qc_of_Z 1) "Green"; levelBlock 300 (Qc_of_Z 1) "Yellow";
    levelBlock 500 (Qc_of_Z 1) "Red"; levelBlock 100 nextAfterOne "Red";
    levelBlock 300 nextAfterOne "White"; levelBlock 500 nextAfterOne "Green";
    levelBlock 100 (Qc_of_Z 2) "Blue"; levelBlock 300 (Qc_of_Z 2) "Blue";
    levelBlock 500 (Qc_of_Z 2) "Pink" ].

(** Nine regions on two levels, the largest powers of two among the binary32
    numbers, one negative and one positive. *)
Definition overflowFace : list ColorBlock :=
  [ levelBlock 100 (- Qc_of_Z (2 ^ 127)) "Green";
    levelBlock 300 (- Qc_of_Z (2 ^ 127)) "Yellow";
    levelBlock 500 (- Qc_of_Z (2 ^ 127)) "Red";
    levelBlock 100 (Qc_of_Z (2 ^ 127)) "Red";
    levelBlock 300 (Qc_of_Z (2 ^ 127)) "White";
    levelBlock 500 (Qc_of_Z (2 ^ 127)) "Green";
    levelBlock 700 (Qc_of_Z (2 ^ 127)) "Blue";
    levelBlock 900 (Qc_of_Z (2 ^ 127)) "Blue";
    levelBlock 1100 (Qc_of_Z (2 ^ 127)) "Pink" ].

(** A renderer whose strokes and texts cover no pixel. *)
Definition noStroke : Rect → Z → Z → Z → bool := λ _ _ _ _, false.

Definition noText : string → Z → Z → Qc → Z → Z → Z → bool :=
  λ _ _ _ _ _ _ _, false.

(** * Properties *)

(** ** Comparisons *)

Lemma Qc_ltb_lt (x y : Qc) : Qc_ltb x y = true ↔ (x < y)%Qc.
Proof.
  unfold Qc_ltb. rewrite Qclt_alt.
  destruct (x ?= y)%Qc; split; congruence.
Qed.

Lemma Qc_ltb_ge (x y : Qc) : Qc_ltb x y = false ↔ (y ≤ x)%Qc.
Proof.
  rewrite Qcle_ngt, <- Qc_ltb_lt. destruct (Qc_ltb x y); split; congruence.
Qed.

(** ** The area filter *)

(** C6: a contour passes the area filter exactly when its area lies in the
    closed interval from 15000 to 150000: it is rejected strictly below
    15000 and strictly above 150000, and kept at both bounds. *)
Theorem area_filter_closed_interval (a : Qc) :
  (areaRejected a = false ↔ (Qc_of_Z 15000 ≤ a ∧ a ≤ Qc_of_Z 150000)%Qc)
  ∧ (areaRejected a = true ↔ (a < Qc_of_Z 15000 ∨ Qc_of_Z 150000 < a)%Qc)
  ∧ areaRejected (Qc_of_Z 15000) = false
  ∧ areaRejected (Qc_of_Z 150000) = false.
Proof.
  unfold areaRejected. split; [|split; [|split]].
  - rewrite orb_false_iff, !Qc_ltb_ge. tauto.
  - rewrite orb_true_iff, !Qc_ltb_lt. tauto.
  - apply orb_false_iff. by rewrite !Qc_ltb_ge.
  - apply orb_false_iff. by rewrite !Qc_ltb_ge.
Qed.

(** The loop over contours appends one block per contour that passes the
    filter, in order, and nothing else. *)
Lemma scanContours_app indet c acc contours :
  scanContours indet c acc contours =
  acc ++ imap (λ k ct, newBlock (indet (length acc + k)%nat) c ct)
              (filter (λ ct, areaRejected (contourArea ct) = false)
                      contours).
Proof.
  unfold scanContours. revert acc.
  induction contours as [|ct contours IH]; intros acc; simpl.
  - by rewrite app_nil_r.
  - rewrite IH, filter_cons.
    destruct (areaRejected (contourArea ct)) eqn:E.
    + by rewrite decide_False.
    + rewrite decide_True by done.
      rewrite imap_cons, <- app_assoc, Nat.add_0_r. simpl. do 2 f_equal.
      apply imap_ext. intros k ct' _. simpl.
      rewrite length_app. simpl. do 2 f_equal. lia.
Qed.

(** ** The colour matrix *)

Lemma createColorMatrix_foldl self blocks :
  createColorMatrix self blocks = foldl placeBlock (blankMatrix, self) blocks.
Proof. reflexivity. Qed.

Lemma colorCodes_lookup n ch :
  colorCodes newCubeFaceAnalyzer !! n = Some ch →
  map_subscript (colorCodes newCubeFaceAnalyzer) n
  = (ch, colorCodes newCubeFaceAnalyzer).
Proof. intros H. unfold map_subscript. by rewrite H. Qed.

Lemma map_subscript_calibrated n :
  n ∈ calibratedNames →
  ∃ ch, map_subscript (colorCodes newCubeFaceAnalyzer) n
        = (ch, colorCodes newCubeFaceAnalyzer)
        ∧ ch ∈ cellAlphabet ∧ ch ≠ " "%char.
Proof.
  unfold calibratedNames. rewrite !elem_of_cons, elem_of_nil.
  intros [->|[->|[->|[->|[->|[->|[]]]]]]];
    [exists "R"%char|exists "Y"%char|exists "G"%char
    |exists "B"%char|exists "W"%char|exists "P"%char];
    (split; [apply colorCodes_lookup; vm_compute; reflexivity
            |split; [|discriminate]]);
    unfold cellAlphabet; rewrite !elem_of_cons; tauto.
Qed.

Lemma placeBlock_wellFormed m block :
  wellFormedMatrix m → colorName block ∈ calibratedNames →
  ∃ m', placeBlock (m, newCubeFaceAnalyzer) block = (m', newCubeFaceAnalyzer)
        ∧ wellFormedMatrix m'.
Proof.
  intros [Hlen Hcells] Hname. unfold placeBlock.
  destruct (decide (inGrid block)) as [Hin|Hout].
  - destruct (map_subscript_calibrated _ Hname) as (ch & -> & Hch & _).
    eexists. split; [reflexivity|]. split.
    + by rewrite length_alter.
    + apply Forall_alter; [done|]. intros cells _ [Hl Hc]. split.
      * by rewrite length_insert.
      * by apply Forall_insert.
  - exists m. by split.
Qed.

Lemma foldl_placeBlock_wellFormed blocks m :
  wellFormedMatrix m →
  Forall (λ b, colorName b ∈ calibratedNames) blocks →
  ∃ m', foldl placeBlock (m, newCubeFaceAnalyzer) blocks
        = (m', newCubeFaceAnalyzer)
        ∧ wellFormedMatrix m'.
Proof.
  revert m. induction blocks as [|b blocks IH]; intros m Hm Hnames; cbn [foldl].
  - by exists m.
  - inversion_clear Hnames as [|?? Hb Hrest].
    destruct (placeBlock_wellFormed m b Hm Hb) as (m1 & -> & Hm1).
    by apply IH.
Qed.

Lemma blankMatrix_wellFormed : wellFormedMatrix blankMatrix.
Proof.
  split; [done|]. unfold blankMatrix, cellAlphabet. simpl.
  repeat constructor; try done; repeat constructor.
Qed.

(** Blocks outside the grid leave matrix and analyzer as they are. *)
Lemma foldl_placeBlock_filter blocks st :
  foldl placeBlock st blocks = foldl placeBlock st (filter inGrid blocks).
Proof.
  revert st. induction blocks as [|b blocks IH]; intros [m a]; [done|].
  rewrite filter_cons. simpl. destruct (decide (inGrid b)) as [Hin|Hout].
  - simpl. rewrite decide_True by done. apply IH.
  - apply IH.
Qed.

(** C10: on blocks whose colour names are calibrated, [createColorMatrix]
    returns a 3x3 matrix whose cells are the blank or one of the six codes
    R, Y, G, B, W, P, and leaves the analyzer's code map as it was; a block
    whose row or column is outside 0..2 is ignored: the result is that of
    the list with such blocks removed. *)
Theorem createColorMatrix_alphabet (blocks : list ColorBlock) :
  Forall (λ b, colorName b ∈ calibratedNames) blocks →
  wellFormedMatrix (createColorMatrix newCubeFaceAnalyzer blocks).1
  ∧ (createColorMatrix newCubeFaceAnalyzer blocks).2 = newCubeFaceAnalyzer
  ∧ createColorMatrix newCubeFaceAnalyzer blocks
    = createColorMatrix newCubeFaceAnalyzer (filter inGrid blocks).
Proof.
  intros Hnames. rewrite !createColorMatrix_foldl.
  destruct (foldl_placeBlock_wellFormed blocks blankMatrix
              blankMatrix_wellFormed Hnames) as (m' & Hrun & Hm').
  rewrite <- foldl_placeBlock_filter, Hrun. simpl. auto.
Qed.

Lemma createColorMatrix_alphabet_witness :
  let blocks := [ sampleBlock 100 100 "Red" 0 0;
                  sampleBlock 300 100 "Blue" 0 2;
                  sampleBlock 300 300 "Pink" 3 (-1) ] in
  wellFormedMatrix (createColorMatrix newCubeFaceAnalyzer blocks).1
  ∧ (createColorMatrix newCubeFaceAnalyzer blocks).2 = newCubeFaceAnalyzer
  ∧ createColorMatrix newCubeFaceAnalyzer blocks
    = createColorMatrix newCubeFaceAnalyzer (filter inGrid blocks).
Proof.
  apply createColorMatrix_alphabet.
  repeat constructor; unfold calibratedNames; simpl;
    rewrite !elem_of_cons; tauto.
Defined.

(** ** Detection and the region count *)

Lemma scanContours_indet indet c acc contours :
  (∀ k b, acc !! k = Some b → (row b, col b) = indet k) →
  ∀ k b, scanContours indet c acc contours !! k = Some b →
         (row b, col b) = indet k.
Proof.
  intros Hacc k b. rewrite scanContours_app.
  destruct (decide (k < length acc)%nat) as [Hk|Hk].
  - rewrite lookup_app_l by done. apply Hacc.
  - rewrite lookup_app_r, list_lookup_imap by lia.
    destruct (filter _ contours !! (k - length acc)%nat) as [ct|]; [|done].
    simpl. intros [= <-]. simpl.
    replace (length acc + (k - length acc))%nat with k by lia.
    by destruct (indet k).
Qed.

(** Every detected block still carries the indeterminate row and column
    of its own declaration. *)
Lemma detectBlocks_indet self indet img k b :
  detectBlocks self indet img !! k = Some b → (row b, col b) = indet k.
Proof.
  unfold detectBlocks. generalize (colorTable self) as table.
  assert (∀ k b, @nil ColorBlock !! k = Some b → (row b, col b) = indet k)
    as Hnil by done.
  revert Hnil. generalize (@nil ColorBlock) as acc.
  intros acc Hacc table. revert acc Hacc k b.
  induction table as [|c table IH]; intros acc Hacc k b; [apply Hacc|].
  simpl. apply IH. by apply scanContours_indet.
Qed.

(** With a count other than nine, [assignToGrid] is not called. *)
Lemma analyzeCubeFace_mismatch self indet img :
  length (detectBlocks self indet img) ≠ 9%nat →
  analyzeCubeFace self indet img = Some (detectBlocks self indet img).
Proof. intros Hne. unfold analyzeCubeFace. by rewrite decide_False. Qed.

Lemma foldl_placeBlock_outside blocks st :
  Forall (λ b, ¬ inGrid b) blocks → foldl placeBlock st blocks = st.
Proof.
  revert st. induction blocks as [|b blocks IH]; intros [m a] Hout; [done|].
  inversion_clear Hout as [|?? Hb Hrest]. cbn [foldl].
  unfold placeBlock at 2. rewrite decide_False by done. by apply IH.
Qed.

(** The matrix stays blank when no indeterminate pair is a grid position;
    nothing in the program makes it so. *)
Lemma mismatch_blank_when_indet_outside self indet img blocks :
  (∀ k, ¬ (0 ≤ (indet k).1 < 3 ∧ 0 ≤ (indet k).2 < 3)) →
  length (detectBlocks self indet img) ≠ 9%nat →
  analyzeCubeFace self indet img = Some blocks →
  (createColorMatrix self blocks).1 = blankMatrix.
Proof.
  intros Hout Hne Hrun. rewrite analyzeCubeFace_mismatch in Hrun by done.
  injection Hrun as <-. unfold createColorMatrix.
  rewrite foldl_placeBlock_outside; [done|].
  apply Forall_lookup. intros k b Hb.
  pose proof (detectBlocks_indet self indet img k b Hb) as Hpos.
  specialize (Hout k). rewrite <- Hpos in Hout. simpl in Hout.
  unfold inGrid. lia.
Qed.

(** C1 (the code departs from it): eight qualifying regions, in a run where
    the uninitialised [row] and [col] of every fresh block read as 0.  The
    grid assignment is skipped, and [createColorMatrix] writes the code of
    the block into cell (0, 0): the matrix is not blank. *)
Theorem eight_regions_matrix_not_blank :
  ∃ blocks,
    analyzeCubeFace newCubeFaceAnalyzer (λ _, (0, 0)) eightRegions
    = Some blocks
    ∧ length blocks = 8%nat
    ∧ (createColorMatrix newCubeFaceAnalyzer blocks).1
      = [ [ "R"; " "; " " ]; [ " "; " "; " " ]; [ " "; " "; " " ] ]%char
    ∧ (createColorMatrix newCubeFaceAnalyzer blocks).1 ≠ blankMatrix.
Proof.
  eexists. split; [by vm_compute|]. split; [by vm_compute|].
  split; [by vm_compute|]. by vm_compute.
Qed.

(** ** The centroid *)

(** C2: the divisor of the centroid is [m00], the area of the contour, and
    the area filter stands before the division.  A contour whose [m00] is
    zero is rejected by the filter: it is skipped, alone, without a quotient
    being computed, and the scan goes on with the contours after it.  For a
    contour that passes the filter the divisor is at least 15000, so never
    zero; it gives one block, whose centroid is the pair of quotients. *)
Theorem zero_moment_contour_skipped
    (indet : nat → Z * Z) (c : ColorRange) (acc : list ColorBlock)
    (ct : Contour) (rest : list Contour) :
  (m00 (moments ct) = Qc_of_Z 0 →
   areaRejected (contourArea ct) = true
   ∧ scanContours indet c acc (ct :: rest) = scanContours indet c acc rest)
  ∧ (areaRejected (contourArea ct) = false →
     (Qc_of_Z 15000 ≤ m00 (moments ct))%Qc
     ∧ m00 (moments ct) ≠ Qc_of_Z 0
     ∧ scanContours indet c acc (ct :: rest)
       = scanContours indet c
           (acc ++ [newBlock (indet (length acc)) c ct]) rest
     ∧ center (newBlock (indet (length acc)) c ct)
       = mkPoint2f (centroidCoordinate (m10 (moments ct)) (m00 (moments ct)))
                   (centroidCoordinate (m01 (moments ct))
                                       (m00 (moments ct)))).
Proof.
  split.
  - simpl. intros Hzero.
    assert (areaRejected (contourArea ct) = true) as Hrej
      by by rewrite Hzero.
    split; [done|]. unfold scanContours. cbn [foldl]. by rewrite Hrej.
  - intros Hpass. simpl.
    assert (Qc_of_Z 15000 ≤ contourArea ct)%Qc as Hlo.
    { unfold areaRejected in Hpass.
      apply orb_false_iff in Hpass as [Hpass _]. by apply Qc_ltb_ge. }
    split; [done|]. split.
    + intros Hzero. rewrite Hzero in Hpass. by vm_compute in Hpass.
    + split; [|done]. unfold scanContours. cbn [foldl]. by rewrite Hpass.
Qed.

Lemma zero_moment_contour_skipped_witness :
  (areaRejected (contourArea degenerateContour) = true
   ∧ scanContours mixedGarbage redRange []
                  [degenerateContour; sampleContour 20000 300 100]
     = scanContours mixedGarbage redRange [] [sampleContour 20000 300 100])
  ∧ (Qc_of_Z 15000 ≤ m00 (moments (sampleContour 20000 100 100)))%Qc
  ∧ m00 (moments (sampleContour 20000 100 100)) ≠ Qc_of_Z 0
  ∧ scanContours mixedGarbage redRange []
                 [sampleContour 20000 100 100; degenerateContour]
    = scanContours mixedGarbage redRange
        ([] ++ [newBlock (mixedGarbage (length (@nil ColorBlock))) redRange
                         (sampleContour 20000 100 100)])
        [degenerateContour]
  ∧ center (newBlock (mixedGarbage (length (@nil ColorBlock))) redRange
                     (sampleContour 20000 100 100))
    = mkPoint2f
        (centroidCoordinate (m10 (moments (sampleContour 20000 100 100)))
                            (m00 (moments (sampleContour 20000 100 100))))
        (centroidCoordinate (m01 (moments (sampleContour 20000 100 100)))
                            (m00 (moments (sampleContour 20000 100 100)))).
Proof.
  split.
  - apply (proj1 (zero_moment_contour_skipped mixedGarbage redRange []
                    degenerateContour [sampleContour 20000 300 100])).
    reflexivity.
  - apply (proj2 (zero_moment_contour_skipped mixedGarbage redRange []
                    (sampleContour 20000 100 100) [degenerateContour])).
    reflexivity.
Defined.

(** A degenerate contour between two ordinary ones leaves no block; its
    neighbours give theirs. *)
Example degenerate_contour_skipped :
  detectBlocks newCubeFaceAnalyzer (λ _, (0, 0))
    (imageOf "Red" [ sampleContour 20000 100 100;
                     degenerateContour;
                     sampleContour 20000 300 100 ])
  = detectBlocks newCubeFaceAnalyzer (λ _, (0, 0))
      (imageOf "Red" [ sampleContour 20000 100 100;
                       sampleContour 20000 300 100 ])
  ∧ length (detectBlocks newCubeFaceAnalyzer (λ _, (0, 0))
              (imageOf "Red" [ sampleContour 20000 100 100;
                               degenerateContour;
                               sampleContour 20000 300 100 ])) = 2%nat.
Proof. split; by vm_compute. Qed.

(** ** The order of the faces in the net *)

(** With six matrices the reordering is the one the comment in [main]
    announces: Up(4), Left(2), Front(0), Right(3), Back(1), Down(5). *)
Lemma reorderMatrices_six (front back left right up down : list (list ascii)) :
  reorderMatrices [front; back; left; right; up; down]
  = [up; left; front; right; back; down].
Proof. reflexivity. Qed.

(** With fewer matrices the indices of [order] no longer name the faces of
    the comment: the list is read by position. *)
Lemma reorderMatrices_five (a b c d e : list (list ascii)) :
  reorderMatrices [a; b; c; d; e] = [e; c; a; d; b].
Proof. reflexivity. Qed.

(** C7 (the code departs from it): the Front image fails to load.  The
    five matrices collected are those of Back, Left, Right, Up and Down;
    the list handed to the net renderer has the matrix of Down at position
    0 (Up), of Right at 1 (Left), of Back at 2 (Front), of Up at 3 (Right)
    and of Left at 4 (Back). *)
Theorem net_order_wrong_when_front_missing :
  mainRun frontMissing (λ _ _, (0, 0))
  = Some ([ solidMatrix "P"; solidMatrix "G"; solidMatrix "B";
            solidMatrix "Y"; solidMatrix "W" ],
          Some [ solidMatrix "W"; solidMatrix "B"; solidMatrix "P";
                 solidMatrix "Y"; solidMatrix "G" ]).
Proof. by vm_compute. Qed.

(** When the six images load, the net receives Up, Left, Front, Right,
    Back, Down. *)
Lemma net_order_right_when_all_load :
  mainRun allSix (λ _ _, (0, 0))
  = Some ([ solidMatrix "R"; solidMatrix "P"; solidMatrix "G";
            solidMatrix "B"; solidMatrix "Y"; solidMatrix "W" ],
          Some [ solidMatrix "Y"; solidMatrix "G"; solidMatrix "R";
                 solidMatrix "B"; solidMatrix "P"; solidMatrix "W" ]).
Proof. by vm_compute. Qed.

(** ** [std::sort]: permutation, order, uniqueness *)

Section std_sort_facts.
Context {A : Type} (less : A → A → bool).

Lemma linear_insert_perm x l : linear_insert less x l ≡ₚ x :: l.
Proof.
  induction l as [|y l IH]; simpl; [done|].
  destruct (less x y); [done|]. by rewrite IH, Permutation_swap.
Qed.

Lemma foldl_linear_insert_perm l acc :
  foldl (λ sorted x, linear_insert less x sorted) acc l ≡ₚ acc ++ l.
Proof.
  revert acc. induction l as [|x l IH]; intros acc; simpl.
  - by rewrite app_nil_r.
  - rewrite IH, linear_insert_perm. simpl. apply Permutation_middle.
Qed.

Lemma std_sort_perm l : std_sort less l ≡ₚ l.
Proof. apply (foldl_linear_insert_perm l []). Qed.

Lemma std_sort_length l : length (std_sort less l) = length l.
Proof. by rewrite std_sort_perm. Qed.

Hypothesis less_asym : ∀ x y, less x y = true → less y x = false.

Lemma linear_insert_HdRel a x l :
  notAfter less a x → HdRel (notAfter less) a l →
  HdRel (notAfter less) a (linear_insert less x l).
Proof.
  intros Hax Hal. destruct l as [|y l]; simpl; [by constructor|].
  destruct (less x y); constructor; [done|]. by inversion Hal.
Qed.

Lemma linear_insert_sorted x l :
  Sorted (notAfter less) l → Sorted (notAfter less) (linear_insert less x l).
Proof.
  induction 1 as [|y l Hl IH Hy]; simpl.
  - repeat constructor.
  - destruct (less x y) eqn:E.
    + constructor; [by constructor|]. constructor. by apply less_asym.
    + constructor; [done|]. by apply linear_insert_HdRel.
Qed.

Lemma foldl_linear_insert_sorted l acc :
  Sorted (notAfter less) acc →
  Sorted (notAfter less) (foldl (λ sorted x, linear_insert less x sorted) acc l).
Proof.
  revert acc. induction l as [|x l IH]; intros acc Hacc; simpl; [done|].
  by apply IH, linear_insert_sorted.
Qed.

Lemma std_sort_sorted l : Sorted (notAfter less) (std_sort less l).
Proof. apply foldl_linear_insert_sorted. constructor. Qed.

Hypothesis notAfter_trans : Transitive (notAfter less).

(** Two permutations of a list without distinct equivalent elements are
    sorted into the same list. *)
Lemma std_sort_unique l l' :
  l ≡ₚ l' →
  (∀ x y, x ∈ l → y ∈ l → less x y = false → less y x = false → x = y) →
  std_sort less l = std_sort less l'.
Proof.
  intros Hperm Hties. apply (Sorted_unique_strong (notAfter less)).
  - intros x y Hx Hy Hxy Hyx. apply Hties; try done.
    + by rewrite std_sort_perm in Hx.
    + rewrite std_sort_perm in Hy. by rewrite Hperm.
  - apply std_sort_sorted.
  - apply std_sort_sorted.
  - by rewrite !std_sort_perm.
Qed.

(** A sorted list without distinct equivalent elements is its own sort. *)
Lemma std_sort_of_sorted l :
  Sorted (notAfter less) l →
  (∀ x y, x ∈ l → y ∈ l → less x y = false → less y x = false → x = y) →
  std_sort less l = l.
Proof.
  intros Hsorted Hties. apply (Sorted_unique_strong (notAfter less)).
  - intros x y Hx Hy Hxy Hyx. apply Hties; try done.
    by rewrite std_sort_perm in Hx.
  - apply std_sort_sorted.
  - done.
  - apply std_sort_perm.
Qed.
End std_sort_facts.

(** The result of [std::sort] depends on the comparator through the pairs
    of elements of the range only. *)
Section std_sort_ext.
Context {A : Type} (less less' : A → A → bool).

Lemma linear_insert_ext x l :
  (∀ y, y ∈ l → less x y = less' x y) →
  linear_insert less x l = linear_insert less' x l.
Proof.
  induction l as [|y l IH]; intros Hext; simpl; [done|].
  rewrite <- (Hext y) by left. destruct (less x y); [done|].
  f_equal. apply IH. intros z Hz. apply Hext. by right.
Qed.

Lemma foldl_linear_insert_ext l acc :
  (∀ x y, x ∈ acc ++ l → y ∈ acc ++ l → less x y = less' x y) →
  foldl (λ sorted x, linear_insert less x sorted) acc l
  = foldl (λ sorted x, linear_insert less' x sorted) acc l.
Proof.
  revert acc. induction l as [|x l IH]; intros acc Hext; simpl; [done|].
  rewrite <- (linear_insert_ext x acc).
  - apply IH. intros y z Hy Hz. apply Hext.
    + rewrite linear_insert_perm in Hy. by rewrite <- Permutation_middle.
    + rewrite linear_insert_perm in Hz. by rewrite <- Permutation_middle.
  - intros y Hy. apply Hext; set_solver.
Qed.

Lemma std_sort_ext l :
  (∀ x y, x ∈ l → y ∈ l → less x y = less' x y) →
  std_sort less l = std_sort less' l.
Proof. intros Hext. by apply foldl_linear_insert_ext. Qed.
End std_sort_ext.

(** ** The three comparators *)

Lemma Qc_ltb_asym x y : Qc_ltb x y = true → Qc_ltb y x = false.
Proof.
  rewrite Qc_ltb_lt, Qc_ltb_ge. apply Qclt_le_weak.
Qed.

Lemma Qc_ltb_ties x y : Qc_ltb x y = false → Qc_ltb y x = false → x = y.
Proof. rewrite !Qc_ltb_ge. intros H1 H2. by apply Qcle_antisym. Qed.

Section keyed.
Context {A : Type} (key : A → Qc).

Lemma keyLess_asym a b : keyLess key a b = true → keyLess key b a = false.
Proof. apply Qc_ltb_asym. Qed.

Lemma keyLess_notAfter_trans : Transitive (notAfter (keyLess key)).
Proof.
  intros a b c. unfold notAfter, keyLess. rewrite !Qc_ltb_ge.
  apply Qcle_trans.
Qed.
End keyed.

Global Existing Instance keyLess_notAfter_trans.

Lemma compareColorBlocks_spec a b :
  compareColorBlocks a b = true ↔ posLt (gridPos a) (gridPos b).
Proof.
  unfold compareColorBlocks, posLt, gridPos. simpl.
  repeat case_bool_decide; split; (lia || congruence).
Qed.

Lemma compareColorBlocks_false a b :
  compareColorBlocks a b = false ↔ ¬ posLt (gridPos a) (gridPos b).
Proof.
  rewrite <- compareColorBlocks_spec.
  destruct (compareColorBlocks a b); split; congruence.
Qed.

Lemma compareColorBlocks_asym a b :
  compareColorBlocks a b = true → compareColorBlocks b a = false.
Proof.
  rewrite compareColorBlocks_spec, compareColorBlocks_false.
  unfold posLt. lia.
Qed.

Lemma compareColorBlocks_notAfter_trans :
  Transitive (notAfter compareColorBlocks).
Proof.
  intros a b c. unfold notAfter. rewrite !compareColorBlocks_false.
  unfold posLt. lia.
Qed.

Global Existing Instance compareColorBlocks_notAfter_trans.

Lemma compareColorBlocks_ties a b :
  compareColorBlocks a b = false → compareColorBlocks b a = false →
  gridPos a = gridPos b.
Proof.
  rewrite !compareColorBlocks_false. unfold posLt, gridPos. simpl.
  intros H1 H2. f_equal; lia.
Qed.

(** ** The column pass *)

Lemma colChanged_refl b : colChanged b b.
Proof. exists (col b). by destruct b. Qed.

Lemma colChanged_set_col b b' c : colChanged b b' → colChanged b (set_col c b').
Proof. intros [c' ->]. by exists c. Qed.

Lemma colChanged_row b b' : colChanged b b' → row b' = row b.
Proof. by intros [c ->]. Qed.

Lemma colChanged_centerX b b' : colChanged b b' → centerX b' = centerX b.
Proof. by intros [c ->]. Qed.

Lemma xLess_valid blocks a b :
  is_Some (blocks !! a) → is_Some (blocks !! b) →
  xLess blocks a b = keyLess (xKey blocks) a b.
Proof.
  intros [ba Ha] [bb Hb]. unfold xLess, keyLess, xKey. by rewrite Ha, Hb.
Qed.

Lemma rowBlocks_elem_of r blocks i :
  i ∈ rowBlocks r blocks ↔ ∃ b, blocks !! i = Some b ∧ row b = r.
Proof.
  unfold rowBlocks. rewrite list_elem_of_filter, elem_of_seq. split.
  - intros [Hrow _]. destruct (blocks !! i) as [b|]; [|done].
    exists b. split; [done|]. simpl in Hrow. congruence.
  - intros (b & Hb & <-). rewrite Hb. split; [done|].
    apply lookup_lt_Some in Hb. lia.
Qed.

Lemma rowBlocks_NoDup r blocks : NoDup (rowBlocks r blocks).
Proof. apply list.NoDup_filter, NoDup_seq. Qed.

Lemma rowBlocks_valid r blocks i :
  i ∈ rowBlocks r blocks → is_Some (blocks !! i).
Proof. rewrite rowBlocks_elem_of. intros (b & -> & _). by eexists. Qed.

Lemma sortedRow_keyed r blocks :
  sortedRow r blocks = std_sort (keyLess (xKey blocks)) (rowBlocks r blocks).
Proof.
  apply std_sort_ext. intros a b Ha Hb.
  apply xLess_valid; by eapply rowBlocks_valid.
Qed.

Lemma sortedRow_perm r blocks : sortedRow r blocks ≡ₚ rowBlocks r blocks.
Proof. apply std_sort_perm. Qed.

Lemma sortedRow_NoDup r blocks : NoDup (sortedRow r blocks).
Proof. rewrite sortedRow_perm. apply rowBlocks_NoDup. Qed.

Lemma colChanged_lookup B B' i :
  Forall2 colChanged B B' →
  B' !! i = None ∧ B !! i = None
  ∨ ∃ b b', B !! i = Some b ∧ B' !! i = Some b' ∧ colChanged b b'.
Proof.
  intros H. destruct (B !! i) as [b|] eqn:Hb.
  - destruct (Forall2_lookup_l _ _ _ _ _ H Hb) as (b' & Hb' & Hc).
    right. by exists b, b'.
  - left. split; [|done]. apply lookup_ge_None.
    rewrite <- (list.Forall2_length _ _ _ H). by apply lookup_ge_None.
Qed.

Lemma rowBlocks_colChanged r B B' :
  Forall2 colChanged B B' → rowBlocks r B' = rowBlocks r B.
Proof.
  intros H. unfold rowBlocks. rewrite <- (list.Forall2_length _ _ _ H).
  apply list_filter_iff. intros i.
  destruct (colChanged_lookup B B' i H) as [[-> ->]|(b & b' & -> & -> & Hc)];
    [done|].
  simpl. by rewrite (colChanged_row _ _ Hc).
Qed.

Lemma xLess_colChanged B B' a b :
  Forall2 colChanged B B' → xLess B' a b = xLess B a b.
Proof.
  intros H. unfold xLess.
  destruct (colChanged_lookup B B' a H) as [[-> ->]|(ba & ba' & -> & -> & Ha)];
    [done|].
  destruct (colChanged_lookup B B' b H) as [[-> ->]|(bb & bb' & -> & -> & Hb)];
    [done|].
  by rewrite (colChanged_centerX _ _ Ha), (colChanged_centerX _ _ Hb).
Qed.

Lemma sortedRow_colChanged r B B' :
  Forall2 colChanged B B' → sortedRow r B' = sortedRow r B.
Proof.
  intros H. unfold sortedRow. rewrite (rowBlocks_colChanged r B B' H).
  apply std_sort_ext. intros a b _ _. by apply xLess_colChanged.
Qed.

Lemma indexIn_lookup i l : i ∈ l → l !! indexIn i l = Some i.
Proof.
  induction l as [|j l IH]; [by intros ?%elem_of_nil|].
  intros Hin. simpl. destruct (decide (j = i)) as [->|Hne]; [done|].
  apply IH. apply elem_of_cons in Hin as [->|]; done.
Qed.

Lemma indexIn_lt i l : i ∈ l → (indexIn i l < length l)%nat.
Proof. intros Hin. eapply lookup_lt_Some, indexIn_lookup, Hin. Qed.

Lemma indexIn_inj i j l :
  i ∈ l → j ∈ l → indexIn i l = indexIn j l → i = j.
Proof.
  intros Hi Hj Heq. apply indexIn_lookup in Hi, Hj.
  rewrite Heq in Hi. congruence.
Qed.

Lemma indexIn_app_middle i l1 l2 :
  i ∉ l1 → indexIn i (l1 ++ i :: l2) = length l1.
Proof.
  induction l1 as [|j l1 IH]; simpl; intros Hnot.
  - by rewrite decide_True.
  - apply not_elem_of_cons in Hnot as [Hne Hnot].
    rewrite decide_False by done. by rewrite IH.
Qed.

Lemma assignCols_length ptrs c blocks :
  length (assignCols c ptrs blocks) = length blocks.
Proof.
  revert c blocks. induction ptrs as [|p ptrs IH]; intros c blocks; simpl;
    [done|].
  by rewrite IH, length_alter.
Qed.

Lemma assignCols_lookup ptrs c blocks i :
  NoDup ptrs →
  assignCols c ptrs blocks !! i =
  if decide (i ∈ ptrs)
  then set_col (Z.of_nat (c + indexIn i ptrs)) <$> blocks !! i
  else blocks !! i.
Proof.
  revert c blocks. induction ptrs as [|p ptrs IH]; intros c blocks Hnd.
  - done.
  - apply NoDup_cons in Hnd as [Hp Hnd]. cbn [assignCols indexIn].
    rewrite IH by done.
    destruct (decide (p = i)) as [->|Hne].
    + rewrite decide_False by done.
      rewrite decide_True by left. rewrite list_lookup_alter_eq.
      by rewrite Nat.add_0_r.
    + rewrite list_lookup_alter_ne by done.
      destruct (decide (i ∈ ptrs)) as [Hin|Hnot].
      * rewrite decide_True by (by right). do 3 f_equal. lia.
      * rewrite decide_False; [done|].
        intros [?|?]%elem_of_cons; congruence.
Qed.

(** What one pass does to the block behind pointer [i]. *)
Lemma columnPass_lookup B1 B r i :
  Forall2 colChanged B1 B →
  columnPass B r !! i =
  (λ b, if decide (row b = r)
        then set_col (Z.of_nat (indexIn i (sortedRow r B1))) b else b)
    <$> B !! i.
Proof.
  intros H. unfold columnPass. fold (sortedRow r B).
  rewrite assignCols_lookup by apply sortedRow_NoDup.
  rewrite (sortedRow_colChanged r B1 B H).
  destruct (decide (i ∈ sortedRow r B1)) as [Hin|Hnot].
  - rewrite sortedRow_perm, <- (rowBlocks_colChanged r B1 B H) in Hin.
    apply rowBlocks_elem_of in Hin as (b & -> & Hrow). simpl.
    by rewrite decide_True.
  - destruct (B !! i) as [b|] eqn:Hb; [|done]. simpl.
    rewrite decide_False; [done|]. intros Hrow. apply Hnot.
    rewrite sortedRow_perm, <- (rowBlocks_colChanged r B1 B H).
    apply rowBlocks_elem_of. by exists b.
Qed.

Lemma columnPass_colChanged B1 B r :
  Forall2 colChanged B1 B → Forall2 colChanged B1 (columnPass B r).
Proof.
  intros H. apply Forall2_same_length_lookup. split.
  - unfold columnPass. rewrite assignCols_length.
    by apply list.Forall2_length in H.
  - intros i b1 b' Hb1 Hb'. rewrite (columnPass_lookup B1 B r i H) in Hb'.
    destruct (Forall2_lookup_l _ _ _ _ _ H Hb1) as (b & Hb & Hc).
    rewrite Hb in Hb'. simpl in Hb'. injection Hb' as <-.
    destruct (decide (row b = r)); [by apply colChanged_set_col|done].
Qed.

Lemma Forall2_colChanged_refl B : Forall2 colChanged B B.
Proof. induction B; constructor; [apply colChanged_refl|done]. Qed.

(** The three passes, pointer by pointer. *)
Lemma columnPasses_imap B1 :
  foldl columnPass B1 [0; 1; 2] = imap (noteColumn B1) B1.
Proof.
  simpl.
  pose proof (Forall2_colChanged_refl B1) as H0.
  pose proof (columnPass_colChanged B1 _ 0 H0) as H1.
  pose proof (columnPass_colChanged B1 _ 1 H1) as H2.
  apply list_eq. intros i.
  rewrite (columnPass_lookup B1 _ 2 i H2), (columnPass_lookup B1 _ 1 i H1),
    (columnPass_lookup B1 _ 0 i H0), list_lookup_imap.
  destruct (B1 !! i) as [b|]; [|done]. simpl. f_equal.
  unfold noteColumn.
  destruct (decide (row b = 0)) as [E0|N0]; simpl;
    destruct (decide (row b = 1)) as [E1|N1]; simpl;
    destruct (decide (row b = 2)) as [E2|N2]; simpl;
    destruct (decide (0 ≤ row b < 3)) as [Hin|Hout]; try lia;
    rewrite ?E0, ?E1, ?E2; done.
Qed.

(** ** Rows and columns of the tagged blocks *)

Lemma assignToGrid_tagged blocks t1 t2 :
  rowThresholds (sortedY blocks) = Some (t1, t2) →
  assignToGrid blocks
  = Some (std_sort compareColorBlocks (taggedBlocks t1 t2 blocks)).
Proof.
  intros Ht. unfold assignToGrid. fold (sortedY blocks). rewrite Ht.
  cbn [mbind option_bind]. by rewrite columnPasses_imap.
Qed.

Lemma sortedY_length blocks : length (sortedY blocks) = length blocks.
Proof. unfold sortedY. by rewrite std_sort_length, length_fmap. Qed.

Lemma rowThresholds_Some ys y2 y3 y5 y6 :
  ys !! 2%nat = Some y2 → ys !! 3%nat = Some y3 →
  ys !! 5%nat = Some y5 → ys !! 6%nat = Some y6 →
  rowThresholds ys = Some (rowThreshold y2 y3, rowThreshold y5 y6).
Proof. intros H2 H3 H5 H6. unfold rowThresholds. by rewrite H2, H3, H5, H6. Qed.

Lemma rowThresholds_seven ys :
  (7 ≤ length ys)%nat →
  ∃ y2 y3 y5 y6,
    ys !! 2%nat = Some y2 ∧ ys !! 3%nat = Some y3
    ∧ ys !! 5%nat = Some y5 ∧ ys !! 6%nat = Some y6
    ∧ rowThresholds ys = Some (rowThreshold y2 y3, rowThreshold y5 y6).
Proof.
  intros Hlen.
  destruct (lookup_lt_is_Some_2 ys 2) as [y2 H2]; [lia|].
  destruct (lookup_lt_is_Some_2 ys 3) as [y3 H3]; [lia|].
  destruct (lookup_lt_is_Some_2 ys 5) as [y5 H5]; [lia|].
  destruct (lookup_lt_is_Some_2 ys 6) as [y6 H6]; [lia|].
  exists y2, y3, y5, y6. repeat (split; [done|]).
  by apply rowThresholds_Some.
Qed.

Lemma rowIndex_range t1 t2 y : 0 ≤ rowIndex t1 t2 y < 3.
Proof. unfold rowIndex. repeat case_match; lia. Qed.

Lemma row_assignRow t1 t2 b :
  row (assignRow t1 t2 b) = rowIndex t1 t2 (centerY b).
Proof. done. Qed.

Lemma taggedBlocks_lookup t1 t2 blocks i :
  taggedBlocks t1 t2 blocks !! i =
  (λ b, set_col (Z.of_nat (columnOf t1 t2 blocks i b)) (assignRow t1 t2 b))
    <$> blocks !! i.
Proof.
  unfold taggedBlocks. rewrite list_lookup_imap, list_lookup_fmap.
  destruct (blocks !! i) as [b|]; [|done]. simpl. f_equal.
  unfold noteColumn. rewrite row_assignRow.
  by rewrite decide_True by apply rowIndex_range.
Qed.

Lemma taggedBlocks_length t1 t2 blocks :
  length (taggedBlocks t1 t2 blocks) = length blocks.
Proof. unfold taggedBlocks. by rewrite length_imap, length_fmap. Qed.

Lemma pointer_in_sortedRow t1 t2 blocks i b :
  blocks !! i = Some b →
  i ∈ sortedRow (rowIndex t1 t2 (centerY b)) (assignRow t1 t2 <$> blocks).
Proof.
  intros Hb. rewrite sortedRow_perm. apply rowBlocks_elem_of.
  exists (assignRow t1 t2 b). by rewrite list_lookup_fmap, Hb.
Qed.

Lemma rowBlocks_length_le r blocks :
  (length (rowBlocks r blocks) ≤ length blocks)%nat.
Proof.
  unfold rowBlocks. etrans; [apply length_filter|]. by rewrite length_seq.
Qed.

Lemma columnOf_lt t1 t2 blocks i b :
  blocks !! i = Some b →
  (columnOf t1 t2 blocks i b
   < length (rowBlocks (rowIndex t1 t2 (centerY b))
                       (assignRow t1 t2 <$> blocks)))%nat.
Proof.
  intros Hb. rewrite <- sortedRow_perm.
  by apply indexIn_lt, pointer_in_sortedRow.
Qed.

(** Two pointers never get the same grid position. *)
Lemma taggedBlocks_pos_inj t1 t2 blocks i j a b :
  taggedBlocks t1 t2 blocks !! i = Some a →
  taggedBlocks t1 t2 blocks !! j = Some b →
  gridPos a = gridPos b → i = j.
Proof.
  rewrite !taggedBlocks_lookup.
  destruct (blocks !! i) as [bi|] eqn:Hi; [|done].
  destruct (blocks !! j) as [bj|] eqn:Hj; [|done]. simpl.
  intros [= <-] [= <-]. unfold gridPos. simpl. intros [= Hrow Hcol].
  apply Nat2Z.inj in Hcol. unfold columnOf in Hcol. rewrite <- Hrow in Hcol.
  eapply indexIn_inj; [| |exact Hcol].
  - by apply pointer_in_sortedRow.
  - rewrite Hrow. by apply pointer_in_sortedRow.
Qed.

Lemma taggedBlocks_NoDup_pos t1 t2 blocks :
  NoDup (gridPos <$> taggedBlocks t1 t2 blocks).
Proof.
  apply NoDup_alt. intros i j p. rewrite !list_lookup_fmap.
  destruct (taggedBlocks t1 t2 blocks !! i) as [a|] eqn:Ha; [|done].
  destruct (taggedBlocks t1 t2 blocks !! j) as [b|] eqn:Hb; [|done].
  simpl. intros [= <-] Hp.
  eapply taggedBlocks_pos_inj; [exact Ha|exact Hb|congruence].
Qed.

Lemma taggedBlocks_erase t1 t2 blocks :
  eraseGrid <$> taggedBlocks t1 t2 blocks = eraseGrid <$> blocks.
Proof.
  apply list_eq. intros i.
  rewrite !list_lookup_fmap, taggedBlocks_lookup.
  by destruct (blocks !! i).
Qed.

Lemma taggedBlocks_bounds t1 t2 blocks :
  Forall (λ b, 0 ≤ row b < 3 ∧ 0 ≤ col b < Z.of_nat (length blocks))
         (taggedBlocks t1 t2 blocks).
Proof.
  apply Forall_lookup. intros i b'. rewrite taggedBlocks_lookup.
  destruct (blocks !! i) as [b|] eqn:Hb; [|done]. simpl. intros [= <-].
  simpl. split; [apply rowIndex_range|].
  pose proof (columnOf_lt t1 t2 blocks i b Hb) as Hlt.
  pose proof (rowBlocks_length_le (rowIndex t1 t2 (centerY b))
                (assignRow t1 t2 <$> blocks)) as Hle.
  rewrite length_fmap in Hle. lia.
Qed.

(** ** Counting *)

Section count.
Context {A : Type}.
Implicit Types (p q : A → bool) (l : list A).

Lemma count_app p l1 l2 : count p (l1 ++ l2) = (count p l1 + count p l2)%nat.
Proof. induction l1 as [|x l1 IH]; simpl; [done|]. rewrite IH. lia. Qed.

Lemma count_perm p l l' : l ≡ₚ l' → count p l = count p l'.
Proof. induction 1; simpl; lia. Qed.

Lemma count_ext p q l :
  (∀ x, x ∈ l → p x = q x) → count p l = count q l.
Proof.
  induction l as [|x l IH]; intros Hext; simpl; [done|].
  rewrite (Hext x) by left. rewrite IH; [done|].
  intros y Hy. apply Hext. by right.
Qed.

Lemma count_all p l : Forall (λ x, p x = true) l → count p l = length l.
Proof. induction 1 as [|x l Hx _ IH]; simpl; [done|]. by rewrite Hx, IH. Qed.

Lemma count_none p l : Forall (λ x, p x = false) l → count p l = 0%nat.
Proof. induction 1 as [|x l Hx _ IH]; simpl; [done|]. by rewrite Hx, IH. Qed.

Lemma count_split p q l :
  count p l
  = (count (λ x, p x && q x) l + count (λ x, p x && negb (q x)) l)%nat.
Proof.
  induction l as [|x l IH]; simpl; [done|]. rewrite IH.
  destruct (p x), (q x); simpl; lia.
Qed.

Lemma count_filter p l :
  length (filter (λ x, p x = true) l) = count p l.
Proof.
  induction l as [|x l IH]; simpl; [done|]. rewrite filter_cons.
  destruct (p x) eqn:E.
  - rewrite decide_True by done. simpl. by rewrite IH.
  - rewrite decide_False by done. by rewrite IH.
Qed.

End count.

(** Counting the positions of a list amounts to counting its elements. *)
Lemma count_seq_lookup {A} (p : A → bool) (l : list A) :
  count (λ i, from_option p false (l !! i)) (seq 0 (length l)) = count p l.
Proof.
  induction l as [|x l IH] using rev_ind; [done|].
  rewrite length_app, Nat.add_comm. cbn [length Nat.add].
  rewrite seq_S, !count_app. cbn [count Nat.add].
  rewrite list_lookup_middle by done. cbn [from_option]. f_equal.
  rewrite <- IH. apply count_ext. intros i Hi.
  apply elem_of_seq in Hi. by rewrite lookup_app_l by lia.
Qed.

Lemma count_fmap {A B} (f : A → B) (p : B → bool) (l : list A) :
  count p (f <$> l) = count (p ∘ f) l.
Proof. induction l as [|x l IH]; simpl; [done|]. f_equal. apply IH. Qed.

(** ** Sorted lists of rationals *)

Lemma Qc_ltb_notAfter_trans : Transitive (notAfter Qc_ltb).
Proof.
  intros a b c. unfold notAfter. rewrite !Qc_ltb_ge. apply Qcle_trans.
Qed.

Global Existing Instance Qc_ltb_notAfter_trans.

Lemma StronglySorted_lookup_le {A} (R : relation A) `{!Reflexive R} s i j x y :
  StronglySorted R s → s !! i = Some x → s !! j = Some y → (i ≤ j)%nat →
  R x y.
Proof.
  intros Hs. revert i j. induction Hs as [|z s Hs IH Hz]; intros i j Hi Hj Hij.
  - done.
  - destruct i as [|i], j as [|j]; simpl in *; try lia.
    + by simplify_eq.
    + simplify_eq. eapply Forall_lookup_1; [exact Hz|exact Hj].
    + eapply IH; [exact Hi|exact Hj|lia].
Qed.

Lemma Qc_ltb_notAfter_refl : Reflexive (notAfter Qc_ltb).
Proof. intros a. unfold notAfter. apply Qc_ltb_ge, Qcle_refl. Qed.

Global Existing Instance Qc_ltb_notAfter_refl.

Lemma sortedY_sorted blocks : StronglySorted (notAfter Qc_ltb) (sortedY blocks).
Proof.
  apply Sorted_StronglySorted; [apply _|].
  apply std_sort_sorted, Qc_ltb_asym.
Qed.

(** [y < t] is downward closed in [y], whatever the float [t]. *)
Lemma floatLess_mono (y y' : Qc) (t : spec_float) :
  (y ≤ y')%Qc → floatLess y' t = true → floatLess y t = true.
Proof.
  intros Hle. destruct t as [s|[|]| |s m e]; simpl; try done;
    rewrite !Qc_ltb_lt; intros Hlt; by eapply Qcle_lt_trans.
Qed.

Lemma floatLess_gap (y y' : Qc) (t : spec_float) :
  floatLess y t = true → floatLess y' t = false → (y < y')%Qc.
Proof.
  intros Hy Hy'. apply Qcnot_le_lt. intros Hle.
  by rewrite (floatLess_mono y' y t Hle Hy) in Hy'.
Qed.

(** A sorted list splits into the values that pass a downward closed test
    and the others. *)
Lemma sorted_split (p : Qc → bool) s :
  (∀ y y', (y ≤ y')%Qc → p y' = true → p y = true) →
  StronglySorted (notAfter Qc_ltb) s →
  Forall (λ y, p y = true) (take (count p s) s)
  ∧ Forall (λ y, p y = false) (drop (count p s) s).
Proof.
  intros Hp. induction 1 as [|x s Hs IH Hx]; [by split|]. cbn [count].
  destruct (p x) eqn:E; cbn [take drop].
  - destruct IH as [IH1 IH2]. split; [by constructor|done].
  - assert (Forall (λ y, p y = false) s) as Hall.
    { eapply Forall_impl; [exact Hx|]. intros y Hxy. simpl in Hxy.
      destruct (p y) eqn:Ey; [|done].
      apply Qc_ltb_ge in Hxy. by rewrite (Hp x y Hxy Ey) in E. }
    rewrite (count_none _ _ Hall). split; [done|by constructor].
Qed.

Lemma sorted_below_split s t :
  StronglySorted (notAfter Qc_ltb) s →
  Forall (λ y, floatLess y t = true) (take (count (λ y, floatLess y t) s) s)
  ∧ Forall (λ y, floatLess y t = false)
           (drop (count (λ y, floatLess y t) s) s).
Proof.
  apply (sorted_split (λ y, floatLess y t)). intros y y'.
  apply floatLess_mono.
Qed.

(** In a sorted list at most [k] values pass a downward closed test exactly
    when the value at index [k] fails it. *)
Lemma count_le_sorted (p : Qc → bool) s k b :
  (∀ y y', (y ≤ y')%Qc → p y' = true → p y = true) →
  StronglySorted (notAfter Qc_ltb) s →
  s !! k = Some b →
  (count p s ≤ k)%nat ↔ p b = false.
Proof.
  intros Hp Hs Hb. destruct (sorted_split p s Hp Hs) as [Hlow Hhigh].
  split.
  - intros Hle. apply (Forall_lookup_1 _ _ (k - count p s)%nat b Hhigh).
    rewrite lookup_drop. by replace (count p s + (k - count p s))%nat with k
      by lia.
  - intros Hfalse. destruct (decide (count p s ≤ k)%nat) as [|Hgt]; [done|].
    pose proof (Forall_lookup_1 _ _ k b Hlow) as Hf.
    rewrite lookup_take_lt in Hf by lia. specialize (Hf Hb). simpl in Hf.
    congruence.
Qed.

(** In a sorted list, a bound that separates positions [k] and [k + 1] has
    exactly [k + 1] values below it. *)
Lemma count_below_sorted s k a b t :
  StronglySorted (notAfter Qc_ltb) s →
  s !! k = Some a → s !! S k = Some b →
  floatLess a t = true → floatLess b t = false →
  count (λ y, floatLess y t) s = S k.
Proof.
  intros Hs Ha Hb Hat Htb.
  destruct (sorted_below_split s t Hs) as [Hlow Hhigh].
  set (n := count (λ y, floatLess y t) s) in *.
  destruct (decide (n ≤ k)%nat) as [Hle|Hgt].
  - pose proof (Forall_lookup_1 _ _ (k - n)%nat a Hhigh) as Hf.
    rewrite lookup_drop in Hf. replace (n + (k - n))%nat with k in Hf by lia.
    specialize (Hf Ha). simpl in Hf. congruence.
  - destruct (decide (S k < n)%nat) as [Hlt|Hge]; [|lia].
    pose proof (Forall_lookup_1 _ _ (S k) b Hlow) as Hf.
    rewrite lookup_take_lt in Hf by done.
    specialize (Hf Hb). simpl in Hf. congruence.
Qed.

(** Conversely, a bound with [k + 1] values of a sorted list below it
    separates positions [k] and [k + 1]. *)
Lemma sorted_count_separates s k a b t :
  StronglySorted (notAfter Qc_ltb) s →
  s !! k = Some a → s !! S k = Some b →
  count (λ y, floatLess y t) s = S k →
  floatLess a t = true ∧ floatLess b t = false.
Proof.
  intros Hs Ha Hb Hn.
  destruct (sorted_below_split s t Hs) as [Hlow Hhigh]. rewrite Hn in *.
  split.
  - apply (Forall_lookup_1 _ _ k a Hlow). by rewrite lookup_take_lt by lia.
  - apply (Forall_lookup_1 _ _ 0%nat b Hhigh).
    by rewrite lookup_drop, Nat.add_0_r.
Qed.

(** ** How many blocks a row receives *)

Lemma rowBlocks_length r blocks :
  length (rowBlocks r blocks) = count (λ b, bool_decide (row b = r)) blocks.
Proof.
  unfold rowBlocks. rewrite <- count_seq_lookup, <- count_filter. f_equal.
  apply list_filter_iff. intros i.
  destruct (blocks !! i) as [b|]; simpl.
  - rewrite bool_decide_eq_true. split; congruence.
  - split; discriminate.
Qed.

Lemma rowBlocks_assignRow_length t1 t2 r blocks :
  length (rowBlocks r (assignRow t1 t2 <$> blocks))
  = count (λ b, bool_decide (rowIndex t1 t2 (centerY b) = r)) blocks.
Proof. by rewrite rowBlocks_length, count_fmap. Qed.

Lemma count_below_blocks t blocks :
  count (λ b, floatLess (centerY b) t) blocks
  = count (λ y, floatLess y t) (sortedY blocks).
Proof.
  unfold sortedY. rewrite (count_perm _ _ _ (std_sort_perm _ _)).
  by rewrite count_fmap.
Qed.

(** The three rows in terms of the two comparisons. *)
Lemma count_rows t1 t2 blocks :
  count (λ b, bool_decide (rowIndex t1 t2 (centerY b) = 0)) blocks
  = count (λ b, floatLess (centerY b) t1) blocks
  ∧ count (λ b, bool_decide (rowIndex t1 t2 (centerY b) = 1)) blocks
    = count (λ b, negb (floatLess (centerY b) t1)
                  && floatLess (centerY b) t2) blocks
  ∧ count (λ b, bool_decide (rowIndex t1 t2 (centerY b) = 2)) blocks
    = count (λ b, negb (floatLess (centerY b) t1)
                  && negb (floatLess (centerY b) t2)) blocks.
Proof.
  repeat split; apply count_ext; intros b _; unfold rowIndex;
    by destruct (floatLess (centerY b) t1), (floatLess (centerY b) t2).
Qed.

(** The rows partition the blocks. *)
Lemma count_rows_total t1 t2 blocks :
  (count (λ b, bool_decide (rowIndex t1 t2 (centerY b) = 0%Z)) blocks
   + count (λ b, bool_decide (rowIndex t1 t2 (centerY b) = 1%Z)) blocks
   + count (λ b, bool_decide (rowIndex t1 t2 (centerY b) = 2%Z)) blocks)%nat
  = length blocks.
Proof.
  induction blocks as [|b blocks IH]; [done|]. cbn [count length].
  rewrite <- IH. unfold rowIndex.
  by destruct (floatLess (centerY b) t1), (floatLess (centerY b) t2);
    cbn [bool_decide]; simpl; lia.
Qed.

(** When the first threshold separates the third and fourth sorted
    ordinates, and the second the sixth and seventh, every row receives
    three of the nine blocks. *)
Lemma three_per_row blocks t1 t2 y2 y3 y5 y6 r :
  length blocks = 9%nat →
  sortedY blocks !! 2%nat = Some y2 → sortedY blocks !! 3%nat = Some y3 →
  sortedY blocks !! 5%nat = Some y5 → sortedY blocks !! 6%nat = Some y6 →
  floatLess y2 t1 = true → floatLess y3 t1 = false →
  floatLess y5 t2 = true → floatLess y6 t2 = false →
  0 ≤ r < 3 →
  count (λ b, bool_decide (rowIndex t1 t2 (centerY b) = r)) blocks = 3%nat.
Proof.
  intros Hlen H2 H3 H5 H6 Ha1 Hb1 Ha2 Hb2 Hr.
  pose proof (sortedY_sorted blocks) as Hs.
  assert (count (λ b, floatLess (centerY b) t1) blocks = 3%nat) as Hc1.
  { rewrite count_below_blocks. by apply (count_below_sorted _ 2 y2 y3). }
  assert (count (λ b, floatLess (centerY b) t2) blocks = 6%nat) as Hc2.
  { rewrite count_below_blocks. by apply (count_below_sorted _ 5 y5 y6). }
  assert (y3 ≤ y5)%Qc as H35.
  { apply Qc_ltb_ge. fold (notAfter Qc_ltb y3 y5).
    eapply (StronglySorted_lookup_le _ _ 3 5); [done|exact H3|exact H5|lia]. }
  assert (∀ y, floatLess y t1 = true → floatLess y t2 = true) as Hmono.
  { intros y Hy. apply (floatLess_mono y y5); [|done].
    etrans; [|exact H35]. apply Qclt_le_weak.
    by apply (floatLess_gap y y3 t1). }
  destruct (count_rows t1 t2 blocks) as (Hr0 & Hr1 & Hr2).
  pose proof (count_rows_total t1 t2 blocks) as Htot.
  pose proof (count_split (λ b, floatLess (centerY b) t2)
                (λ b, floatLess (centerY b) t1) blocks) as Hsplit.
  assert (count (λ b, floatLess (centerY b) t2 && floatLess (centerY b) t1)
                blocks = 3%nat) as Hboth.
  { rewrite <- Hc1. apply count_ext. intros b _.
    destruct (floatLess (centerY b) t1) eqn:E1.
    - by rewrite (Hmono _ E1).
    - by rewrite andb_false_r. }
  assert (count (λ b, floatLess (centerY b) t2
                      && negb (floatLess (centerY b) t1)) blocks
          = count (λ b, negb (floatLess (centerY b) t1)
                        && floatLess (centerY b) t2) blocks) as Hcomm.
  { apply count_ext. intros b _. apply andb_comm. }
  assert (r = 0 ∨ r = 1 ∨ r = 2) as [-> | [-> | ->]] by lia; lia.
Qed.

(** Conversely, when every row receives three of the nine blocks, the
    thresholds separate the sorted ordinates at 2 and 3, and at 5 and 6. *)
Lemma three_per_row_separates blocks t1 t2 y2 y3 y5 y6 :
  length blocks = 9%nat →
  sortedY blocks !! 2%nat = Some y2 → sortedY blocks !! 3%nat = Some y3 →
  sortedY blocks !! 5%nat = Some y5 → sortedY blocks !! 6%nat = Some y6 →
  (∀ r, 0 ≤ r < 3 →
        count (λ b, bool_decide (rowIndex t1 t2 (centerY b) = r)) blocks
        = 3%nat) →
  (floatLess y2 t1 = true ∧ floatLess y3 t1 = false)
  ∧ (floatLess y5 t2 = true ∧ floatLess y6 t2 = false).
Proof.
  intros Hlen H2 H3 H5 H6 Hrows.
  pose proof (sortedY_sorted blocks) as Hs.
  destruct (count_rows t1 t2 blocks) as (Hr0 & Hr1 & Hr2).
  rewrite (Hrows 0) in Hr0 by lia. rewrite (Hrows 1) in Hr1 by lia.
  rewrite (Hrows 2) in Hr2 by lia.
  assert (floatLess y2 t1 = true ∧ floatLess y3 t1 = false) as [Ha1 Hb1].
  { apply (sorted_count_separates (sortedY blocks) 2); try done.
    by rewrite <- count_below_blocks. }
  split; [done|].
  (* some block lies in row 1: it is below the second threshold and not
     below the first, so everything below the first is below the second *)
  assert (∃ b, b ∈ blocks ∧ floatLess (centerY b) t1 = false
               ∧ floatLess (centerY b) t2 = true) as (b1 & _ & Hb1a & Hb1b).
  { destruct (decide (Exists (λ b, floatLess (centerY b) t1 = false
                                   ∧ floatLess (centerY b) t2 = true) blocks))
      as [Hex|Hno].
    - apply Exists_exists in Hex as (b & ? & ? & ?). by exists b.
    - apply not_Exists_Forall in Hno; [|apply _].
      rewrite count_none in Hr1; [done|].
      eapply Forall_impl; [exact Hno|]. intros b Hb. simpl in Hb.
      destruct (floatLess (centerY b) t1), (floatLess (centerY b) t2);
        simpl; try done. exfalso. by apply Hb. }
  assert (∀ y, floatLess y t1 = true → floatLess y t2 = true) as Hmono.
  { intros y Hy. apply (floatLess_mono y (centerY b1)); [|done].
    apply Qclt_le_weak. by apply (floatLess_gap y (centerY b1) t1). }
  apply (sorted_count_separates (sortedY blocks) 5); try done.
  rewrite <- count_below_blocks.
  pose proof (count_split (λ b, floatLess (centerY b) t2)
                (λ b, floatLess (centerY b) t1) blocks) as Hsplit.
  assert (count (λ b, floatLess (centerY b) t2 && floatLess (centerY b) t1)
                blocks = 3%nat) as Hboth.
  { rewrite Hr0. apply count_ext. intros b _.
    destruct (floatLess (centerY b) t1) eqn:E1.
    - by rewrite (Hmono _ E1).
    - by rewrite andb_false_r. }
  assert (count (λ b, floatLess (centerY b) t2
                      && negb (floatLess (centerY b) t1)) blocks
          = count (λ b, negb (floatLess (centerY b) t1)
                        && floatLess (centerY b) t2) blocks) as Hcomm.
  { apply count_ext. intros b _. apply andb_comm. }
  lia.
Qed.

(** ** The final sort *)

Lemma posLt_antisym : AntiSymm (=) posLt.
Proof. intros p q. unfold posLt. lia. Qed.

(** Sorted by [compareColorBlocks] with distinct positions: strictly
    increasing positions. *)
Lemma sorted_positions l :
  StronglySorted (notAfter compareColorBlocks) l →
  NoDup (gridPos <$> l) →
  StronglySorted posLt (gridPos <$> l).
Proof.
  induction 1 as [|a l Hl IH Ha]; intros Hnd; csimpl; [constructor|].
  apply NoDup_cons in Hnd as [Hnotin Hnd].
  constructor; [by apply IH|].
  apply Forall_fmap, Forall_forall. intros b Hb. simpl.
  pose proof (proj1 (Forall_forall _ _) Ha b Hb) as Hab.
  unfold notAfter in Hab. apply compareColorBlocks_false in Hab.
  assert (gridPos a ≠ gridPos b) as Hne.
  { intros Heq. apply Hnotin. rewrite Heq. by apply list_elem_of_fmap_2. }
  revert Hab Hne. unfold posLt. destruct (gridPos a), (gridPos b). simpl.
  intros Hab Hne.
  destruct (decide (z = z1)) as [->|?]; [|lia].
  destruct (decide (z0 = z2)) as [->|?]; [done|lia].
Qed.

Lemma allCells_elem_of r c : 0 ≤ r < 3 → 0 ≤ c < 3 → (r, c) ∈ allCells.
Proof.
  intros Hr Hc.
  assert (r = 0 ∨ r = 1 ∨ r = 2) as Hr' by lia.
  assert (c = 0 ∨ c = 1 ∨ c = 2) as Hc' by lia.
  clear Hr Hc. unfold allCells.
  destruct Hr' as [-> | [-> | ->]]; destruct Hc' as [-> | [-> | ->]];
    set_solver.
Qed.

Lemma allCells_sorted : StronglySorted posLt allCells.
Proof. apply (bool_decide_unpack _). by vm_compute. Qed.

(** Nine distinct positions of the grid, in increasing order, are the nine
    cells in row-major order. *)
Lemma positions_are_allCells (ps : list (Z * Z)) :
  length ps = 9%nat →
  StronglySorted posLt ps → NoDup ps →
  Forall (λ p, 0 ≤ p.1 < 3 ∧ 0 ≤ p.2 < 3) ps →
  ps = allCells.
Proof.
  intros Hlen Hsorted Hnd Hin.
  apply (StronglySorted_unique posLt (AntiSymm0 := posLt_antisym));
    [done|apply allCells_sorted|].
  apply submseteq_length_Permutation; [|by rewrite Hlen].
  apply NoDup_submseteq; [done|].
  intros [r c] Hp. pose proof (proj1 (Forall_forall _ _) Hin _ Hp) as [? ?].
  by apply allCells_elem_of.
Qed.

Lemma taggedBlocks_row_count t1 t2 blocks r :
  count (λ p : Z * Z, bool_decide (p.1 = r))
        (gridPos <$> taggedBlocks t1 t2 blocks)
  = count (λ b, bool_decide (rowIndex t1 t2 (centerY b) = r)) blocks.
Proof.
  rewrite count_fmap.
  trans (count (λ z, bool_decide (z = r))
               (row <$> taggedBlocks t1 t2 blocks));
    [by rewrite count_fmap|].
  assert (row <$> taggedBlocks t1 t2 blocks
          = (λ b, rowIndex t1 t2 (centerY b)) <$> blocks) as ->.
  { apply list_eq. intros i.
    rewrite !list_lookup_fmap, taggedBlocks_lookup.
    by destruct (blocks !! i). }
  by rewrite count_fmap.
Qed.

(** The grid of nine blocks, and when its positions are the nine cells. *)
Lemma assignToGrid_nine_cells blocks y2 y3 y5 y6 :
  length blocks = 9%nat →
  sortedY blocks !! 2%nat = Some y2 → sortedY blocks !! 3%nat = Some y3 →
  sortedY blocks !! 5%nat = Some y5 → sortedY blocks !! 6%nat = Some y6 →
  let grid := std_sort compareColorBlocks
                (taggedBlocks (rowThreshold y2 y3) (rowThreshold y5 y6)
                              blocks) in
  assignToGrid blocks = Some grid
  ∧ NoDup (gridPos <$> grid)
  ∧ StronglySorted posLt (gridPos <$> grid)
  ∧ (gridPos <$> grid = allCells ↔ separates y2 y3 ∧ separates y5 y6).
Proof.
  intros Hlen H2 H3 H5 H6.
  pose proof (rowThresholds_Some _ _ _ _ _ H2 H3 H5 H6) as Ht.
  set (t1 := rowThreshold y2 y3) in *. set (t2 := rowThreshold y5 y6) in *.
  set (tagged := taggedBlocks t1 t2 blocks). intros grid.
  pose proof (std_sort_perm compareColorBlocks tagged) as Hperm.
  fold grid in Hperm.
  assert (NoDup (gridPos <$> grid)) as Hnd.
  { rewrite Hperm. apply taggedBlocks_NoDup_pos. }
  assert (StronglySorted posLt (gridPos <$> grid)) as Hsorted.
  { apply sorted_positions; [|done].
    apply Sorted_StronglySorted; [apply _|].
    apply std_sort_sorted, compareColorBlocks_asym. }
  split; [by apply assignToGrid_tagged|].
  split; [done|]. split; [done|]. unfold separates. fold t1 t2. split.
  - intros Hall. apply (three_per_row_separates blocks); try done.
    intros r Hr. rewrite <- taggedBlocks_row_count.
    fold tagged. rewrite <- (count_perm _ _ _ (fmap_Permutation gridPos _ _ Hperm)).
    rewrite Hall.
    by assert (r = 0 ∨ r = 1 ∨ r = 2) as [-> | [-> | ->]] by lia.
  - intros [[Ha1 Hb1] [Ha2 Hb2]].
    apply positions_are_allCells; [|done|done|].
    { rewrite length_fmap, Hperm. unfold tagged.
      by rewrite taggedBlocks_length. }
    apply Forall_fmap. rewrite Hperm. apply Forall_lookup. intros i b'.
    unfold tagged. rewrite taggedBlocks_lookup.
    destruct (blocks !! i) as [b|] eqn:Hb; [|done]. simpl. intros [= <-].
    simpl. split; [apply rowIndex_range|].
    pose proof (columnOf_lt t1 t2 blocks i b Hb) as Hlt.
    rewrite rowBlocks_assignRow_length in Hlt.
    rewrite (three_per_row blocks t1 t2 y2 y3 y5 y6) in Hlt;
      [lia|done..|apply rowIndex_range].
Qed.

(** C3 (as the code has it): nine regions always get a row in 0..2 and a
    column that is their rank by abscissa among the regions of their row, so
    a column in 0..8; the nine positions are pairwise distinct and the
    regions are returned, each once, in row-major order.  The positions are
    the nine cells of the grid exactly when the thresholds, computed in
    single precision, separate the sorted ordinates: the first lies above
    the ordinate at index 2 and not above the one at index 3, the second
    above the one at index 5 and not above the one at index 6. *)
Theorem assignToGrid_nine (blocks : list ColorBlock) :
  length blocks = 9%nat →
  ∃ grid,
    assignToGrid blocks = Some grid
    ∧ eraseGrid <$> grid ≡ₚ eraseGrid <$> blocks
    ∧ Forall (λ b, 0 ≤ row b < 3 ∧ 0 ≤ col b < 9) grid
    ∧ NoDup (gridPos <$> grid)
    ∧ StronglySorted posLt (gridPos <$> grid)
    ∧ (gridPos <$> grid = allCells ↔ thresholdsSeparate blocks).
Proof.
  intros Hlen.
  destruct (rowThresholds_seven (sortedY blocks))
    as (y2 & y3 & y5 & y6 & H2 & H3 & H5 & H6 & Ht).
  { rewrite sortedY_length. lia. }
  destruct (assignToGrid_nine_cells blocks y2 y3 y5 y6 Hlen H2 H3 H5 H6)
    as (Hgrid & Hnd & Hsorted & Hcells).
  set (t1 := rowThreshold y2 y3) in *. set (t2 := rowThreshold y5 y6) in *.
  set (tagged := taggedBlocks t1 t2 blocks) in *.
  exists (std_sort compareColorBlocks tagged).
  pose proof (std_sort_perm compareColorBlocks tagged) as Hperm.
  split; [done|].
  split; [by rewrite Hperm; unfold tagged; rewrite taggedBlocks_erase|].
  split.
  { rewrite Hperm. unfold tagged.
    pose proof (taggedBlocks_bounds t1 t2 blocks) as Hb.
    by rewrite Hlen in Hb. }
  split; [done|]. split; [done|]. rewrite Hcells. unfold thresholdsSeparate.
  split.
  - intros [? ?]. by exists y2, y3, y5, y6.
  - intros (y2' & y3' & y5' & y6' & H2' & H3' & H5' & H6' & ? & ?).
    by simplify_eq.
Qed.

Lemma assignToGrid_nine_witness :
  ∃ grid,
    assignToGrid scrambledLattice = Some grid
    ∧ eraseGrid <$> grid ≡ₚ eraseGrid <$> scrambledLattice
    ∧ Forall (λ b, 0 ≤ row b < 3 ∧ 0 ≤ col b < 9) grid
    ∧ NoDup (gridPos <$> grid)
    ∧ StronglySorted posLt (gridPos <$> grid)
    ∧ (gridPos <$> grid = allCells ↔ thresholdsSeparate scrambledLattice).
Proof. apply (assignToGrid_nine scrambledLattice). reflexivity. Defined.

(** C3 (counterexample): with four regions on the first level the first
    threshold is that level itself; no region goes to row 0, six go to row
    1 and take the columns 0 to 5. *)
Lemma crowded_level_columns_leave_grid :
  length crowdedLevel = 9%nat
  ∧ (λ grid : list ColorBlock, gridPos <$> grid) <$> assignToGrid crowdedLevel
    = Some [ (1, 0); (1, 1); (1, 2); (1, 3); (1, 4); (1, 5);
             (2, 0); (2, 1); (2, 2) ].
Proof. split; [reflexivity|]. by vm_compute. Qed.

(** ** The column as a rank *)

Lemma count_filter_and {A} (p : A → bool) (q : A → Prop)
    `{∀ x, Decision (q x)} (l : list A) :
  count p (filter q l) = count (λ x, p x && bool_decide (q x)) l.
Proof.
  induction l as [|x l IH]; [done|]. rewrite filter_cons. simpl.
  destruct (decide (q x)) as [Hq|Hq].
  - rewrite bool_decide_eq_true_2 by done. simpl. rewrite IH.
    by rewrite andb_true_r.
  - rewrite bool_decide_eq_false_2 by done. rewrite IH.
    by rewrite andb_false_r.
Qed.

Lemma xKey_lookup blocks i b : blocks !! i = Some b → xKey blocks i = centerX b.
Proof. intros H. unfold xKey. by rewrite H. Qed.

Lemma count_left_pointers r blocks i bi :
  blocks !! i = Some bi → row bi = r →
  count (λ j, keyLess (xKey blocks) j i) (rowBlocks r blocks)
  = leftInRow blocks bi.
Proof.
  intros Hi Hr. unfold rowBlocks, leftInRow. rewrite count_filter_and.
  rewrite <- (count_seq_lookup _ blocks). apply count_ext. intros j Hj.
  apply elem_of_seq in Hj as [_ Hj]. simpl in Hj.
  destruct (lookup_lt_is_Some_2 blocks j Hj) as [bj Hbj].
  rewrite Hbj. simpl. unfold keyLess.
  rewrite (xKey_lookup _ _ _ Hbj), (xKey_lookup _ _ _ Hi), Hr.
  rewrite andb_comm. f_equal.
  apply bool_decide_ext. split; congruence.
Qed.

(** Without ties, the place of a pointer in its sorted row is the number
    of blocks of that row to its left. *)
Lemma indexIn_sortedRow_rank r blocks i bi :
  noTiesInRow r blocks →
  blocks !! i = Some bi → row bi = r →
  indexIn i (sortedRow r blocks) = leftInRow blocks bi.
Proof.
  intros Hties Hi Hr.
  rewrite <- (count_left_pointers r blocks i bi Hi Hr).
  rewrite <- (count_perm _ _ _ (sortedRow_perm r blocks)).
  assert (i ∈ sortedRow r blocks) as Hin.
  { rewrite sortedRow_perm. apply rowBlocks_elem_of. by exists bi. }
  pose proof (sortedRow_NoDup r blocks) as Hnd.
  assert (StronglySorted (notAfter (keyLess (xKey blocks)))
            (sortedRow r blocks)) as Hs.
  { rewrite sortedRow_keyed. apply Sorted_StronglySorted; [apply _|].
    apply std_sort_sorted, keyLess_asym. }
  assert (∀ j, j ∈ sortedRow r blocks →
               ∃ bj, blocks !! j = Some bj ∧ row bj = r) as Hrow.
  { intros j Hj. rewrite sortedRow_perm in Hj.
    by apply rowBlocks_elem_of in Hj. }
  destruct (list_elem_of_split _ _ Hin) as (s1 & s2 & Hsplit).
  rewrite Hsplit in Hnd, Hs, Hrow |- *.
  apply NoDup_app in Hnd as (_ & Hdisj & Hnd2).
  apply NoDup_cons in Hnd2 as [Hnot2 _].
  rewrite indexIn_app_middle by (intros Hi1; by apply (Hdisj i Hi1); left).
  apply StronglySorted_app in Hs as (Hcross & _ & Hs2).
  apply StronglySorted_cons in Hs2 as [Hafter _].
  rewrite count_app. cbn [count].
  rewrite count_all, count_none.
  - unfold keyLess. rewrite (proj2 (Qc_ltb_ge _ _)) by apply Qcle_refl. lia.
  - apply Forall_forall. intros j Hj.
    exact (proj1 (Forall_forall _ _) Hafter j Hj).
  - apply Forall_forall. intros j Hj.
    pose proof (Hcross j i Hj ltac:(left)) as Hji.
    destruct (Hrow j) as (bj & Hbj & Hrj); [set_solver|].
    unfold notAfter, keyLess in *.
    rewrite (xKey_lookup _ _ _ Hbj), (xKey_lookup _ _ _ Hi) in *.
    apply Qc_ltb_ge in Hji. apply Qc_ltb_lt.
    destruct (Qcle_lt_or_eq _ _ Hji) as [Hlt|Heq]; [done|].
    exfalso. apply (Hdisj j Hj). rewrite (Hties j i bj bi); try done.
    by left.
Qed.

Lemma taggedBlocks_by_rank t1 t2 blocks :
  (∀ r, noTiesInRow r (assignRow t1 t2 <$> blocks)) →
  taggedBlocks t1 t2 blocks = tagByRank t1 t2 blocks <$> blocks.
Proof.
  intros Hties. apply list_eq. intros i.
  rewrite taggedBlocks_lookup, list_lookup_fmap.
  destruct (blocks !! i) as [b|] eqn:Hb; [|done]. simpl. f_equal.
  unfold tagByRank, columnOf. f_equal. f_equal.
  apply indexIn_sortedRow_rank; [apply Hties| |done].
  by rewrite list_lookup_fmap, Hb.
Qed.

(** ** Order of the input *)

Lemma sortedY_perm blocks blocks' :
  blocks ≡ₚ blocks' → sortedY blocks' = sortedY blocks.
Proof.
  intros Hperm. unfold sortedY. apply std_sort_unique.
  - apply Qc_ltb_asym.
  - apply _.
  - by rewrite Hperm.
  - intros x y _ _. apply Qc_ltb_ties.
Qed.

Lemma noTiesInRow_perm r B B' :
  B ≡ₚ B' → noTiesInRow r B → noTiesInRow r B'.
Proof.
  intros Hperm Hties. symmetry in Hperm.
  apply Permutation_inj in Hperm as (_ & f & Hinj & Hf).
  intros i j bi bj Hi Hj Hri Hrj Hx. rewrite Hf in Hi, Hj.
  apply Hinj. by eapply Hties.
Qed.

Lemma leftInRow_perm B B' b : B ≡ₚ B' → leftInRow B' b = leftInRow B b.
Proof. intros Hperm. unfold leftInRow. symmetry. by apply count_perm. Qed.

(** Equal positions among the tagged blocks: equal blocks. *)
Lemma taggedBlocks_ties t1 t2 blocks a b :
  a ∈ taggedBlocks t1 t2 blocks → b ∈ taggedBlocks t1 t2 blocks →
  gridPos a = gridPos b → a = b.
Proof.
  intros [i Hi]%list_elem_of_lookup [j Hj]%list_elem_of_lookup Hpos.
  assert (i = j) as -> by by eapply taggedBlocks_pos_inj.
  congruence.
Qed.

(** Without column ties the result does not depend on the order of the
    input. *)
Lemma assignToGrid_perm blocks blocks' :
  blocks ≡ₚ blocks' → noColumnTies blocks →
  assignToGrid blocks' = assignToGrid blocks.
Proof.
  intros Hperm Hties.
  pose proof (sortedY_perm blocks blocks' Hperm) as HY.
  destruct (rowThresholds (sortedY blocks)) as [[t1 t2]|] eqn:Ht.
  - rewrite (assignToGrid_tagged blocks t1 t2 Ht).
    rewrite (assignToGrid_tagged blocks' t1 t2) by by rewrite HY.
    f_equal. symmetry.
    assert (assignRow t1 t2 <$> blocks ≡ₚ assignRow t1 t2 <$> blocks')
      as HB by by rewrite Hperm.
    apply std_sort_unique.
    + apply compareColorBlocks_asym.
    + apply _.
    + rewrite !taggedBlocks_by_rank.
      * assert (tagByRank t1 t2 blocks' <$> blocks'
                = tagByRank t1 t2 blocks <$> blocks') as ->.
        { apply list_fmap_ext. intros k b _. unfold tagByRank.
          by rewrite (leftInRow_perm _ _ _ HB). }
        by apply fmap_Permutation.
      * intros r. eapply noTiesInRow_perm; [exact HB|]. by apply Hties.
      * by apply Hties.
    + intros a b Ha Hb Hab Hba.
      eapply taggedBlocks_ties; [exact Ha|exact Hb|].
      by apply compareColorBlocks_ties.
  - unfold assignToGrid. fold (sortedY blocks) (sortedY blocks').
    by rewrite HY, Ht.
Qed.

Lemma noColumnTies_distinct_x blocks :
  NoDup (centerX <$> blocks) → noColumnTies blocks.
Proof.
  intros Hnd t1 t2 _ r i j bi bj Hi Hj _ _ Hx.
  rewrite list_lookup_fmap in Hi, Hj.
  destruct (blocks !! i) as [ci|] eqn:Hci; [|done].
  destruct (blocks !! j) as [cj|] eqn:Hcj; [|done].
  simpl in Hi, Hj. injection Hi as <-. injection Hj as <-.
  eapply (NoDup_lookup _ i j (centerX ci) Hnd).
  - by rewrite list_lookup_fmap, Hci.
  - rewrite list_lookup_fmap, Hcj. simpl. f_equal. by symmetry.
Qed.

(** C5 (as the code has it): for nine regions of which no two of one row
    have the same abscissa, every permutation of the input gives the same
    sorted grid. *)
Theorem assignToGrid_order_invariant (blocks blocks' : list ColorBlock) :
  length blocks = 9%nat → blocks ≡ₚ blocks' → noColumnTies blocks →
  ∃ grid, assignToGrid blocks = Some grid ∧ assignToGrid blocks' = Some grid.
Proof.
  intros Hlen Hperm Hties.
  rewrite (assignToGrid_perm blocks blocks' Hperm Hties).
  destruct (rowThresholds_seven (sortedY blocks))
    as (y2 & y3 & y5 & y6 & _ & _ & _ & _ & Ht).
  { rewrite sortedY_length. lia. }
  rewrite (assignToGrid_tagged _ _ _ Ht). by eexists.
Qed.

Lemma assignToGrid_order_invariant_witness :
  ∃ grid, assignToGrid skewedFace = Some grid
          ∧ assignToGrid (reverse skewedFace) = Some grid.
Proof.
  apply (assignToGrid_order_invariant skewedFace (reverse skewedFace)).
  - reflexivity.
  - symmetry. apply reverse_Permutation.
  - apply noColumnTies_distinct_x. apply (bool_decide_unpack _).
    vm_compute. reflexivity.
Defined.

(** C5 (counterexample): the two lists are permutations of each other, and
    the grid has the red region at (0, 0) for one and the blue region for
    the other. *)
Lemma tied_column_depends_on_order :
  length tiedColumn = 9%nat
  ∧ tiedColumn ≡ₚ tiedColumnSwapped
  ∧ (λ grid : list ColorBlock, colorName <$> grid) <$> assignToGrid tiedColumn
    = Some [ "Red"; "Blue"; "Green"; "White"; "Pink"; "Yellow";
             "Red"; "Green"; "Blue" ]%string
  ∧ (λ grid : list ColorBlock, colorName <$> grid)
      <$> assignToGrid tiedColumnSwapped
    = Some [ "Blue"; "Red"; "Green"; "White"; "Pink"; "Yellow";
             "Red"; "Green"; "Blue" ]%string.
Proof.
  split; [reflexivity|]. split; [apply Permutation_swap|].
  split; by vm_compute.
Qed.

(** ** A perfect lattice *)

Lemma StronglySorted_of_lookup {A} (R : relation A) (l : list A) :
  (∀ i j x y, l !! i = Some x → l !! j = Some y → (i < j)%nat → R x y) →
  StronglySorted R l.
Proof.
  induction l as [|a l IH]; intros Hmono; constructor.
  - apply IH. intros i j x y Hi Hj Hij.
    apply (Hmono (S i) (S j)); [done|done|lia].
  - apply Forall_lookup. intros j y Hj. apply (Hmono 0%nat (S j)); [done|done|lia].
Qed.

Lemma div3_mono i j : (i < j)%nat → (i / 3 ≤ j / 3)%nat.
Proof. intros H. apply Nat.Div0.div_le_mono. lia. Qed.

Lemma div3_mod3_eq i j :
  (i / 3 = j / 3)%nat → (i mod 3 = j mod 3)%nat → i = j.
Proof.
  intros Hd Hm. rewrite (Nat.div_mod_eq i 3), (Nat.div_mod_eq j 3). lia.
Qed.

Lemma div3_lt_9 k : (k < 9)%nat → (k / 3 < 3)%nat.
Proof. intros H. apply Nat.Div0.div_lt_upper_bound. lia. Qed.

Section lattice.
Variable L : list ColorBlock.
Hypothesis HL : perfectLattice L.

Lemma lattice_ys_sorted : StronglySorted (notAfter Qc_ltb) (centerY <$> L).
Proof.
  apply StronglySorted_of_lookup. intros i j x y.
  rewrite !list_lookup_fmap.
  destruct (L !! i) as [bi|] eqn:Hi; [|done].
  destruct (L !! j) as [bj|] eqn:Hj; [|done].
  simpl. intros [= <-] [= <-] Hij. apply Qc_ltb_ge.
  destruct (decide (i / 3 = j / 3)%nat) as [He|Hne].
  - rewrite (lattice_level L HL i j bi bj Hi Hj He). apply Qcle_refl.
  - apply Qclt_le_weak, (lattice_rows L HL i j bi bj Hi Hj).
    pose proof (div3_mono i j Hij). lia.
Qed.

Lemma lattice_sortedY : sortedY L = centerY <$> L.
Proof.
  unfold sortedY. apply std_sort_of_sorted.
  - apply Qc_ltb_asym.
  - apply _.
  - apply StronglySorted_Sorted, lattice_ys_sorted.
  - intros x y _ _. apply Qc_ltb_ties.
Qed.

Variables b2 b3 b5 b6 : ColorBlock.
Hypothesis H2 : L !! 2%nat = Some b2.
Hypothesis H3 : L !! 3%nat = Some b3.
Hypothesis H5 : L !! 5%nat = Some b5.
Hypothesis H6 : L !! 6%nat = Some b6.

Local Abbreviation t1 := (rowThreshold (centerY b2) (centerY b3)).
Local Abbreviation t2 := (rowThreshold (centerY b5) (centerY b6)).

Lemma lattice_thresholds : rowThresholds (sortedY L) = Some (t1, t2).
Proof.
  rewrite lattice_sortedY. apply rowThresholds_Some;
    rewrite list_lookup_fmap; by rewrite ?H2, ?H3, ?H5, ?H6.
Qed.

Hypothesis Hsep1 : separates (centerY b2) (centerY b3).
Hypothesis Hsep2 : separates (centerY b5) (centerY b6).

Lemma lattice_rowIndex k b :
  L !! k = Some b → rowIndex t1 t2 (centerY b) = Z.of_nat (k / 3).
Proof.
  intros Hk.
  pose proof (lookup_lt_Some _ _ _ Hk) as Hlt.
  rewrite (lattice_nine L HL) in Hlt. apply div3_lt_9 in Hlt.
  destruct Hsep1 as [Ha1 Hb1]. destruct Hsep2 as [Ha2 Hb2].
  pose proof (lattice_level L HL 3 5 b3 b5 H3 H5 eq_refl) as H35.
  unfold rowIndex.
  destruct (k / 3)%nat as [|[|[|?]]] eqn:Hrow; [| | |lia].
  - rewrite (lattice_level L HL k 2 b b2 Hk H2 Hrow). by rewrite Ha1.
  - rewrite (lattice_level L HL k 3 b b3 Hk H3 Hrow).
    rewrite Hb1, H35. by rewrite Ha2.
  - rewrite (lattice_level L HL k 6 b b6 Hk H6 Hrow). rewrite Hb2.
    destruct (floatLess (centerY b6) t1) eqn:E; [|done].
    exfalso.
    rewrite (floatLess_mono (centerY b3) (centerY b6) t1) in Hb1;
      [done| |done].
    apply Qclt_le_weak, (lattice_rows L HL 3 6 b3 b6 H3 H6).
    by apply Nat.ltb_lt.
Qed.

Lemma lattice_xLess i j bi bj :
  L !! i = Some bi → L !! j = Some bj → (i / 3 = j / 3)%nat →
  Qc_ltb (centerX bi) (centerX bj) = bool_decide (i mod 3 < j mod 3)%nat.
Proof.
  intros Hi Hj Hrow.
  destruct (lt_eq_lt_dec (i mod 3) (j mod 3)) as [[Hlt|Heq]|Hgt].
  - rewrite bool_decide_eq_true_2 by done.
    by apply Qc_ltb_lt, (lattice_columns L HL i j).
  - rewrite bool_decide_eq_false_2 by lia.
    assert (i = j) as -> by by apply div3_mod3_eq.
    assert (bi = bj) as -> by congruence.
    apply Qc_ltb_ge, Qcle_refl.
  - rewrite bool_decide_eq_false_2 by lia.
    apply Qc_ltb_ge, Qclt_le_weak.
    by apply (lattice_columns L HL j i).
Qed.

Lemma lattice_noTies r : noTiesInRow r (assignRow t1 t2 <$> L).
Proof.
  intros i j ai aj. rewrite !list_lookup_fmap.
  destruct (L !! i) as [bi|] eqn:Hi; [|done].
  destruct (L !! j) as [bj|] eqn:Hj; [|done].
  simpl. intros [= <-] [= <-]. rewrite !row_assignRow.
  rewrite (lattice_rowIndex i bi Hi), (lattice_rowIndex j bj Hj).
  intros <- Hrow%Nat2Z.inj Hx.
  change (centerX (assignRow t1 t2 bi)) with (centerX bi) in Hx.
  change (centerX (assignRow t1 t2 bj)) with (centerX bj) in Hx.
  pose proof (lattice_xLess i j bi bj Hi Hj ltac:(done)) as Hij.
  pose proof (lattice_xLess j i bj bi Hj Hi ltac:(done)) as Hji.
  rewrite Hx in Hij. rewrite Hx in Hji.
  rewrite (proj2 (Qc_ltb_ge _ _)) in Hij, Hji by apply Qcle_refl.
  symmetry in Hij, Hji. apply bool_decide_eq_false in Hij, Hji.
  apply div3_mod3_eq; [done|lia].
Qed.

Lemma lattice_rank k b :
  L !! k = Some b →
  leftInRow (assignRow t1 t2 <$> L) (assignRow t1 t2 b) = (k mod 3)%nat.
Proof.
  intros Hk. unfold leftInRow.
  rewrite <- (count_seq_lookup _ (assignRow t1 t2 <$> L)).
  rewrite length_fmap, (lattice_nine L HL).
  pose proof (lookup_lt_Some _ _ _ Hk) as Hlt.
  rewrite (lattice_nine L HL) in Hlt.
  rewrite (count_ext _
             (λ j, (j / 3 =? k / 3)%nat && (j mod 3 <? k mod 3)%nat)).
  - do 9 (destruct k as [|k]; [reflexivity|]). lia.
  - intros j [_ Hj]%elem_of_seq. simpl in Hj.
    destruct (lookup_lt_is_Some_2 L j) as [bj Hbj];
      [by rewrite (lattice_nine L HL)|].
    rewrite list_lookup_fmap, Hbj. cbn [fmap option_fmap option_map from_option].
    rewrite !row_assignRow.
    rewrite (lattice_rowIndex j bj Hbj), (lattice_rowIndex k b Hk).
    change (centerX (assignRow t1 t2 bj)) with (centerX bj).
    change (centerX (assignRow t1 t2 b)) with (centerX b).
    destruct (decide (j / 3 = k / 3)%nat) as [He|Hne].
    + rewrite (lattice_xLess j k bj b Hbj Hk He).
      rewrite bool_decide_eq_true_2 by by rewrite He.
      rewrite (proj2 (Nat.eqb_eq _ _) He). cbn [andb].
      destruct (j mod 3 <? k mod 3)%nat eqn:E.
      * apply bool_decide_eq_true_2. by apply Nat.ltb_lt.
      * apply bool_decide_eq_false_2. by apply Nat.ltb_ge in E; lia.
    + rewrite bool_decide_eq_false_2 by lia.
      by rewrite (proj2 (Nat.eqb_neq _ _) Hne).
Qed.

Lemma lattice_tagged : taggedBlocks t1 t2 L = labelled L.
Proof.
  rewrite taggedBlocks_by_rank by apply lattice_noTies.
  apply list_eq. intros k. unfold labelled.
  rewrite list_lookup_fmap, list_lookup_imap.
  destruct (L !! k) as [b|] eqn:Hk; [|done]. simpl. f_equal.
  unfold tagByRank. rewrite (lattice_rank k b Hk).
  unfold assignRow. by rewrite (lattice_rowIndex k b Hk).
Qed.
End lattice.

Lemma StronglySorted_lookup_lt {A} (R : relation A) s i j x y :
  StronglySorted R s → s !! i = Some x → s !! j = Some y → (i < j)%nat →
  R x y.
Proof.
  intros Hs. revert i j. induction Hs as [|z s Hs IH Hz]; intros i j Hi Hj Hij.
  - done.
  - destruct i as [|i], j as [|j]; simpl in *; try lia.
    + simplify_eq. eapply Forall_lookup_1; [exact Hz|exact Hj].
    + eapply IH; [exact Hi|exact Hj|lia].
Qed.

(** A list whose positions increase strictly is left as it is by the final
    sort. *)
Lemma std_sort_increasing_positions l :
  StronglySorted posLt (gridPos <$> l) → std_sort compareColorBlocks l = l.
Proof.
  intros Hs.
  assert (∀ i j a b, l !! i = Some a → l !! j = Some b → (i < j)%nat →
                     posLt (gridPos a) (gridPos b)) as Hmono.
  { intros i j a b Hi Hj Hij.
    eapply (StronglySorted_lookup_lt posLt _ i j); [exact Hs| | |exact Hij];
      by rewrite list_lookup_fmap, ?Hi, ?Hj. }
  apply std_sort_of_sorted.
  - apply compareColorBlocks_asym.
  - apply _.
  - apply StronglySorted_Sorted, StronglySorted_of_lookup.
    intros i j a b Hi Hj Hij. unfold notAfter.
    apply compareColorBlocks_false. intros Hba.
    pose proof (Hmono i j a b Hi Hj Hij) as Hab.
    revert Hab Hba. unfold posLt. lia.
  - intros a b [i Hi]%list_elem_of_lookup [j Hj]%list_elem_of_lookup Hab Hba.
    apply compareColorBlocks_false in Hab, Hba.
    destruct (lt_eq_lt_dec i j) as [[Hlt|Heq]|Hgt].
    + by destruct Hab; eapply Hmono.
    + subst. congruence.
    + by destruct Hba; eapply Hmono.
Qed.

Lemma labelled_positions L : length L = 9%nat → gridPos <$> labelled L = allCells.
Proof.
  intros Hlen. do 9 (destruct L as [|? L]; [discriminate|]).
  by destruct L.
Qed.

(** The grid of a lattice given in any order. *)
Lemma assignToGrid_lattice_cells (L inp : list ColorBlock) b2 b3 b5 b6 :
  perfectLattice L → inp ≡ₚ L →
  L !! 2%nat = Some b2 → L !! 3%nat = Some b3 →
  L !! 5%nat = Some b5 → L !! 6%nat = Some b6 →
  sortedY inp !! 2%nat = Some (centerY b2)
  ∧ sortedY inp !! 3%nat = Some (centerY b3)
  ∧ sortedY inp !! 5%nat = Some (centerY b5)
  ∧ sortedY inp !! 6%nat = Some (centerY b6)
  ∧ (separates (centerY b2) (centerY b3)
     ∧ separates (centerY b5) (centerY b6)
     ↔ assignToGrid inp = Some (labelled L)).
Proof.
  intros HL Hperm H2 H3 H5 H6.
  pose proof (lattice_nine L HL) as Hlen.
  pose proof (lattice_thresholds L HL b2 b3 b5 b6 H2 H3 H5 H6) as Ht.
  assert (sortedY inp !! 2%nat = Some (centerY b2)
          ∧ sortedY inp !! 3%nat = Some (centerY b3)
          ∧ sortedY inp !! 5%nat = Some (centerY b5)
          ∧ sortedY inp !! 6%nat = Some (centerY b6))
    as (Hy2 & Hy3 & Hy5 & Hy6).
  { rewrite (sortedY_perm L inp) by done.
    rewrite (lattice_sortedY L HL), !list_lookup_fmap.
    by rewrite H2, H3, H5, H6. }
  repeat (split; [done|]). split.
  - intros [Hsep1 Hsep2].
    rewrite (assignToGrid_perm L inp) by
      (done || (intros t1 t2 Ht' r; rewrite Ht in Ht'; injection Ht' as <- <-;
                by apply lattice_noTies)).
    rewrite (assignToGrid_tagged L _ _ Ht).
    rewrite (lattice_tagged L HL b2 b3 b5 b6 H2 H3 H5 H6 Hsep1 Hsep2).
    f_equal. apply std_sort_increasing_positions.
    rewrite (labelled_positions L Hlen). apply allCells_sorted.
  - intros Hgrid.
    destruct (assignToGrid_nine_cells inp _ _ _ _
                ltac:(by rewrite Hperm) Hy2 Hy3 Hy5 Hy6)
      as (Hgrid' & _ & _ & Hcells).
    apply Hcells. rewrite Hgrid in Hgrid'. injection Hgrid' as <-.
    by apply labelled_positions.
Qed.


Tactic Notation "enumerate_index" ident(i) ident(Hi) :=
  do 9 (try (destruct i as [|i]; [injection Hi as <-|]));
  try (by destruct i).

Lemma orderedLattice_perfect : perfectLattice orderedLattice.
Proof.
  split.
  - reflexivity.
  - intros i j bi bj Hi Hj. enumerate_index i Hi; enumerate_index j Hj;
      by vm_compute.
  - intros i j bi bj Hi Hj. enumerate_index i Hi; enumerate_index j Hj;
      vm_compute; by (reflexivity || lia).
  - intros i j bi bj Hi Hj. enumerate_index i Hi; enumerate_index j Hj;
      vm_compute; by (reflexivity || lia).
Qed.

Lemma scrambledLattice_perm : scrambledLattice ≡ₚ orderedLattice.
Proof.
  apply NoDup_Permutation.
  - apply (NoDup_fmap_1 (λ b, (centerX b, centerY b))).
    apply (bool_decide_unpack _). by vm_compute.
  - apply (NoDup_fmap_1 (λ b, (centerX b, centerY b))).
    apply (bool_decide_unpack _). by vm_compute.
  - intros b. unfold scrambledLattice, orderedLattice.
    rewrite !elem_of_cons, !elem_of_nil. tauto.
Qed.


(** On the sample lattice, with levels 100, 300 and 500, the thresholds are
    the midpoints 200 and 400, they separate the levels, and the scrambled
    regions come out labelled. *)
Example scrambledLattice_labelled :
  rowThresholds (sortedY scrambledLattice)
  = Some (toFloat (midpoint (Qc_of_Z 100) (Qc_of_Z 300)),
          toFloat (midpoint (Qc_of_Z 300) (Qc_of_Z 500)))
  ∧ thresholdsSeparate scrambledLattice
  ∧ assignToGrid scrambledLattice = Some (labelled orderedLattice).
Proof.
  split; [by vm_compute|]. split; [|by vm_compute].
  do 4 eexists. repeat (split; [reflexivity|]). by vm_compute.
Qed.

Lemma ulpLattice_perfect : perfectLattice ulpLattice.
Proof.
  split.
  - reflexivity.
  - intros i j bi bj Hi Hj. enumerate_index i Hi; enumerate_index j Hj;
      by vm_compute.
  - intros i j bi bj Hi Hj. enumerate_index i Hi; enumerate_index j Hj;
      vm_compute; by (reflexivity || lia).
  - intros i j bi bj Hi Hj. enumerate_index i Hi; enumerate_index j Hj;
      vm_compute; by (reflexivity || lia).
Qed.


(** ** Rendering *)

Lemma Mat_new_replicate raw rows cols s :
  Mat_new raw rows cols s
  = replicate (Z.to_nat rows) (replicate (Z.to_nat cols) s).
Proof.
  unfold Mat_new, Mat_setTo, Mat_alloc.
  rewrite <- list_fmap_compose.
  rewrite (const_fmap _ _ (replicate (Z.to_nat cols) s)).
  - by rewrite length_seq.
  - intros i y _. simpl.
    rewrite (const_fmap _ _ s) by done.
    by rewrite length_fmap, length_seq.
Qed.

(** The buffer does not keep anything of what the allocator returned. *)
Lemma Mat_new_raw raw1 raw2 rows cols s :
  Mat_new raw1 rows cols s = Mat_new raw2 rows cols s.
Proof. by rewrite !Mat_new_replicate. Qed.

Lemma pixelAt_Mat_new raw rows cols s x y :
  (x < Z.to_nat cols)%nat → (y < Z.to_nat rows)%nat →
  pixelAt (Mat_new raw rows cols s) x y = Some s.
Proof.
  intros Hx Hy. rewrite Mat_new_replicate. unfold pixelAt.
  rewrite lookup_replicate_2 by done. simpl.
  by rewrite lookup_replicate_2.
Qed.

Lemma pixelAt_paint cover color img x y :
  pixelAt (paint cover color img) x y
  = (λ p, if cover (Z.of_nat x) (Z.of_nat y) then color else p)
      <$> pixelAt img x y.
Proof.
  unfold pixelAt, paint. rewrite list_lookup_imap.
  destruct (img !! y) as [line|]; [|done]. simpl.
  by rewrite list_lookup_imap.
Qed.

Lemma paint_length cover color img : length (paint cover color img) = length img.
Proof. unfold paint. by rewrite length_imap. Qed.

Lemma paint_lines cover color img n :
  Forall (λ line, length line = n) img →
  Forall (λ line, length line = n) (paint cover color img).
Proof.
  intros H. unfold paint. apply Forall_lookup. intros y line.
  rewrite list_lookup_imap.
  destruct (img !! y) as [line0|] eqn:Hy; [|done]. simpl. intros [= <-].
  rewrite length_imap.
  exact (Forall_lookup_1 _ _ _ _ H Hy).
Qed.

Lemma Mat_new_length raw rows cols s :
  length (Mat_new raw rows cols s) = Z.to_nat rows.
Proof. by rewrite Mat_new_replicate, length_replicate. Qed.

Lemma Mat_new_lines raw rows cols s :
  Forall (λ line, length line = Z.to_nat cols) (Mat_new raw rows cols s).
Proof.
  rewrite Mat_new_replicate. apply Forall_replicate.
  by rewrite length_replicate.
Qed.

Section rendering_facts.
Variable strokePixels : Rect → Z → Z → Z → bool.
Variable textPixels : string → Z → Z → Qc → Z → Z → Z → bool.

Lemma pixelAt_applyOps ops img x y :
  pixelAt (applyOps ops img) x y
  = resolve ops (Z.of_nat x) (Z.of_nat y) <$> pixelAt img x y.
Proof.
  revert img. induction ops as [|op ops IH]; intros img; simpl.
  - by destruct (pixelAt img x y).
  - rewrite IH, pixelAt_paint. by destruct (pixelAt img x y).
Qed.

Lemma applyOps_length ops img : length (applyOps ops img) = length img.
Proof.
  revert img. induction ops as [|op ops IH]; intros img; simpl; [done|].
  by rewrite IH, paint_length.
Qed.

Lemma applyOps_lines ops img n :
  Forall (λ line, length line = n) img →
  Forall (λ line, length line = n) (applyOps ops img).
Proof.
  revert img. induction ops as [|op ops IH]; intros img H; simpl; [done|].
  by apply IH, paint_lines.
Qed.

Lemma resolve_elem_of ops x y p :
  resolve ops x y p ∈ p :: (opColor <$> ops).
Proof.
  revert p. induction ops as [|op ops IH]; intros p; simpl; [by left|].
  specialize (IH (if opCover op x y then opColor op else p)).
  apply elem_of_cons in IH as [->|IH].
  - destruct (opCover op x y); [right; by left|by left].
  - by do 2 right.
Qed.

(** The calls of [drawStandardFace] on a 3x3 matrix, in order. *)
Lemma drawStandardFace_ops self raw colorCodeMap faceName
    c00 c01 c02 c10 c11 c12 c20 c21 c22 :
  0 ≤ blockSize self →
  drawStandardFace strokePixels textPixels self raw
    [ [c00; c01; c02]; [c10; c11; c12]; [c20; c21; c22] ]
    colorCodeMap faceName
  = Some (applyOps
            (cellOps strokePixels textPixels self colorCodeMap 10 0 0 c00
             ++ cellOps strokePixels textPixels self colorCodeMap 10 0 1 c01
             ++ cellOps strokePixels textPixels self colorCodeMap 10 0 2 c02
             ++ cellOps strokePixels textPixels self colorCodeMap 10 1 0 c10
             ++ cellOps strokePixels textPixels self colorCodeMap 10 1 1 c11
             ++ cellOps strokePixels textPixels self colorCodeMap 10 1 2 c12
             ++ cellOps strokePixels textPixels self colorCodeMap 10 2 0 c20
             ++ cellOps strokePixels textPixels self colorCodeMap 10 2 1 c21
             ++ cellOps strokePixels textPixels self colorCodeMap 10 2 2 c22
             ++ captionOps textPixels faceName 10
                  (blockSize self * 3 + 10 * 2 + labelHeightOf faceName))
            (Mat_new raw
               (blockSize self * 3 + 10 * 2 + labelHeightOf faceName)
               (blockSize self * 3 + 10 * 2) backgroundColor)).
Proof.
  intros Hbs. unfold drawStandardFace, labelHeightOf, captionOps.
  cbn [forEach mbind option_bind]. unfold drawCell.
  cbn [lookup list_lookup mbind option_bind].
  f_equal. destruct (decide (faceName = EmptyString)) as [He|Hne].
  - reflexivity.
  - rewrite !paint_length, Mat_new_length, Z2Nat.id by lia. reflexivity.
Qed.

Lemma threeByThree (m : list (list ascii)) :
  length m = 3%nat → Forall (λ cells, length cells = 3%nat) m →
  ∃ c00 c01 c02 c10 c11 c12 c20 c21 c22,
    m = [ [c00; c01; c02]; [c10; c11; c12]; [c20; c21; c22] ].
Proof.
  intros Hlen Hrows.
  destruct m as [|r0 [|r1 [|r2 [|]]]]; try discriminate.
  apply Forall_cons in Hrows as [H0 Hrows].
  apply Forall_cons in Hrows as [H1 Hrows].
  apply Forall_cons in Hrows as [H2 _].
  destruct r0 as [|? [|? [|? [|]]]]; try discriminate.
  destruct r1 as [|? [|? [|? [|]]]]; try discriminate.
  destruct r2 as [|? [|? [|? [|]]]]; try discriminate.
  by repeat eexists.
Qed.

Lemma blockColorOf_unknown colorCodeMap colorCode :
  colorCodeMap !! colorCode = None →
  blockColorOf colorCodeMap colorCode = defaultGray.
Proof. intros H. unfold blockColorOf. by rewrite H. Qed.

(** Away from strokes and letters, the pixels of a cell have the colour
    chosen for its code. *)
Lemma cell_fill_visible raw colorCodeMap faceName
    c00 c01 c02 c10 c11 c12 c20 c21 c22 img row col colorCode (x y : nat) :
  let m := [ [c00; c01; c02]; [c10; c11; c12]; [c20; c21; c22] ] in
  drawStandardFace strokePixels textPixels newCubeVisualizer raw m
    colorCodeMap faceName = Some img →
  cellCode m row col = Some colorCode →
  (10 + 60 * col ≤ x < 70 + 60 * col)%nat →
  (10 + 60 * row ≤ y < 70 + 60 * row)%nat →
  faceInk strokePixels textPixels newCubeVisualizer m faceName (Z.of_nat x) (Z.of_nat y) = false →
  pixelAt img x y = Some (blockColorOf colorCodeMap colorCode).
Proof.
  intros m Hdraw Hcode Hx Hy Hink. unfold m in *.
  assert (row < 3)%nat as Hrow.
  { destruct row as [|[|[|?]]]; try lia. discriminate. }
  assert (col < 3)%nat as Hcol.
  { destruct row as [|[|[|?]]], col as [|[|[|?]]]; try lia; discriminate. }
  rewrite drawStandardFace_ops in Hdraw by done.
  apply (inj Some) in Hdraw. subst img.
  rewrite pixelAt_applyOps, pixelAt_Mat_new.
  2:{ simpl. lia. }
  2:{ unfold labelHeightOf. simpl. case_decide; lia. }
  cbn [fmap option_fmap option_map]. f_equal.
  revert Hink. unfold faceInk, captionOps, labelHeightOf, cellInk.
  set (X := Z.of_nat x). set (Y := Z.of_nat y).
  assert (HX : 10 + 60 * Z.of_nat col ≤ X < 70 + 60 * Z.of_nat col) by lia.
  assert (HY : 10 + 60 * Z.of_nat row ≤ Y < 70 + 60 * Z.of_nat row) by lia.
  clearbody X Y. clear Hx Hy.
  destruct row as [|[|[|?]]]; [| | |lia];
    destruct col as [|[|[|?]]]; try lia;
    injection Hcode as <-;
    (destruct (decide (faceName = EmptyString)));
    cbn; unfold inRect; cbn;
    repeat match goal with
           | |- context [strokePixels ?r ?t X Y] =>
               destruct (strokePixels r t X Y); [by rewrite ?orb_true_r|]
           | |- context [textPixels ?s ?a ?b ?f ?t X Y] =>
               destruct (textPixels s a b f t X Y); [by rewrite ?orb_true_r|]
           end;
    intros _;
    repeat (rewrite bool_decide_eq_false_2 by lia);
    rewrite ?bool_decide_eq_true_2 by lia; reflexivity.
Qed.
End rendering_facts.

(** The codes of the calibrated table are the only keys of the map handed
    to the renderer. *)
Lemma getColorCodeMap_unknown (ch : ascii) :
  ch ∉ [ "R"; "Y"; "G"; "B"; "W"; "P" ]%char →
  getColorCodeMap newCubeFaceAnalyzer !! ch = None.
Proof.
  intros Hch. unfold getColorCodeMap. simpl.
  rewrite !lookup_insert_ne by set_solver. apply lookup_empty.
Qed.

Section rendering_claims.
Variable strokePixels : Rect → Z → Z → Z → bool.
Variable textPixels : string → Z → Z → Qc → Z → Z → Z → bool.

(** C8: on every 3x3 matrix of characters [drawStandardFace] returns an
    image of 200 columns and 200 rows (225 with a caption); each of its
    pixels has a value, which is the background, the border colour, the text
    colour or the colour chosen for one of the cells; in a cell whose
    character is not a key of the colour table, every pixel that no border
    stroke and no text covers is the gray (128, 128, 128); the keys of the
    analyzer's table are the six calibrated codes. *)
Theorem drawStandardFace_never_fails
    (raw : nat → nat → Scalar) (colorMatrix : list (list ascii))
    (colorCodeMap : gmap ascii Scalar) (faceName : string) :
  length colorMatrix = 3%nat →
  Forall (λ cells, length cells = 3%nat) colorMatrix →
  ∃ img,
    drawStandardFace strokePixels textPixels newCubeVisualizer raw
      colorMatrix colorCodeMap faceName = Some img
    ∧ length img = Z.to_nat (200 + labelHeightOf faceName)
    ∧ Forall (λ line, length line = 200%nat) img
    ∧ (∀ x y, (x < 200)%nat → (y < length img)%nat →
         ∃ p, pixelAt img x y = Some p
              ∧ p ∈ backgroundColor :: borderColor :: textColor
                    :: (blockColorOf colorCodeMap <$> concat colorMatrix))
    ∧ (∀ row col colorCode (x y : nat),
         cellCode colorMatrix row col = Some colorCode →
         colorCodeMap !! colorCode = None →
         (10 + 60 * col ≤ x < 70 + 60 * col)%nat →
         (10 + 60 * row ≤ y < 70 + 60 * row)%nat →
         faceInk strokePixels textPixels newCubeVisualizer colorMatrix
                 faceName (Z.of_nat x) (Z.of_nat y) = false →
         pixelAt img x y = Some defaultGray)
    ∧ (∀ ch, ch ∉ [ "R"; "Y"; "G"; "B"; "W"; "P" ]%char →
             getColorCodeMap newCubeFaceAnalyzer !! ch = None).
Proof.
  intros Hlen Hrows.
  destruct (threeByThree colorMatrix Hlen Hrows)
    as (c00 & c01 & c02 & c10 & c11 & c12 & c20 & c21 & c22 & ->).
  pose proof (drawStandardFace_ops strokePixels textPixels newCubeVisualizer
                raw colorCodeMap faceName c00 c01 c02 c10 c11 c12 c20 c21 c22)
    as Hdraw.
  eexists. split; [apply Hdraw; done|].
  assert (Z.to_nat (blockSize newCubeVisualizer * 3 + 10 * 2
                    + labelHeightOf faceName)
          = Z.to_nat (200 + labelHeightOf faceName)) as Hh by done.
  split; [rewrite applyOps_length, Mat_new_length; exact Hh|].
  split.
  { change 200%nat with (Z.to_nat (blockSize newCubeVisualizer * 3 + 10 * 2)).
    apply applyOps_lines, Mat_new_lines. }
  split.
  - intros x y Hx Hy. rewrite applyOps_length, Mat_new_length in Hy.
    rewrite pixelAt_applyOps, pixelAt_Mat_new by done.
    eexists. split; [reflexivity|].
    match goal with
    | |- resolve ?ops ?X ?Y ?p ∈ _ =>
        pose proof (resolve_elem_of ops X Y p) as Hin; revert Hin;
        generalize (resolve ops X Y p)
    end.
    intros p. unfold captionOps. case_decide; cbn;
      rewrite !elem_of_cons, !elem_of_nil; tauto.
  - split; [|apply getColorCodeMap_unknown].
    intros row col colorCode x y Hcode Hunknown Hx Hy Hink.
    rewrite <- (blockColorOf_unknown colorCodeMap colorCode Hunknown).
    eapply cell_fill_visible; [apply Hdraw; done|done..].
Qed.

(** C9: two calls of [drawStandardFace] with the same matrix, colour table
    and face name return the same image, pixel for pixel, whatever the
    buffers they were allocated held before. *)
Theorem drawStandardFace_deterministic
    (self : CubeVisualizer) (raw1 raw2 : nat → nat → Scalar)
    (colorMatrix : list (list ascii)) (colorCodeMap : gmap ascii Scalar)
    (faceName : string) :
  drawStandardFace strokePixels textPixels self raw1 colorMatrix colorCodeMap
                   faceName
  = drawStandardFace strokePixels textPixels self raw2 colorMatrix colorCodeMap
                     faceName.
Proof. unfold drawStandardFace. by rewrite (Mat_new_raw raw1 raw2). Qed.
End rendering_claims.

Lemma drawStandardFace_never_fails_witness :
  ∃ img,
    drawStandardFace noStroke noText newCubeVisualizer
      (λ _ _, mkScalar 7 7 7) blankMatrix
      (getColorCodeMap newCubeFaceAnalyzer) "Front" = Some img
    ∧ length img = Z.to_nat (200 + labelHeightOf "Front")
    ∧ Forall (λ line, length line = 200%nat) img
    ∧ (∀ x y, (x < 200)%nat → (y < length img)%nat →
         ∃ p, pixelAt img x y = Some p
              ∧ p ∈ backgroundColor :: borderColor :: textColor
                    :: (blockColorOf (getColorCodeMap newCubeFaceAnalyzer)
                          <$> concat blankMatrix))
    ∧ (∀ row col colorCode (x y : nat),
         cellCode blankMatrix row col = Some colorCode →
         getColorCodeMap newCubeFaceAnalyzer !! colorCode = None →
         (10 + 60 * col ≤ x < 70 + 60 * col)%nat →
         (10 + 60 * row ≤ y < 70 + 60 * row)%nat →
         faceInk noStroke noText newCubeVisualizer blankMatrix
                 "Front" (Z.of_nat x) (Z.of_nat y) = false →
         pixelAt img x y = Some defaultGray)
    ∧ (∀ ch, ch ∉ [ "R"; "Y"; "G"; "B"; "W"; "P" ]%char →
             getColorCodeMap newCubeFaceAnalyzer !! ch = None).
Proof.
  apply (drawStandardFace_never_fails noStroke noText).
  - reflexivity.
  - repeat constructor.
Defined.

(** The blank face: the middle of every cell is gray. *)
Example blank_face_is_gray :
  (λ img, [ pixelAt img 40 40; pixelAt img 100 40; pixelAt img 160 160;
            pixelAt img 5 5 ])
    <$> drawStandardFace noStroke noText newCubeVisualizer
          (λ _ _, mkScalar 7 7 7) blankMatrix
          (getColorCodeMap newCubeFaceAnalyzer) EmptyString
  = Some [ Some defaultGray; Some defaultGray; Some defaultGray;
           Some backgroundColor ].
Proof. by vm_compute. Qed.

(** * Further properties of the program *)

(** ** Detection, in general *)

Lemma detectBlocks_regions self indet img :
  detectBlocks self indet img = regionsOf self indet img.
Proof.
  unfold detectBlocks, regionsOf, acceptedContours.
  generalize (colorTable self) as table.
  enough (∀ table acc,
            foldl (λ acc c, scanContours indet c acc (img c)) acc table
            = acc ++ imap (λ k p, newBlock (indet (length acc + k)%nat)
                                           p.1 p.2)
                          (c ← table;
                           (λ ct, (c, ct))
                             <$> filter (λ ct, areaRejected (contourArea ct)
                                               = false) (img c))) as H
    by (intros table; apply (H table [])).
  induction table as [|c table IH]; intros acc; simpl.
  - by rewrite app_nil_r.
  - rewrite IH, scanContours_app, imap_app, imap_fmap, <- app_assoc.
    do 2 f_equal. apply imap_ext. intros k p _. simpl.
    rewrite length_app, length_imap, length_fmap. do 2 f_equal. lia.
Qed.

Lemma acceptedContours_elem_of self img c ct :
  (c, ct) ∈ acceptedContours self img →
  c ∈ colorTable self ∧ areaRejected (contourArea ct) = false.
Proof.
  unfold acceptedContours. intros (c' & Hin & Hc)%list_elem_of_bind.
  apply list_elem_of_fmap in Hin as (ct' & [= -> ->] & Hct).
  by apply list_elem_of_filter in Hct as [Hok _].
Qed.

Lemma regionsOf_lookup self indet img k :
  regionsOf self indet img !! k
  = (λ p, newBlock (indet k) p.1 p.2) <$> acceptedContours self img !! k.
Proof. unfold regionsOf. by rewrite list_lookup_imap. Qed.

Lemma regionsOf_fromTable self indet img :
  Forall (fromTable self) (regionsOf self indet img).
Proof.
  apply Forall_lookup. intros k b. rewrite regionsOf_lookup.
  destruct (acceptedContours self img !! k) as [[c ct]|] eqn:Hk; [|done].
  simpl. intros [= <-]. apply list_elem_of_lookup_2 in Hk.
  apply acceptedContours_elem_of in Hk as [Hc Hok]. split.
  - by exists c.
  - simpl. unfold areaRejected in Hok.
    apply orb_false_elim in Hok as [H1 H2].
    by rewrite !Qc_ltb_ge in *.
Qed.

Lemma fromTable_eraseGrid self b : fromTable self (eraseGrid b) ↔ fromTable self b.
Proof. done. Qed.

Lemma assignToGrid_Some_inv blocks grid :
  assignToGrid blocks = Some grid →
  ∃ t1 t2,
    rowThresholds (sortedY blocks) = Some (t1, t2)
    ∧ grid = std_sort compareColorBlocks (taggedBlocks t1 t2 blocks).
Proof.
  destruct (rowThresholds (sortedY blocks)) as [[t1 t2]|] eqn:Ht.
  - rewrite (assignToGrid_tagged _ _ _ Ht). intros [= <-]. by exists t1, t2.
  - unfold assignToGrid. fold (sortedY blocks). by rewrite Ht.
Qed.

Lemma assignToGrid_seven blocks :
  (7 ≤ length blocks)%nat →
  ∃ t1 t2,
    rowThresholds (sortedY blocks) = Some (t1, t2)
    ∧ assignToGrid blocks
      = Some (std_sort compareColorBlocks (taggedBlocks t1 t2 blocks)).
Proof.
  intros Hlen.
  destruct (rowThresholds_seven (sortedY blocks))
    as (y2 & y3 & y5 & y6 & _ & _ & _ & _ & Ht).
  { by rewrite sortedY_length. }
  eexists _, _. split; [exact Ht|]. by apply assignToGrid_tagged.
Qed.

Lemma assignToGrid_erase blocks grid :
  assignToGrid blocks = Some grid →
  eraseGrid <$> grid ≡ₚ eraseGrid <$> blocks.
Proof.
  intros (t1 & t2 & _ & ->)%assignToGrid_Some_inv.
  by rewrite std_sort_perm, taggedBlocks_erase.
Qed.

(** X1: [analyzeCubeFace] always returns: with nine regions the grid
    assignment finds the four ordinates it reads.  What it returns are the
    regions of the accepted contours, each once (up to the row and column
    written by the grid assignment), in detection order when their number
    is not nine; the colour name and value of each come from one range of
    the table and its area lies in [15000, 150000]. *)
Theorem analyzeCubeFace_regions (self : CubeFaceAnalyzer)
    (indet : nat → Z * Z) (img : Image) :
  ∃ blocks,
    analyzeCubeFace self indet img = Some blocks
    ∧ eraseGrid <$> blocks ≡ₚ eraseGrid <$> regionsOf self indet img
    ∧ (length (regionsOf self indet img) ≠ 9%nat
       → blocks = regionsOf self indet img)
    ∧ Forall (fromTable self) blocks.
Proof.
  unfold analyzeCubeFace. rewrite detectBlocks_regions.
  pose proof (regionsOf_fromTable self indet img) as Hall.
  destruct (decide (length (regionsOf self indet img) = 9%nat)) as [Hlen|Hne].
  - destruct (assignToGrid_seven (regionsOf self indet img))
      as (t1 & t2 & _ & Hgrid); [lia|].
    eexists. split; [exact Hgrid|].
    pose proof (assignToGrid_erase _ _ Hgrid) as Hperm.
    split; [done|]. split; [done|].
    apply (Forall_impl (fromTable self ∘ eraseGrid)); [|done].
    apply Forall_fmap. rewrite Hperm. by apply Forall_fmap.
  - by exists (regionsOf self indet img).
Qed.

(** X2: the grid assignment reads the sorted ordinates at indices 2, 3, 5
    and 6 without a check: the reads are out of range exactly when it is
    given fewer than seven blocks. *)
Theorem assignToGrid_out_of_range (blocks : list ColorBlock) :
  assignToGrid blocks = None ↔ (length blocks < 7)%nat.
Proof.
  split.
  - intros Hnone. destruct (decide (length blocks < 7)%nat); [done|].
    destruct (assignToGrid_seven blocks) as (? & ? & _ & ?); [lia|congruence].
  - intros Hlen. unfold assignToGrid. fold (sortedY blocks).
    assert (rowThresholds (sortedY blocks) = None) as ->; [|done].
    unfold rowThresholds.
    rewrite (lookup_ge_None_2 _ 6) by (rewrite sortedY_length; lia).
    by destruct (sortedY blocks !! 2%nat), (sortedY blocks !! 3%nat),
                (sortedY blocks !! 5%nat).
Qed.

(** ** The grid follows the geometry *)

Lemma rowIndex_mono t1 t2 y y' :
  (y ≤ y')%Qc → rowIndex t1 t2 y ≤ rowIndex t1 t2 y'.
Proof.
  intros Hy. unfold rowIndex.
  pose proof (floatLess_mono y y' t1 Hy) as H1.
  pose proof (floatLess_mono y y' t2 Hy) as H2.
  destruct (floatLess y' t1); [rewrite H1 by done; lia|].
  destruct (floatLess y' t2);
    [rewrite H2 by done; destruct (floatLess y t1); lia|].
  repeat case_match; lia.
Qed.

Lemma elem_of_sorted_tagged t1 t2 blocks b' :
  b' ∈ std_sort compareColorBlocks (taggedBlocks t1 t2 blocks) →
  ∃ i b, blocks !! i = Some b
         ∧ b' = set_col (Z.of_nat (columnOf t1 t2 blocks i b))
                        (assignRow t1 t2 b).
Proof.
  rewrite std_sort_perm. intros [i Hi]%list_elem_of_lookup_1.
  rewrite taggedBlocks_lookup in Hi.
  destruct (blocks !! i) as [b|] eqn:Hb; [|done].
  exists i, b. split; [done|]. by injection Hi as <-.
Qed.

(** X3: after the grid assignment a region that lies higher in the image
    never has a larger row: the row is a monotone function of the centroid
    ordinate. *)
Theorem assignToGrid_rows_follow_y (blocks : list ColorBlock) :
  (7 ≤ length blocks)%nat →
  ∃ grid, assignToGrid blocks = Some grid ∧ rowsFollowY grid.
Proof.
  intros Hlen. destruct (assignToGrid_seven blocks Hlen) as (t1 & t2 & _ & Hg).
  eexists. split; [exact Hg|]. intros a' b' Ha Hb.
  apply elem_of_sorted_tagged in Ha as (i & a & _ & ->).
  apply elem_of_sorted_tagged in Hb as (j & b & _ & ->).
  simpl. apply rowIndex_mono.
Qed.

Lemma assignToGrid_rows_follow_y_witness :
  ∃ grid, assignToGrid skewedFace = Some grid ∧ rowsFollowY grid.
Proof. apply (assignToGrid_rows_follow_y skewedFace). vm_compute. lia. Defined.

(** X4: inside a row the columns follow the abscissas: of two regions of
    one row the one further left has the smaller column. *)
Theorem assignToGrid_cols_follow_x (blocks : list ColorBlock) :
  (7 ≤ length blocks)%nat →
  ∃ grid, assignToGrid blocks = Some grid ∧ colsFollowX grid.
Proof.
  intros Hlen. destruct (assignToGrid_seven blocks Hlen) as (t1 & t2 & _ & Hg).
  eexists. split; [exact Hg|]. intros a' b' Ha Hb.
  apply elem_of_sorted_tagged in Ha as (i & a & Hi & ->).
  apply elem_of_sorted_tagged in Hb as (j & b & Hj & ->).
  simpl. intros Hrow Hx. apply inj_lt. unfold columnOf. rewrite <- Hrow.
  set (B1 := assignRow t1 t2 <$> blocks).
  set (S := sortedRow (rowIndex t1 t2 (centerY a)) B1).
  assert (i ∈ S) as HiS by by apply pointer_in_sortedRow.
  assert (j ∈ S) as HjS.
  { unfold S. rewrite Hrow. by apply pointer_in_sortedRow. }
  assert (StronglySorted (notAfter (keyLess (xKey B1))) S) as Hs.
  { apply Sorted_StronglySorted; [apply keyLess_notAfter_trans|].
    unfold S. rewrite sortedRow_keyed. apply std_sort_sorted, keyLess_asym. }
  assert (xKey B1 i = centerX a) as Hxi.
  { apply (xKey_lookup _ _ (assignRow t1 t2 a)).
    unfold B1. by rewrite list_lookup_fmap, Hi. }
  assert (xKey B1 j = centerX b) as Hxj.
  { apply (xKey_lookup _ _ (assignRow t1 t2 b)).
    unfold B1. by rewrite list_lookup_fmap, Hj. }
  pose proof (indexIn_lookup i S HiS) as Hli.
  pose proof (indexIn_lookup j S HjS) as Hlj.
  destruct (decide (indexIn i S < indexIn j S)%nat) as [|Hge]; [done|].
  exfalso.
  destruct (decide (indexIn j S = indexIn i S)) as [Heq|Hne].
  - rewrite Heq, Hli in Hlj. injection Hlj as ->.
    rewrite Hi in Hj. injection Hj as ->. by apply (Qclt_not_le _ _ Hx), Qcle_refl.
  - assert (notAfter (keyLess (xKey B1)) j i) as Hna.
    { eapply (StronglySorted_lookup_lt _ S (indexIn j S) (indexIn i S));
        [done|exact Hlj|exact Hli|lia]. }
    unfold notAfter, keyLess in Hna. rewrite Hxi, Hxj in Hna.
    apply Qc_ltb_ge in Hna. by apply (Qclt_not_le _ _ Hx).
Qed.

Lemma assignToGrid_cols_follow_x_witness :
  ∃ grid, assignToGrid skewedFace = Some grid ∧ colsFollowX grid.
Proof. apply (assignToGrid_cols_follow_x skewedFace). vm_compute. lia. Defined.

(** ** How full a row can get *)

Lemma count_negb {A} (p : A → bool) (l : list A) :
  (count p l + count (λ x, negb (p x)) l = length l)%nat.
Proof. induction l as [|x l IH]; simpl; [done|]. destruct (p x); simpl; lia. Qed.

Lemma sortedY_le blocks i j x y :
  sortedY blocks !! i = Some x → sortedY blocks !! j = Some y →
  (i ≤ j)%nat → (x ≤ y)%Qc.
Proof.
  intros Hi Hj Hij. apply Qc_ltb_ge. fold (notAfter Qc_ltb x y).
  eapply (StronglySorted_lookup_le _ (sortedY blocks) i j);
    [apply sortedY_sorted|exact Hi|exact Hj|done].
Qed.

Lemma inRows_count lo hi grid :
  inRows lo hi grid = count (λ b, bool_decide (lo ≤ row b ≤ hi)) grid.
Proof.
  unfold inRows. rewrite <- count_filter. f_equal.
  apply list_filter_iff. intros b. by rewrite bool_decide_eq_true.
Qed.

Lemma inRows_tagged lo hi t1 t2 blocks :
  inRows lo hi (std_sort compareColorBlocks (taggedBlocks t1 t2 blocks))
  = count (λ y, bool_decide (lo ≤ rowIndex t1 t2 y ≤ hi)) (sortedY blocks).
Proof.
  rewrite inRows_count, (count_perm _ _ _ (std_sort_perm _ _)).
  unfold sortedY. rewrite (count_perm _ _ _ (std_sort_perm _ _)).
  trans (count (λ r, bool_decide (lo ≤ r ≤ hi))
               (row <$> taggedBlocks t1 t2 blocks)).
  { by rewrite count_fmap. }
  assert (row <$> taggedBlocks t1 t2 blocks
          = rowIndex t1 t2 <$> (centerY <$> blocks)) as ->.
  { apply list_eq. intros i.
    rewrite !list_lookup_fmap, taggedBlocks_lookup.
    by destruct (blocks !! i). }
  by rewrite count_fmap.
Qed.

Lemma rowIndex_upto_closed t1 t2 hi y y' :
  (y ≤ y')%Qc →
  bool_decide (0 ≤ rowIndex t1 t2 y' ≤ hi) = true →
  bool_decide (0 ≤ rowIndex t1 t2 y ≤ hi) = true.
Proof.
  intros Hy. rewrite !bool_decide_eq_true.
  pose proof (rowIndex_mono t1 t2 y y' Hy).
  pose proof (rowIndex_range t1 t2 y). lia.
Qed.

Lemma row_caps blocks y2 y3 y5 y6 :
  sortedY blocks !! 2%nat = Some y2 → sortedY blocks !! 3%nat = Some y3 →
  sortedY blocks !! 5%nat = Some y5 → sortedY blocks !! 6%nat = Some y6 →
  let grid := std_sort compareColorBlocks
                (taggedBlocks (rowThreshold y2 y3) (rowThreshold y5 y6)
                              blocks) in
  assignToGrid blocks = Some grid
  ∧ ((inRows 0 0 grid ≤ 3)%nat ↔ floatLess y3 (rowThreshold y2 y3) = false)
  ∧ ((inRows 0 1 grid ≤ 6)%nat
     ↔ floatLess y6 (rowThreshold y2 y3) = false
       ∧ floatLess y6 (rowThreshold y5 y6) = false)
  ∧ (inRows 0 1 grid + inRows 2 2 grid)%nat = length blocks.
Proof.
  intros H2 H3 H5 H6.
  pose proof (rowThresholds_Some _ _ _ _ _ H2 H3 H5 H6) as Ht.
  set (t1 := rowThreshold y2 y3) in *. set (t2 := rowThreshold y5 y6) in *.
  intros grid. split; [by apply assignToGrid_tagged|].
  unfold grid. rewrite !inRows_tagged.
  pose proof (sortedY_sorted blocks) as Hs.
  split; [|split].
  - rewrite (count_le_sorted _ _ 3 y3 (rowIndex_upto_closed t1 t2 0) Hs H3).
    rewrite bool_decide_eq_false. unfold rowIndex.
    destruct (floatLess y3 t1), (floatLess y3 t2);
      split; (done || lia || (intros H; exfalso; apply H; lia)).
  - rewrite (count_le_sorted _ _ 6 y6 (rowIndex_upto_closed t1 t2 1) Hs H6).
    rewrite bool_decide_eq_false. unfold rowIndex.
    destruct (floatLess y6 t1), (floatLess y6 t2);
      split; (done || lia || (intros H; exfalso; apply H; lia)
              || (by intros [? ?])).
  - pose proof (count_negb
                  (λ y, bool_decide (0 ≤ rowIndex t1 t2 y ≤ 1))
                  (sortedY blocks)) as Hsum.
    rewrite sortedY_length in Hsum. rewrite <- Hsum. f_equal.
    apply count_ext. intros y _.
    pose proof (rowIndex_range t1 t2 y).
    repeat case_bool_decide; simpl; (done || lia).
Qed.

(** X5: the regions are counted row by row against the sorted ordinates.
    Row 0 receives at most three regions exactly when the first threshold
    is not above the ordinate at index 3; rows 0 and 1 together receive at
    most six exactly when neither threshold is above the ordinate at index
    6; all the other regions go to row 2. *)
Theorem assignToGrid_row_caps (blocks : list ColorBlock) :
  (7 ≤ length blocks)%nat →
  ∃ grid y2 y3 y5 y6,
    assignToGrid blocks = Some grid
    ∧ sortedY blocks !! 2%nat = Some y2 ∧ sortedY blocks !! 3%nat = Some y3
    ∧ sortedY blocks !! 5%nat = Some y5 ∧ sortedY blocks !! 6%nat = Some y6
    ∧ ((inRows 0 0 grid ≤ 3)%nat
       ↔ floatLess y3 (rowThreshold y2 y3) = false)
    ∧ ((inRows 0 1 grid ≤ 6)%nat
       ↔ floatLess y6 (rowThreshold y2 y3) = false
         ∧ floatLess y6 (rowThreshold y5 y6) = false)
    ∧ (inRows 0 1 grid + inRows 2 2 grid)%nat = length blocks.
Proof.
  intros Hlen.
  destruct (rowThresholds_seven (sortedY blocks))
    as (y2 & y3 & y5 & y6 & H2 & H3 & H5 & H6 & _).
  { by rewrite sortedY_length. }
  destruct (row_caps blocks y2 y3 y5 y6 H2 H3 H5 H6) as (Hg & H0 & H1 & Hsum).
  by eexists _, y2, y3, y5, y6.
Qed.

Lemma assignToGrid_row_caps_witness :
  ∃ grid y2 y3 y5 y6,
    assignToGrid crowdedLevel = Some grid
    ∧ sortedY crowdedLevel !! 2%nat = Some y2
    ∧ sortedY crowdedLevel !! 3%nat = Some y3
    ∧ sortedY crowdedLevel !! 5%nat = Some y5
    ∧ sortedY crowdedLevel !! 6%nat = Some y6
    ∧ ((inRows 0 0 grid ≤ 3)%nat
       ↔ floatLess y3 (rowThreshold y2 y3) = false)
    ∧ ((inRows 0 1 grid ≤ 6)%nat
       ↔ floatLess y6 (rowThreshold y2 y3) = false
         ∧ floatLess y6 (rowThreshold y5 y6) = false)
    ∧ (inRows 0 1 grid + inRows 2 2 grid)%nat = length crowdedLevel.
Proof. apply (assignToGrid_row_caps crowdedLevel). vm_compute. lia. Defined.

(** With four regions on the first level both caps hold: no region goes to
    row 0, six go to row 1 and three to row 2. *)
Example crowdedLevel_rows :
  (λ grid : list ColorBlock, row <$> grid) <$> assignToGrid crowdedLevel
  = Some [1; 1; 1; 1; 1; 1; 2; 2; 2].
Proof. by vm_compute. Qed.

(** With the ordinates [-2^127] and [2^127] at indices 2 and 3 the
    difference overflows, the first threshold is plus infinity and the nine
    regions go to row 0. *)
Example overflowFace_rows :
  fst <$> rowThresholds (sortedY overflowFace) = Some (S754_infinity false)
  ∧ (λ grid : list ColorBlock, row <$> grid) <$> assignToGrid overflowFace
    = Some [0; 0; 0; 0; 0; 0; 0; 0; 0].
Proof. split; by vm_compute. Qed.

(** X6: [compareColorBlocks] is a strict weak ordering, as [std::sort]
    requires of its comparator: irreflexive, transitive, with a transitive
    equivalence, which is having the same (row, col). *)
Theorem compareColorBlocks_strict_weak_order :
  (∀ a, compareColorBlocks a a = false)
  ∧ (∀ a b c, compareColorBlocks a b = true → compareColorBlocks b c = true →
              compareColorBlocks a c = true)
  ∧ (∀ a b, compareColorBlocks a b = false ∧ compareColorBlocks b a = false
            ↔ gridPos a = gridPos b)
  ∧ (∀ a b c, gridPos a = gridPos b → gridPos b = gridPos c →
              compareColorBlocks a c = false
              ∧ compareColorBlocks c a = false).
Proof.
  split; [|split; [|split]].
  - intros a. apply compareColorBlocks_false. unfold posLt. lia.
  - intros a b c. rewrite !compareColorBlocks_spec. unfold posLt. lia.
  - intros a b. rewrite !compareColorBlocks_false. split.
    + unfold posLt, gridPos. simpl. intros [H1 H2]. f_equal; lia.
    + intros ->. unfold posLt. lia.
  - intros a b c Hab Hbc. rewrite !compareColorBlocks_false, Hab, Hbc.
    unfold posLt. lia.
Qed.

(** ** The colour matrix, whatever the blocks *)

Lemma createColorMatrix_snoc self blocks b :
  createColorMatrix self (blocks ++ [b])
  = placeBlock (createColorMatrix self blocks) b.
Proof. unfold createColorMatrix. by rewrite foldl_app. Qed.

Lemma map_subscript_codeOf codes n :
  (map_subscript codes n).1 = codeOf codes n.
Proof. unfold map_subscript, codeOf. by destruct (codes !! n). Qed.

Lemma map_subscript_lookup codes n k :
  (map_subscript codes n).2 !! k
  = match codes !! k with
    | Some ch => Some ch
    | None => if decide (n = k) then Some Ascii.zero else None
    end.
Proof.
  unfold map_subscript. destruct (codes !! n) as [v|] eqn:Hn; simpl.
  - destruct (codes !! k) eqn:Hk; [done|].
    case_decide; [congruence|done].
  - rewrite lookup_insert. case_decide as Hnk.
    + subst k. by rewrite Hn.
    + by destruct (codes !! k).
Qed.

Lemma placeBlock_inGrid m this b :
  inGrid b →
  placeBlock (m, this) b
  = (alter (λ cells, <[Z.to_nat (col b) := codeOf (colorCodes this)
                                                 (colorName b)]> cells)
           (Z.to_nat (row b)) m,
     mkCubeFaceAnalyzer (colorTable this)
       (map_subscript (colorCodes this) (colorName b)).2).
Proof.
  intros Hin. unfold placeBlock. rewrite decide_True by done.
  rewrite <- map_subscript_codeOf.
  by destruct (map_subscript (colorCodes this) (colorName b)).
Qed.

Lemma placeBlock_outside m this b :
  ¬ inGrid b → placeBlock (m, this) b = (m, this).
Proof. intros Hout. unfold placeBlock. by rewrite decide_False. Qed.

Lemma createColorMatrix_shape self blocks :
  isMatrix3 (createColorMatrix self blocks).1.
Proof.
  induction blocks as [|b blocks IH] using rev_ind.
  - split; [done|]. by repeat constructor.
  - rewrite createColorMatrix_snoc.
    destruct (createColorMatrix self blocks) as [m this]. simpl in IH.
    destruct (decide (inGrid b)) as [Hin|Hout].
    + rewrite placeBlock_inGrid by done. simpl. destruct IH as [Hlen Hrows].
      split; [by rewrite length_alter|].
      apply Forall_alter; [done|]. intros cells _ Hcells.
      by rewrite length_insert.
    + by rewrite placeBlock_outside.
Qed.

Lemma createColorMatrix_state self blocks n :
  colorTable (createColorMatrix self blocks).2 = colorTable self
  ∧ colorCodes (createColorMatrix self blocks).2 !! n
    = match colorCodes self !! n with
      | Some ch => Some ch
      | None => if decide (lookedUp blocks n) then Some Ascii.zero else None
      end.
Proof.
  induction blocks as [|b blocks IH] using rev_ind.
  - split; [done|]. unfold createColorMatrix. cbn [foldl snd].
    destruct (colorCodes self !! n); [done|].
    case_decide as Hex; [|done]. by apply Exists_nil in Hex.
  - rewrite createColorMatrix_snoc.
    destruct (createColorMatrix self blocks) as [m this]. simpl in IH.
    destruct IH as [Htable Hcodes].
    destruct (decide (inGrid b)) as [Hin|Hout].
    + rewrite placeBlock_inGrid by done. simpl. split; [done|].
      rewrite map_subscript_lookup, Hcodes.
      destruct (colorCodes self !! n); [done|].
      unfold lookedUp. repeat case_decide; try done.
      * exfalso. rewrite Exists_app in *. tauto.
      * exfalso. rewrite Exists_app, Exists_cons, Exists_nil in *. tauto.
      * exfalso. rewrite Exists_app, Exists_cons, Exists_nil in *. tauto.
    + rewrite placeBlock_outside by done. simpl. split; [done|].
      rewrite Hcodes. destruct (colorCodes self !! n); [done|].
      unfold lookedUp. repeat case_decide; try done.
      * exfalso. rewrite Exists_app in *. tauto.
      * exfalso. rewrite Exists_app, Exists_cons, Exists_nil in *. tauto.
Qed.

(** X7: [createColorMatrix] leaves the colour table and every code it finds
    as they are; through [colorCodes[name]] it adds the entry ['\0'] for
    every name it looks up and does not find, that is for the unknown names
    of the blocks that lie inside the grid, and for no other. *)
Theorem createColorMatrix_codes (self : CubeFaceAnalyzer)
    (blocks : list ColorBlock) (n : string) :
  colorTable (createColorMatrix self blocks).2 = colorTable self
  ∧ colorCodes (createColorMatrix self blocks).2 !! n
    = match colorCodes self !! n with
      | Some ch => Some ch
      | None => if decide (lookedUp blocks n) then Some Ascii.zero else None
      end.
Proof. apply createColorMatrix_state. Qed.

Lemma createColorMatrix_codeOf self blocks n :
  codeOf (colorCodes (createColorMatrix self blocks).2) n
  = codeOf (colorCodes self) n.
Proof.
  unfold codeOf.
  destruct (createColorMatrix_state self blocks n) as [_ ->].
  destruct (colorCodes self !! n); [done|]. by case_decide.
Qed.

Lemma cellCode_write (m : list (list ascii)) r0 c0 ch r c :
  isMatrix3 m → (r0 < 3)%nat → (c0 < 3)%nat →
  cellCode (alter (λ cells, <[c0 := ch]> cells) r0 m) r c
  = if decide (r = r0 ∧ c = c0) then Some ch else cellCode m r c.
Proof.
  intros [Hlen Hrows] Hr0 Hc0. unfold cellCode.
  rewrite list_lookup_alter.
  destruct (decide (r0 = r)) as [->|Hne].
  - destruct (m !! r) as [cells|] eqn:Hcells.
    + simpl. rewrite list_lookup_insert.
      pose proof (Forall_lookup_1 _ _ _ _ Hrows Hcells) as Hc. simpl in Hc.
      repeat case_decide; try done; exfalso; intuition (congruence || lia).
    + apply lookup_ge_None in Hcells. lia.
  - rewrite decide_False; [done|]. intros [? _]. congruence.
Qed.

Lemma lastAt_snoc r c blocks b :
  lastAt r c (blocks ++ [b])
  = if decide (row b = Z.of_nat r ∧ col b = Z.of_nat c) then Some b
    else lastAt r c blocks.
Proof.
  unfold lastAt. rewrite filter_app, filter_cons, filter_nil.
  case_decide.
  - by rewrite last_snoc.
  - by rewrite app_nil_r.
Qed.

Lemma createColorMatrix_cell self blocks r c :
  (r < 3)%nat → (c < 3)%nat →
  cellCode (createColorMatrix self blocks).1 r c
  = Some (from_option (λ b, codeOf (colorCodes self) (colorName b))
                      " "%char (lastAt r c blocks)).
Proof.
  intros Hr Hc. induction blocks as [|b blocks IH] using rev_ind.
  - assert (r = 0 ∨ r = 1 ∨ r = 2)%nat as Hr' by lia.
    assert (c = 0 ∨ c = 1 ∨ c = 2)%nat as Hc' by lia.
    by destruct Hr' as [-> | [-> | ->]]; destruct Hc' as [-> | [-> | ->]].
  - rewrite createColorMatrix_snoc, lastAt_snoc.
    pose proof (createColorMatrix_shape self blocks) as Hshape.
    pose proof (createColorMatrix_codeOf self blocks (colorName b)) as Hcode.
    destruct (createColorMatrix self blocks) as [m this].
    cbn [fst snd] in Hshape, Hcode, IH.
    destruct (decide (inGrid b)) as [Hin|Hout].
    + rewrite placeBlock_inGrid by done. cbn [fst].
      destruct Hin as (? & ? & ? & ?).
      rewrite cellCode_write by (done || lia). rewrite Hcode, IH.
      repeat case_decide; try done; exfalso; intuition lia.
    + rewrite placeBlock_outside by done. cbn [fst]. rewrite IH.
      rewrite decide_False; [done|]. intros [? ?]. apply Hout.
      unfold inGrid. lia.
Qed.

(** X8: every cell of the matrix holds the code of the last block of the
    list that carries its position, the blank when no block does: a later
    block overwrites an earlier one, and the code is what [colorCodes] held
    for the name when the function was called (['\0'] for an unknown
    name). *)
Theorem createColorMatrix_last_wins (self : CubeFaceAnalyzer)
    (blocks : list ColorBlock) :
  Forall (λ rc,
            cellCode (createColorMatrix self blocks).1 rc.1 rc.2
            = Some (from_option (λ b, codeOf (colorCodes self) (colorName b))
                                " "%char (lastAt rc.1 rc.2 blocks)))
         gridCells.
Proof.
  apply Forall_forall. intros [r c] Hrc. simpl.
  apply createColorMatrix_cell;
    unfold gridCells in Hrc; rewrite !elem_of_cons, elem_of_nil in Hrc;
    intuition (simplify_eq; lia).
Qed.

(** ** What the grid assignment overwrites *)

Lemma sortedY_eraseGrid blocks : sortedY (eraseGrid <$> blocks) = sortedY blocks.
Proof. unfold sortedY. by rewrite <- list_fmap_compose. Qed.

Lemma assignRow_eraseGrid_colChanged t1 t2 blocks :
  Forall2 colChanged (assignRow t1 t2 <$> blocks)
          (assignRow t1 t2 <$> (eraseGrid <$> blocks)).
Proof.
  rewrite <- list_fmap_compose. apply Forall2_fmap, Forall_Forall2_diag.
  apply Forall_forall. intros b _. by exists 0.
Qed.

Lemma taggedBlocks_eraseGrid t1 t2 blocks :
  taggedBlocks t1 t2 (eraseGrid <$> blocks) = taggedBlocks t1 t2 blocks.
Proof.
  apply list_eq. intros i.
  rewrite !taggedBlocks_lookup, list_lookup_fmap.
  destruct (blocks !! i) as [b|]; [|done]. simpl. f_equal.
  unfold columnOf.
  rewrite (sortedRow_colChanged _ _ _ (assignRow_eraseGrid_colChanged _ _ _)).
  done.
Qed.

Lemma assignToGrid_eraseGrid blocks :
  assignToGrid (eraseGrid <$> blocks) = assignToGrid blocks.
Proof.
  destruct (rowThresholds (sortedY blocks)) as [[t1 t2]|] eqn:Ht.
  - rewrite (assignToGrid_tagged blocks t1 t2 Ht).
    rewrite (assignToGrid_tagged (eraseGrid <$> blocks) t1 t2)
      by by rewrite sortedY_eraseGrid.
    by rewrite taggedBlocks_eraseGrid.
  - unfold assignToGrid.
    fold (sortedY blocks). fold (sortedY (eraseGrid <$> blocks)).
    by rewrite sortedY_eraseGrid, Ht.
Qed.

(** X9: the grid assignment overwrites the row and the column of every
    block it is given: two lists of blocks that differ only in what these
    two fields held give the same result. *)
Theorem assignToGrid_overwrites (blocks blocks' : list ColorBlock) :
  eraseGrid <$> blocks = eraseGrid <$> blocks' →
  assignToGrid blocks = assignToGrid blocks'.
Proof.
  intros Heq.
  by rewrite <- (assignToGrid_eraseGrid blocks), Heq, assignToGrid_eraseGrid.
Qed.

Lemma assignToGrid_overwrites_witness :
  assignToGrid scrambledLattice
  = assignToGrid (set_row 1 <$> (set_col (-4) <$> scrambledLattice)).
Proof.
  apply (assignToGrid_overwrites scrambledLattice
           (set_row 1 <$> (set_col (-4) <$> scrambledLattice))).
  reflexivity.
Defined.

Lemma regionsOf_eraseGrid self indet indet' img :
  eraseGrid <$> regionsOf self indet img
  = eraseGrid <$> regionsOf self indet' img.
Proof.
  apply list_eq. intros k. rewrite !list_lookup_fmap, !regionsOf_lookup.
  by destruct (acceptedContours self img !! k).
Qed.

Lemma regionsOf_length self indet indet' img :
  length (regionsOf self indet img) = length (regionsOf self indet' img).
Proof.
  rewrite <- (length_fmap eraseGrid), (regionsOf_eraseGrid self indet indet').
  by rewrite length_fmap.
Qed.

(** X10: when nine regions are detected, the result of [analyzeCubeFace]
    does not depend on what the never-initialised [row] and [col] of the
    fresh blocks held. *)
Theorem analyzeCubeFace_nine_initialised (self : CubeFaceAnalyzer)
    (indet indet' : nat → Z * Z) (img : Image) :
  length (regionsOf self indet img) = 9%nat →
  analyzeCubeFace self indet img = analyzeCubeFace self indet' img.
Proof.
  intros Hlen. unfold analyzeCubeFace. rewrite !detectBlocks_regions.
  rewrite <- (regionsOf_length self indet indet'), !decide_True by done.
  rewrite <- (assignToGrid_eraseGrid (regionsOf self indet img)).
  rewrite <- (assignToGrid_eraseGrid (regionsOf self indet' img)).
  by rewrite (regionsOf_eraseGrid self indet indet').
Qed.

Lemma analyzeCubeFace_nine_initialised_witness :
  analyzeCubeFace newCubeFaceAnalyzer (λ _, (0, 0)) (solidFace "Red")
  = analyzeCubeFace newCubeFaceAnalyzer mixedGarbage (solidFace "Red").
Proof.
  apply (analyzeCubeFace_nine_initialised newCubeFaceAnalyzer (λ _, (0, 0))
           mixedGarbage (solidFace "Red")).
  reflexivity.
Defined.

(** ** Nine regions on three levels *)

Lemma thresholdsSeparateb_true blocks :
  thresholdsSeparateb blocks = true → thresholdsSeparate blocks.
Proof.
  unfold thresholdsSeparateb, thresholdsSeparate, separates.
  destruct (sortedY blocks !! 2%nat) as [y2|]; [|done].
  destruct (sortedY blocks !! 3%nat) as [y3|]; [|done].
  destruct (sortedY blocks !! 5%nat) as [y5|]; [|done].
  destruct (sortedY blocks !! 6%nat) as [y6|]; [|done].
  rewrite !andb_true_iff, !negb_true_iff. intros [[[? ?] ?] ?].
  by exists y2, y3, y5, y6.
Qed.

Lemma assignToGrid_thresholdsSeparate blocks :
  length blocks = 9%nat → thresholdsSeparate blocks →
  ∃ grid, assignToGrid blocks = Some grid ∧ gridPos <$> grid = allCells.
Proof.
  intros Hlen (y2 & y3 & y5 & y6 & H2 & H3 & H5 & H6 & Hsep1 & Hsep2).
  destruct (assignToGrid_nine_cells blocks y2 y3 y5 y6 Hlen H2 H3 H5 H6)
    as (Hgrid & _ & _ & Hcells).
  eexists. split; [exact Hgrid|]. by apply Hcells.
Qed.

(** Blocks that fill the nine cells in row-major order give a matrix that
    reads, row by row, as their codes. *)
Lemma createColorMatrix_full self grid :
  gridPos <$> grid = allCells →
  concat (createColorMatrix self grid).1
  = (λ b, codeOf (colorCodes self) (colorName b)) <$> grid.
Proof.
  intros Hpos.
  pose proof (createColorMatrix_shape self grid) as [Hlen Hrows].
  destruct (threeByThree _ Hlen Hrows)
    as (c00 & c01 & c02 & c10 & c11 & c12 & c20 & c21 & c22 & Hm).
  pose proof (λ r c Hr Hc, createColorMatrix_cell self grid r c Hr Hc) as Hcell.
  rewrite Hm in *. clear Hm Hlen Hrows.
  generalize dependent (codeOf (colorCodes self)). intros f Hcell.
  assert (length grid = 9%nat) as Hnine.
  { by rewrite <- (length_fmap gridPos), Hpos. }
  do 9 (destruct grid as [|[? ? ? ? ? ? ?] grid]; [done|]).
  destruct grid; [|done]. clear Hnine.
  unfold gridPos, allCells in Hpos. simplify_eq/=.
  pose proof (Hcell 0 0 ltac:(lia) ltac:(lia))%nat as H00.
  pose proof (Hcell 0 1 ltac:(lia) ltac:(lia))%nat as H01.
  pose proof (Hcell 0 2 ltac:(lia) ltac:(lia))%nat as H02.
  pose proof (Hcell 1 0 ltac:(lia) ltac:(lia))%nat as H10.
  pose proof (Hcell 1 1 ltac:(lia) ltac:(lia))%nat as H11.
  pose proof (Hcell 1 2 ltac:(lia) ltac:(lia))%nat as H12.
  pose proof (Hcell 2 0 ltac:(lia) ltac:(lia))%nat as H20.
  pose proof (Hcell 2 1 ltac:(lia) ltac:(lia))%nat as H21.
  pose proof (Hcell 2 2 ltac:(lia) ltac:(lia))%nat as H22.
  clear Hcell.
  vm_compute in H00, H01, H02, H10, H11, H12, H20, H21, H22.
  by simplify_eq.
Qed.



(** ** The two colour maps *)

Lemma foldl_insert_lookup `{Countable K} {V : Type} (key : ColorRange → K)
    (val : ColorRange → V) (table : list ColorRange) (m : gmap K V) (k : K) :
  foldl (λ m c, <[key c := val c]> m) m table !! k
  = match lastWith key k table with
    | Some c => Some (val c)
    | None => m !! k
    end.
Proof.
  unfold lastWith. induction table as [|c table IH] using rev_ind; [done|].
  rewrite foldl_app, filter_app, filter_cons, filter_nil. simpl.
  rewrite lookup_insert. case_decide as Hk.
  - by rewrite last_snoc.
  - by rewrite app_nil_r, IH.
Qed.

Lemma lastWith_NoDup {K : Type} `{EqDecision K} (key : ColorRange → K)
    (table : list ColorRange) (c : ColorRange) :
  NoDup (key <$> table) → c ∈ table → lastWith key (key c) table = Some c.
Proof.
  unfold lastWith. induction table as [|d table IH] using rev_ind;
    [by intros _ ?%elem_of_nil|].
  rewrite fmap_app, filter_app, filter_cons, filter_nil. simpl.
  intros [Hnd [Hnotin _]]%NoDup_app Hc.
  apply elem_of_app in Hc as [Hc|Hc].
  - rewrite decide_False, app_nil_r; [by apply IH|].
    intros Heq. apply (Hnotin (key c)); [by apply list_elem_of_fmap_2|].
    rewrite <- Heq. left.
  - apply list_elem_of_singleton in Hc as ->.
    by rewrite decide_True, last_snoc.
Qed.

(** X12: [getColorCodeMap] maps a code to the drawing colour of the last
    range of the table that carries it, and holds no other key; with
    pairwise distinct codes every range finds its own colour under its
    code. *)
Theorem getColorCodeMap_lookup (self : CubeFaceAnalyzer) :
  (∀ ch, getColorCodeMap self !! ch
         = drawColor <$> lastWith code ch (colorTable self))
  ∧ (NoDup (code <$> colorTable self) →
     ∀ c, c ∈ colorTable self →
          getColorCodeMap self !! code c = Some (drawColor c)).
Proof.
  assert (∀ ch, getColorCodeMap self !! ch
                = drawColor <$> lastWith code ch (colorTable self)) as Hlast.
  { intros ch. unfold getColorCodeMap. rewrite foldl_insert_lookup.
    by destruct (lastWith code ch (colorTable self)). }
  split; [done|]. intros Hnd c Hc.
  by rewrite Hlast, lastWith_NoDup.
Qed.

(** X13: [getColorMap] maps a colour name to the drawing colour of the last
    range of the table with that name, and holds no other key; with
    pairwise distinct names every range finds its own colour under its
    name. *)
Theorem getColorMap_lookup (self : CubeFaceAnalyzer) :
  (∀ n, getColorMap self !! n
        = drawColor <$> lastWith name n (colorTable self))
  ∧ (NoDup (name <$> colorTable self) →
     ∀ c, c ∈ colorTable self →
          getColorMap self !! name c = Some (drawColor c)).
Proof.
  assert (∀ n, getColorMap self !! n
               = drawColor <$> lastWith name n (colorTable self)) as Hlast.
  { intros n. unfold getColorMap. rewrite foldl_insert_lookup.
    by destruct (lastWith name n (colorTable self)). }
  split; [done|]. intros Hnd c Hc.
  by rewrite Hlast, lastWith_NoDup.
Qed.

Lemma initialColorTable_names : NoDup (name <$> initialColorTable).
Proof. apply (bool_decide_unpack _). by vm_compute. Qed.

Lemma initialColorTable_codes : NoDup (code <$> initialColorTable).
Proof. apply (bool_decide_unpack _). by vm_compute. Qed.

(** X14: the analyzer as constructed is consistent: the names and the
    codes of its six ranges are pairwise distinct, [colorCodes] maps the
    name of each range to its code, and the colour under which
    [getColorCodeMap] draws that code is the colour [getColorMap] gives the
    name. *)
Theorem newCubeFaceAnalyzer_consistent :
  NoDup (name <$> colorTable newCubeFaceAnalyzer)
  ∧ NoDup (code <$> colorTable newCubeFaceAnalyzer)
  ∧ ∀ c, c ∈ colorTable newCubeFaceAnalyzer →
         colorCodes newCubeFaceAnalyzer !! name c = Some (code c)
         ∧ getColorCodeMap newCubeFaceAnalyzer !! code c
           = getColorMap newCubeFaceAnalyzer !! name c.
Proof.
  split; [apply initialColorTable_names|].
  split; [apply initialColorTable_codes|].
  intros c Hc. split.
  - unfold newCubeFaceAnalyzer, colorCodes.
    rewrite foldl_insert_lookup, lastWith_NoDup;
      [done|apply initialColorTable_names|done].
  - unfold getColorCodeMap, getColorMap.
    rewrite !foldl_insert_lookup, !lastWith_NoDup;
      [done|apply initialColorTable_names|done
      |apply initialColorTable_codes|done].
Qed.

(** ** The colour statistics *)

Lemma foldl_concat {A B} (f : A → B → A) (a : A) (ls : list (list B)) :
  foldl (λ a l, foldl f a l) a ls = foldl f a (concat ls).
Proof.
  revert a. induction ls as [|l ls IH]; intros a; simpl; [done|].
  by rewrite foldl_app, IH.
Qed.

Lemma colorStatistics_flat all :
  colorStatistics all = foldl countColor ∅ (concat (concat all)).
Proof.
  unfold colorStatistics.
  rewrite (foldl_concat (λ colorCount row, foldl countColor colorCount row)).
  by rewrite (foldl_concat countColor).
Qed.

Lemma foldl_countColor_lookup cells (m : gmap ascii Z) ch :
  foldl countColor m cells !! ch
  = if decide (ch = " "%char
               ∨ count (λ cell, bool_decide (cell = ch)) cells = 0%nat)
    then m !! ch
    else Some (default 0 (m !! ch)
               + Z.of_nat (count (λ cell, bool_decide (cell = ch)) cells)).
Proof.
  revert m. induction cells as [|cell cells IH]; intros m.
  - simpl. rewrite decide_True; [done|by right].
  - cbn [foldl count]. rewrite IH. unfold countColor.
    destruct (decide (cell ≠ " "%char)) as [Hcell|Hcell].
    + rewrite lookup_insert. destruct (decide (cell = ch)) as [->|Hne].
      * rewrite bool_decide_eq_true_2 by done.
        repeat case_decide; destruct_or?; simpl;
          try done; try lia; f_equal; lia.
      * rewrite bool_decide_eq_false_2 by done. simpl.
        repeat case_decide; try done; tauto.
    + apply dec_stable in Hcell. subst cell.
      destruct (decide (ch = " "%char)) as [->|Hne].
      * by rewrite !decide_True by by left.
      * rewrite bool_decide_eq_false_2 by done. simpl.
        repeat case_decide; try done; tauto.
Qed.

(** X15: the statistics printed at the end of [main] hold, for every
    character that occurs in a cell and is not the blank, the number of
    cells that hold it, and no entry for the blank or for a character that
    does not occur. *)
Theorem colorStatistics_counts (all : list (list (list ascii))) (ch : ascii) :
  colorStatistics all !! ch
  = if decide (ch = " "%char ∨ occurrences ch all = 0%nat) then None
    else Some (Z.of_nat (occurrences ch all)).
Proof.
  rewrite colorStatistics_flat, foldl_countColor_lookup. unfold occurrences.
  by rewrite lookup_empty.
Qed.

(** ** The run of [main] *)

Lemma reorderMatrices_upto_six (all : list (list (list ascii))) :
  reorderMatrices all ≡ₚ take 6 all.
Proof.
  destruct all as [|a [|b [|c [|d [|e [|f all]]]]]];
    [done|done|done|..].
  - change ([c; a; b] ≡ₚ [a; b; c]). solve_Permutation.
  - change ([c; a; d; b] ≡ₚ [a; b; c; d]). solve_Permutation.
  - change ([e; c; a; d; b] ≡ₚ [a; b; c; d; e]). solve_Permutation.
  - change ([e; c; a; d; b; f] ≡ₚ [a; b; c; d; e; f]). solve_Permutation.
Qed.

(** X16: the reordering for the net loses and repeats nothing: of up to six
    collected matrices each is handed to [drawCubeNet] exactly once; of
    more than six, the first six are. *)
Theorem reorderMatrices_permutation (all : list (list (list ascii))) :
  reorderMatrices all ≡ₚ take 6 all
  ∧ length (reorderMatrices all) = (length all `min` 6)%nat.
Proof.
  split; [apply reorderMatrices_upto_six|].
  rewrite reorderMatrices_upto_six, length_take. lia.
Qed.

Lemma analyzeCubeFace_Some self indet img :
  ∃ blocks, analyzeCubeFace self indet img = Some blocks.
Proof.
  unfold analyzeCubeFace. case_decide as Hlen; [|by eexists].
  destruct (assignToGrid_seven (detectBlocks self indet img))
    as (t1 & t2 & _ & Hgrid); [lia|]. by eexists.
Qed.

Lemma processFace_step fs indet st i f :
  filenames !! i = Some f →
  ∃ st' new,
    processFace fs indet st i = Some st'
    ∧ allColorMatrices st' = allColorMatrices st ++ new
    ∧ Forall isMatrix3 new
    ∧ length new = length (filter (λ f, is_Some (loadImage fs f)) [f]).
Proof.
  intros Hf. unfold processFace. rewrite Hf. cbn [mbind option_bind].
  rewrite filter_cons, filter_nil.
  destruct (loadImage fs f) as [img|] eqn:Himg.
  - destruct (analyzeCubeFace_Some (analyzer st) (indet i) img)
      as [blocks ->]. cbn [mbind option_bind].
    pose proof (createColorMatrix_shape (analyzer st) blocks) as Hshape.
    destruct (createColorMatrix (analyzer st) blocks) as [m this].
    exists (mkMainState this (allColorMatrices st ++ [m])), [m].
    rewrite decide_True by done.
    split; [done|]. split; [done|]. split; [|done].
    constructor; [exact Hshape|constructor].
  - exists st, []. rewrite app_nil_r, decide_False by by intros [? ?].
    split; [done|]. split; [done|]. split; [constructor|done].
Qed.

Lemma mainLoop fs indet names :
  ∀ k st, drop k filenames = names →
  ∃ st' new,
    forEach (processFace fs indet) st (seq k (length names)) = Some st'
    ∧ allColorMatrices st' = allColorMatrices st ++ new
    ∧ Forall isMatrix3 new
    ∧ length new = length (filter (λ f, is_Some (loadImage fs f)) names).
Proof.
  induction names as [|f names IH]; intros k st Hdrop.
  - exists st, []. by rewrite app_nil_r.
  - assert (filenames !! k = Some f) as Hf.
    { rewrite <- (Nat.add_0_r k), <- lookup_drop. by rewrite Hdrop. }
    rewrite (drop_S _ _ _ Hf) in Hdrop. injection Hdrop as Hdrop.
    destruct (processFace_step fs indet st k f Hf)
      as (st1 & new1 & Hstep & Hall1 & Hshape1 & Hlen1).
    destruct (IH (S k) st1 Hdrop) as (st2 & new2 & Hrest & Hall2 & Hshape2 & Hlen2).
    exists st2, (new1 ++ new2). cbn [length seq forEach].
    rewrite Hstep. cbn [mbind option_bind]. split; [done|].
    split; [by rewrite Hall2, Hall1, <- app_assoc|].
    split; [by apply Forall_app|].
    rewrite length_app, Hlen1, Hlen2.
    change (f :: names) with ([f] ++ names).
    by rewrite filter_app, length_app.
Qed.

(** X17: [main] always runs to its end, whatever the files hold: it
    collects one matrix for every file that can be read, each three rows
    of three cells; the net is drawn exactly when at least one file can be
    read, from these matrices, each taken once. *)
Theorem mainRun_completes (fs : gmap string Image)
    (indet : nat → nat → Z * Z) :
  ∃ all,
    mainRun fs indet
    = Some (all, if decide (readable fs = []) then None
                 else Some (reorderMatrices all))
    ∧ length all = length (readable fs)
    ∧ Forall isMatrix3 all
    ∧ reorderMatrices all ≡ₚ all.
Proof.
  destruct (mainLoop fs indet filenames 0 (mkMainState newCubeFaceAnalyzer [])
              eq_refl) as (st & new & Hloop & Hall & Hshape & Hlen).
  simpl in Hall. subst new. fold (readable fs) in Hlen.
  exists (allColorMatrices st). unfold mainRun. rewrite Hloop.
  cbn [mbind option_bind]. split; [|split; [done|split; [done|]]].
  - do 2 f_equal. destruct (readable fs) as [|f rest] eqn:Hr.
    + rewrite decide_False; [done|]. simpl in Hlen. lia.
    + rewrite decide_True; [done|]. simpl in Hlen. lia.
  - rewrite reorderMatrices_upto_six, take_ge; [done|].
    rewrite Hlen. unfold readable.
    etrans; [apply length_filter|]. done.
Qed.

(** ** The cells the renderer reads *)

Lemma cellCode_topLeft3 m r c :
  (r < 3)%nat → (c < 3)%nat → cellCode (topLeft3 m) r c = cellCode m r c.
Proof.
  intros Hr Hc. unfold cellCode, topLeft3.
  rewrite list_lookup_fmap, lookup_take_lt by done.
  destruct (m !! r) as [cells|]; [|done]. simpl.
  by rewrite lookup_take_lt.
Qed.

Lemma forEach_ext {S A : Type} (f g : S → A → option S) (l : list A) (s : S) :
  (∀ s a, a ∈ l → f s a = g s a) → forEach f s l = forEach g s l.
Proof.
  revert s. induction l as [|a l IH]; intros s Hext; [done|].
  cbn [forEach]. rewrite (Hext s a) by left.
  destruct (g s a) as [s'|]; [|done]. cbn [mbind option_bind].
  apply IH. intros s'' b Hb. apply Hext. by right.
Qed.

Lemma elem_of_012 (a : nat) : a ∈ [0; 1; 2]%nat → (a < 3)%nat.
Proof. rewrite !elem_of_cons, elem_of_nil. lia. Qed.

Section face_cells.
Variable strokePixels : Rect → Z → Z → Z → bool.
Variable textPixels : string → Z → Z → Qc → Z → Z → Z → bool.

Lemma drawCell_cellCode self m colorCodeMap margin row faceImg col :
  drawCell strokePixels textPixels self m colorCodeMap margin row faceImg col
  = (λ colorCode,
       applyOps (cellOps strokePixels textPixels self colorCodeMap margin
                         row col colorCode) faceImg)
    <$> cellCode m row col.
Proof.
  unfold drawCell, cellCode. destruct (m !! row) as [cells|]; [|done].
  simpl. by destruct (cells !! col).
Qed.

Lemma drawCell_topLeft3 self m colorCodeMap margin row faceImg col :
  (row < 3)%nat → (col < 3)%nat →
  drawCell strokePixels textPixels self (topLeft3 m) colorCodeMap margin row
           faceImg col
  = drawCell strokePixels textPixels self m colorCodeMap margin row
             faceImg col.
Proof. intros. by rewrite !drawCell_cellCode, cellCode_topLeft3. Qed.

Lemma drawStandardFace_None self raw colorMatrix colorCodeMap faceName :
  drawStandardFace strokePixels textPixels self raw colorMatrix colorCodeMap
                   faceName = None
  ↔ Exists (λ rc, cellCode colorMatrix rc.1 rc.2 = None) gridCells.
Proof.
  unfold drawStandardFace, gridCells. cbn [forEach].
  rewrite !Exists_cons, Exists_nil. cbn [fst snd].
  repeat (rewrite drawCell_cellCode;
          match goal with
          | |- context [cellCode colorMatrix ?r ?c] =>
              destruct (cellCode colorMatrix r c) eqn:?;
              [cbn [fmap option_fmap option_map mbind option_bind]
              |cbn [fmap option_fmap option_map mbind option_bind]; tauto]
          end).
  split; [done|]. intros H. by destruct_or!.
Qed.

(** X18: [drawStandardFace] reads the nine cells [colorMatrix[row][col]],
    [row, col < 3], and nothing else of the matrix: a read is out of range
    exactly when one of these cells does not exist, and further rows and
    columns of a larger matrix are ignored. *)
Theorem drawStandardFace_reads_nine_cells (self : CubeVisualizer)
    (raw : nat → nat → Scalar) (colorMatrix : list (list ascii))
    (colorCodeMap : gmap ascii Scalar) (faceName : string) :
  (drawStandardFace strokePixels textPixels self raw colorMatrix colorCodeMap
                    faceName = None
   ↔ Exists (λ rc, cellCode colorMatrix rc.1 rc.2 = None) gridCells)
  ∧ drawStandardFace strokePixels textPixels self raw (topLeft3 colorMatrix)
                     colorCodeMap faceName
    = drawStandardFace strokePixels textPixels self raw colorMatrix
                       colorCodeMap faceName.
Proof.
  split; [apply drawStandardFace_None|].
  unfold drawStandardFace. cbn zeta.
  rewrite (forEach_ext
             (λ img row, forEach (drawCell strokePixels textPixels self
                                    (topLeft3 colorMatrix) colorCodeMap 10
                                    row) img [0; 1; 2]%nat)
             (λ img row, forEach (drawCell strokePixels textPixels self
                                    colorMatrix colorCodeMap 10 row)
                                 img [0; 1; 2]%nat)); [done|].
  intros img row Hrow%elem_of_012. apply forEach_ext.
  intros img' col Hcol%elem_of_012. by apply drawCell_topLeft3.
Qed.

(** X19: whatever blocks [createColorMatrix] is given, in the grid or not,
    known colour or not, it returns three rows of three cells, and
    [drawStandardFace] draws that matrix without a read out of range. *)
Theorem createColorMatrix_drawable (analyzer : CubeFaceAnalyzer)
    (blocks : list ColorBlock) (self : CubeVisualizer)
    (raw : nat → nat → Scalar) (colorCodeMap : gmap ascii Scalar)
    (faceName : string) :
  isMatrix3 (createColorMatrix analyzer blocks).1
  ∧ is_Some (drawStandardFace strokePixels textPixels self raw
               (createColorMatrix analyzer blocks).1 colorCodeMap faceName).
Proof.
  split; [apply createColorMatrix_shape|].
  apply not_eq_None_Some. rewrite drawStandardFace_None.
  rewrite Exists_exists. intros ([r c] & Hrc & Hnone). simpl in Hnone.
  rewrite createColorMatrix_cell in Hnone; [done|..];
    unfold gridCells in Hrc; rewrite !elem_of_cons, elem_of_nil in Hrc;
    intuition (simplify_eq; lia).
Qed.

End face_cells.

(** ** The net *)

Lemma resolve_app ops1 ops2 x y p :
  resolve (ops1 ++ ops2) x y p = resolve ops2 x y (resolve ops1 x y p).
Proof. unfold resolve. by rewrite foldl_app. Qed.

Lemma resolve_untouched ops x y p :
  Forall (λ op, opCover op x y = false) ops → resolve ops x y p = p.
Proof.
  induction ops as [|op ops IH] using rev_ind; [done|].
  intros [Hops [Hop _]%Forall_cons]%Forall_app.
  rewrite resolve_app, IH by done. simpl. by rewrite Hop.
Qed.

(** When every call that covers a pixel gives it the same colour, and one
    does, the pixel ends with that colour. *)
Lemma resolve_agree ops x y p color :
  Exists (λ op, opCover op x y = true) ops →
  Forall (λ op, opCover op x y = true → opColor op = color) ops →
  resolve ops x y p = color.
Proof.
  induction ops as [|op ops IH] using rev_ind; [by intros ?%Exists_nil|].
  intros Hex [Hops [Hop _]%Forall_cons]%Forall_app.
  rewrite resolve_app. simpl. destruct (opCover op x y) eqn:E; [by apply Hop|].
  apply IH; [|done]. apply Exists_app in Hex as [Hex|Hex]; [done|].
  apply Exists_cons in Hex as [Hex|Hex%Exists_nil]; [congruence|done].
Qed.

Lemma existsb_false {A} (f : A → bool) (l : list A) :
  existsb f l = false ↔ Forall (λ x, f x = false) l.
Proof.
  induction l as [|x l IH]; simpl; [by split; [constructor|]|].
  rewrite orb_false_iff, Forall_cons. by rewrite IH.
Qed.

Lemma Mat_zeros_setTo_pixel s rows cols (x y : nat) :
  (Z.of_nat x < cols) → (Z.of_nat y < rows) →
  pixelAt (Mat_setTo s (Mat_zeros rows cols)) x y = Some s.
Proof.
  intros Hx Hy. unfold pixelAt, Mat_setTo, Mat_zeros.
  rewrite list_lookup_fmap, lookup_replicate_2 by lia. simpl.
  by rewrite list_lookup_fmap, lookup_replicate_2 by lia.
Qed.

Lemma Mat_zeros_setTo_length s rows cols :
  length (Mat_setTo s (Mat_zeros rows cols)) = Z.to_nat rows.
Proof. unfold Mat_setTo, Mat_zeros. by rewrite length_fmap, length_replicate. Qed.

Lemma Mat_zeros_setTo_lines s rows cols :
  Forall (λ line, length line = Z.to_nat cols)
         (Mat_setTo s (Mat_zeros rows cols)).
Proof.
  unfold Mat_setTo, Mat_zeros. apply Forall_fmap, Forall_replicate. simpl.
  by rewrite length_fmap, length_replicate.
Qed.

Lemma facePositions_lookup i pos :
  facePositions !! i = Some pos →
  (i < 6)%nat ∧ 0 ≤ pos.1 ≤ 3 ∧ 0 ≤ pos.2 ≤ 2
  ∧ ∃ label, faceLabels !! i = Some label.
Proof.
  intros H. do 6 (destruct i as [|i]; [injection H as <-; simpl;
                                       split; [lia|]; split; [lia|];
                                       split; [lia|]; by eexists|]).
  done.
Qed.

Lemma facePositions_inj i j pos :
  facePositions !! i = Some pos → facePositions !! j = Some pos → i = j.
Proof.
  apply NoDup_lookup. apply (bool_decide_unpack _). by vm_compute.
Qed.

Lemma facePositions_lt i :
  (i < 6)%nat → ∃ pos, facePositions !! i = Some pos.
Proof. intros Hi. apply lookup_lt_is_Some_2. by simpl. Qed.

Section net_facts.
Variable strokePixels : Rect → Z → Z → Z → bool.
Variable textPixels : string → Z → Z → Qc → Z → Z → Z → bool.

Lemma drawNetCell_cellCode self ms colorCodeMap i face x y r img c :
  ms !! i = Some face →
  drawNetCell strokePixels textPixels self ms colorCodeMap i x y r img c
  = (λ colorCode,
       applyOps (snd <$> netCellOps strokePixels textPixels self colorCodeMap
                                    x y r c colorCode) img)
    <$> cellCode face r c.
Proof.
  intros Hface. unfold drawNetCell, cellCode. rewrite Hface.
  cbn [mbind option_bind]. destruct (face !! r) as [cells|]; [|done].
  simpl. by destruct (cells !! c).
Qed.

(** The calls of one iteration of the loop over the faces. *)
Lemma drawNetFace_ops self ms colorCodeMap img i face :
  (i < 6)%nat → ms !! i = Some face → isMatrix3 face →
  drawNetFace strokePixels textPixels self ms colorCodeMap 10 img i
  = Some (applyOps (snd <$> netFaceOps strokePixels textPixels self
                                       colorCodeMap i face) img).
Proof.
  intros Hi Hface [Hlen Hrows].
  destruct (threeByThree _ Hlen Hrows)
    as (c00 & c01 & c02 & c10 & c11 & c12 & c20 & c21 & c22 & ->).
  destruct (facePositions_lt i Hi) as [pos Hpos].
  destruct (facePositions_lookup i pos Hpos) as (_ & _ & _ & label & Hlabel).
  unfold drawNetFace, netFaceOps. rewrite Hpos, Hlabel.
  cbn [mbind option_bind forEach]. unfold faceCorner.
  repeat (rewrite (drawNetCell_cellCode _ _ _ _ _ _ _ _ _ _ Hface);
          cbn [cellCode lookup list_lookup mbind option_bind
               fmap option_fmap option_map]).
  reflexivity.
Qed.

Lemma drawNetFaces_ops self ms colorCodeMap faces :
  ∀ k img,
    drop k (take 6 ms) = faces → Forall isMatrix3 faces →
    forEach (drawNetFace strokePixels textPixels self ms colorCodeMap 10) img
            (seq k (length faces))
    = Some (applyOps
              (snd <$> concat (imap (λ j, netFaceOps strokePixels textPixels
                                            self colorCodeMap (k + j))
                                    faces))
              img).
Proof.
  induction faces as [|face faces IH]; intros k img Hdrop Hshape; [done|].
  apply Forall_cons in Hshape as [Hface Hshape].
  assert (take 6 ms !! k = Some face) as Hk.
  { rewrite <- (Nat.add_0_r k), <- lookup_drop. by rewrite Hdrop. }
  rewrite (drop_S _ _ _ Hk) in Hdrop. injection Hdrop as Hdrop.
  apply lookup_take_Some in Hk as [Hk Hlt].
  cbn [length seq forEach imap concat].
  rewrite (drawNetFace_ops _ _ _ _ _ face) by done.
  cbn [mbind option_bind]. rewrite (IH (S k)) by done.
  f_equal. rewrite fmap_app. unfold applyOps. rewrite foldl_app.
  rewrite Nat.add_0_r. do 3 f_equal.
  apply imap_ext. intros j ? _. simpl. f_equal. lia.
Qed.

(** The calls of [drawCubeNet], in order. *)
Lemma drawCubeNet_ops self ms colorCodeMap :
  Forall isMatrix3 (take 6 ms) →
  drawCubeNet strokePixels textPixels self ms colorCodeMap
  = Some (applyOps (snd <$> netOps strokePixels textPixels self colorCodeMap
                                   ms)
                   (netCanvas self)).
Proof.
  intros Hshape. unfold drawCubeNet. cbn zeta.
  replace (length ms `min` 6)%nat with (length (take 6 ms))
    by (rewrite length_take; lia).
  by rewrite (drawNetFaces_ops _ _ _ (take 6 ms) 0).
Qed.

End net_facts.

Lemma elem_of_concat {A} (x : A) (ls : list (list A)) :
  x ∈ concat ls ↔ ∃ l, x ∈ l ∧ l ∈ ls.
Proof.
  induction ls as [|l ls IH]; simpl.
  - split; [by intros ?%elem_of_nil|]. by intros (l & _ & ?%elem_of_nil).
  - rewrite elem_of_app, IH. split.
    + intros [Hx|(l' & Hx & Hl')].
      * exists l. split; [done|left].
      * exists l'. split; [done|by right].
    + intros (l' & Hx & [->|Hl']%elem_of_cons); [by left|].
      right. by exists l'.
Qed.

Lemma netOps_fill sp tp self colorCodeMap ms t :
  t ∈ netOps sp tp self colorCodeMap ms → t.1 = true →
  ∃ i face pos r c colorCode,
    ms !! i = Some face ∧ facePositions !! i = Some pos
    ∧ (r < 3)%nat ∧ (c < 3)%nat
    ∧ cellCode face r c = Some colorCode
    ∧ t.2 = mkPaintOp (inRect (blockRect self (faceCorner self 10 pos).1
                                         (faceCorner self 10 pos).2 r c))
                      (blockColorOf colorCodeMap colorCode).
Proof.
  unfold netOps. intros (ops & Ht & Hops)%elem_of_concat Hfill.
  apply list_elem_of_lookup_1 in Hops as [i Hi].
  rewrite list_lookup_imap in Hi.
  destruct (take 6 ms !! i) as [face|] eqn:Hface; [|done].
  injection Hi as <-. apply lookup_take_Some in Hface as [Hface _].
  unfold netFaceOps in Ht.
  destruct (facePositions !! i) as [pos|] eqn:Hpos; [|by apply elem_of_nil in Ht].
  destruct (faceLabels !! i) as [label|]; [|by apply elem_of_nil in Ht].
  apply elem_of_app in Ht as [Ht|Ht].
  - apply list_elem_of_bind in Ht as ([r c] & Ht & Hrc).
    cbn [fst snd] in Ht.
    destruct (cellCode face r c) as [colorCode|] eqn:Hcode;
      [|by apply elem_of_nil in Ht].
    exists i, face, pos, r, c, colorCode.
    unfold gridCells in Hrc. rewrite !elem_of_cons, elem_of_nil in Hrc.
    cbn [from_option] in Ht. unfold netCellOps in Ht.
    rewrite !elem_of_cons, elem_of_nil in Ht.
    destruct Ht as [-> | [-> | [-> | []]]]; try discriminate.
    repeat split; try done; destruct_or?; simplify_eq; lia.
  - apply list_elem_of_singleton in Ht as ->. discriminate.
Qed.

Lemma netOps_fill_elem_of sp tp self colorCodeMap ms i face pos r c
    colorCode :
  (i < 6)%nat → ms !! i = Some face → facePositions !! i = Some pos →
  (r < 3)%nat → (c < 3)%nat → cellCode face r c = Some colorCode →
  (true, mkPaintOp (inRect (blockRect self (faceCorner self 10 pos).1
                                      (faceCorner self 10 pos).2 r c))
                   (blockColorOf colorCodeMap colorCode))
  ∈ netOps sp tp self colorCodeMap ms.
Proof.
  intros Hi Hface Hpos Hr Hc Hcode. unfold netOps.
  apply elem_of_concat.
  exists (netFaceOps sp tp self colorCodeMap i face). split.
  - unfold netFaceOps. rewrite Hpos.
    destruct (facePositions_lookup i pos Hpos) as (_ & _ & _ & label & ->).
    apply elem_of_app. left. apply list_elem_of_bind. exists (r, c).
    cbn [fst snd]. rewrite Hcode. split; [left|].
    unfold gridCells.
    assert (r = 0 ∨ r = 1 ∨ r = 2)%nat as Hr' by lia.
    assert (c = 0 ∨ c = 1 ∨ c = 2)%nat as Hc' by lia.
    rewrite !elem_of_cons.
    destruct Hr' as [-> | [-> | ->]]; destruct Hc' as [-> | [-> | ->]]; tauto.
  - apply (list_elem_of_lookup_2 _ i). rewrite list_lookup_imap.
    by rewrite lookup_take_lt, Hface by done.
Qed.

(** Two cells of the net that share a pixel are the same cell of the same
    face. *)
Lemma net_cells_disjoint i j posi posj r c r' c' x y :
  facePositions !! i = Some posi → facePositions !! j = Some posj →
  (r < 3)%nat → (c < 3)%nat → (r' < 3)%nat → (c' < 3)%nat →
  inRect (blockRect newCubeVisualizer
            (faceCorner newCubeVisualizer 10 posi).1
            (faceCorner newCubeVisualizer 10 posi).2 r c) x y = true →
  inRect (blockRect newCubeVisualizer
            (faceCorner newCubeVisualizer 10 posj).1
            (faceCorner newCubeVisualizer 10 posj).2 r' c') x y = true →
  i = j ∧ r = r' ∧ c = c'.
Proof.
  intros Hi Hj Hr Hc Hr' Hc'.
  destruct (facePositions_lookup i posi Hi) as (_ & Hi1 & Hi2 & _).
  destruct (facePositions_lookup j posj Hj) as (_ & Hj1 & Hj2 & _).
  unfold inRect, blockRect, faceCorner. cbn [rx ry rwidth rheight fst snd].
  change (blockSize newCubeVisualizer) with 60.
  rewrite !bool_decide_eq_true. intros [Hx Hy] [Hx' Hy'].
  assert (posi.1 = posj.1) as H1 by lia.
  assert (posi.2 = posj.2) as H2 by lia.
  assert (posi = posj) as ->.
  { destruct posi, posj. simpl in *. congruence. }
  split; [by eapply facePositions_inj|]. lia.
Qed.

Section net_claims.
Variable strokePixels : Rect → Z → Z → Z → bool.
Variable textPixels : string → Z → Z → Qc → Z → Z → Z → bool.

(** X20: on matrices of three rows of three cells [drawCubeNet] reads
    nothing out of range and returns a canvas of
    [3 * (blockSize * 3 + 10) + 10] rows and [4 * (blockSize * 3 + 10) + 10]
    columns (580 by 770 for the block size 60), whatever the number of
    matrices. *)
Theorem drawCubeNet_canvas (self : CubeVisualizer)
    (ms : list (list (list ascii))) (colorCodeMap : gmap ascii Scalar) :
  Forall isMatrix3 (take 6 ms) →
  ∃ cubeNet,
    drawCubeNet strokePixels textPixels self ms colorCodeMap = Some cubeNet
    ∧ length cubeNet = Z.to_nat (3 * (blockSize self * 3 + 10) + 10)
    ∧ Forall (λ line, length line
                      = Z.to_nat (4 * (blockSize self * 3 + 10) + 10))
             cubeNet.
Proof.
  intros Hshape. eexists. split; [by apply drawCubeNet_ops|]. split.
  - rewrite applyOps_length. apply Mat_zeros_setTo_length.
  - apply applyOps_lines, Mat_zeros_setTo_lines.
Qed.

(** X21: [drawCubeNet] draws at most six faces: the matrices after the
    sixth have no influence on the result. *)
Theorem drawCubeNet_first_six (self : CubeVisualizer)
    (ms : list (list (list ascii))) (colorCodeMap : gmap ascii Scalar) :
  drawCubeNet strokePixels textPixels self (take 6 ms) colorCodeMap
  = drawCubeNet strokePixels textPixels self ms colorCodeMap.
Proof.
  unfold drawCubeNet. cbn zeta.
  replace (length (take 6 ms) `min` 6)%nat with (length ms `min` 6)%nat
    by (rewrite length_take; lia).
  apply forEach_ext. intros img i Hi%elem_of_seq.
  unfold drawNetFace. destruct (facePositions !! i) as [pos|]; [|done].
  cbn [mbind option_bind]. destruct (faceCorner self 10 pos) as [x y].
  f_equal. apply forEach_ext. intros img' r _. apply forEach_ext.
  intros img'' c _. unfold drawNetCell.
  by rewrite lookup_take_lt by lia.
Qed.

(** X22: in the net drawn with the block size 60, away from the strokes,
    the letters and the labels, every pixel of cell ([r], [c]) of the face
    at index [i] has the colour chosen for the code in that cell of the
    [i]-th matrix; the face lies at its place of the 4x3 layout. *)
Theorem drawCubeNet_cell_colour (ms : list (list (list ascii)))
    (colorCodeMap : gmap ascii Scalar) (i : nat) (face : list (list ascii))
    (pos : Z * Z) (r c : nat) (colorCode : ascii) (x y : nat) :
  Forall isMatrix3 (take 6 ms) →
  ms !! i = Some face → facePositions !! i = Some pos →
  cellCode face r c = Some colorCode →
  10 + 190 * pos.1 + 60 * Z.of_nat c ≤ Z.of_nat x
    < 10 + 190 * pos.1 + 60 * Z.of_nat c + 60 →
  10 + 190 * pos.2 + 60 * Z.of_nat r ≤ Z.of_nat y
    < 10 + 190 * pos.2 + 60 * Z.of_nat r + 60 →
  netInk strokePixels textPixels newCubeVisualizer colorCodeMap ms
         (Z.of_nat x) (Z.of_nat y) = false →
  ∃ cubeNet,
    drawCubeNet strokePixels textPixels newCubeVisualizer ms colorCodeMap
    = Some cubeNet
    ∧ pixelAt cubeNet x y = Some (blockColorOf colorCodeMap colorCode).
Proof.
  intros Hshape Hface Hpos Hcode Hx Hy Hink.
  destruct (facePositions_lookup i pos Hpos) as (Hi & Hp1 & Hp2 & _).
  assert (isMatrix3 face) as [Hlen Hrows].
  { eapply Forall_lookup_1; [exact Hshape|]. by rewrite lookup_take_lt. }
  assert (r < 3 ∧ c < 3)%nat as [Hr Hc].
  { unfold cellCode in Hcode.
    destruct (face !! r) as [cells|] eqn:Hcells; [|done]. simpl in Hcode.
    pose proof (Forall_lookup_1 _ _ _ _ Hrows Hcells) as Hcl. simpl in Hcl.
    apply lookup_lt_Some in Hcells, Hcode. lia. }
  eexists. split; [by apply drawCubeNet_ops|].
  rewrite pixelAt_applyOps. unfold netCanvas.
  rewrite Mat_zeros_setTo_pixel
    by (change (blockSize newCubeVisualizer) with 60; lia).
  cbn [fmap option_fmap option_map]. f_equal.
  set (fill := mkPaintOp
                 (inRect (blockRect newCubeVisualizer
                            (faceCorner newCubeVisualizer 10 pos).1
                            (faceCorner newCubeVisualizer 10 pos).2 r c))
                 (blockColorOf colorCodeMap colorCode)).
  assert (opCover fill (Z.of_nat x) (Z.of_nat y) = true) as Hcover.
  { unfold fill, inRect, blockRect, faceCorner.
    cbn [opCover rx ry rwidth rheight fst snd].
    change (blockSize newCubeVisualizer) with 60.
    apply bool_decide_eq_true. lia. }
  apply resolve_agree.
  - apply Exists_exists. exists fill. split; [|done].
    apply (list_elem_of_fmap_2 snd _ (true, fill)).
    by apply (netOps_fill_elem_of _ _ _ _ _ i face pos r c colorCode).
  - apply Forall_fmap, Forall_forall. intros [flag op] Ht. simpl.
    intros Hop. destruct flag.
    + destruct (netOps_fill _ _ _ _ _ _ Ht eq_refl)
        as (j & face' & pos' & r' & c' & code' & Hface' & Hpos' & Hr' & Hc'
            & Hcode' & Hopeq).
      simpl in Hopeq. subst op. simpl in Hop.
      destruct (net_cells_disjoint i j pos pos' r c r' c' _ _
                  Hpos Hpos' Hr Hc Hr' Hc' Hcover Hop) as (<- & <- & <-).
      simpl. congruence.
    + unfold netInk in Hink. apply existsb_false in Hink.
      pose proof (proj1 (Forall_forall _ _) Hink _ Ht) as Hf.
      simpl in Hf. congruence.
Qed.

(** X23: a pixel of the net that no call covers keeps the background
    colour (240, 240, 240). *)
Theorem drawCubeNet_background (self : CubeVisualizer)
    (ms : list (list (list ascii))) (colorCodeMap : gmap ascii Scalar)
    (x y : nat) :
  Forall isMatrix3 (take 6 ms) →
  Z.of_nat x < 4 * (blockSize self * 3 + 10) + 10 →
  Z.of_nat y < 3 * (blockSize self * 3 + 10) + 10 →
  netInk strokePixels textPixels self colorCodeMap ms
         (Z.of_nat x) (Z.of_nat y) = false →
  netFill strokePixels textPixels self colorCodeMap ms
          (Z.of_nat x) (Z.of_nat y) = false →
  ∃ cubeNet,
    drawCubeNet strokePixels textPixels self ms colorCodeMap = Some cubeNet
    ∧ pixelAt cubeNet x y = Some backgroundColor.
Proof.
  intros Hshape Hx Hy Hink Hfill.
  eexists. split; [by apply drawCubeNet_ops|].
  rewrite pixelAt_applyOps. unfold netCanvas.
  rewrite Mat_zeros_setTo_pixel by done.
  cbn [fmap option_fmap option_map]. f_equal.
  apply resolve_untouched, Forall_fmap, Forall_forall. intros [flag op] Ht.
  unfold netInk in Hink. unfold netFill in Hfill.
  apply existsb_false in Hink, Hfill.
  pose proof (proj1 (Forall_forall _ _) Hink _ Ht) as H1.
  pose proof (proj1 (Forall_forall _ _) Hfill _ Ht) as H2.
  simpl in *. by destruct flag.
Qed.

End net_claims.

Lemma drawCubeNet_canvas_witness :
  ∃ cubeNet,
    drawCubeNet noStroke noText newCubeVisualizer
                [solidMatrix "R"; solidMatrix "G"]
                (getColorCodeMap newCubeFaceAnalyzer) = Some cubeNet
    ∧ length cubeNet = 580%nat
    ∧ Forall (λ line, length line = 770%nat) cubeNet.
Proof.
  apply (drawCubeNet_canvas noStroke noText newCubeVisualizer
           [solidMatrix "R"; solidMatrix "G"]
           (getColorCodeMap newCubeFaceAnalyzer)).
  repeat constructor.
Defined.

Lemma drawCubeNet_cell_colour_witness :
  ∃ cubeNet,
    drawCubeNet noStroke noText newCubeVisualizer
                [solidMatrix "R"; solidMatrix "G"]
                (getColorCodeMap newCubeFaceAnalyzer) = Some cubeNet
    ∧ pixelAt cubeNet 100 250
      = Some (blockColorOf (getColorCodeMap newCubeFaceAnalyzer) "G").
Proof.
  apply (drawCubeNet_cell_colour noStroke noText
           [solidMatrix "R"; solidMatrix "G"]
           (getColorCodeMap newCubeFaceAnalyzer) 1
           (solidMatrix "G") (0, 1) 0 1 "G" 100 250).
  - repeat constructor.
  - reflexivity.
  - reflexivity.
  - reflexivity.
  - simpl. lia.
  - simpl. lia.
  - reflexivity.
Defined.

Lemma drawCubeNet_background_witness :
  ∃ cubeNet,
    drawCubeNet noStroke noText newCubeVisualizer
                [solidMatrix "R"; solidMatrix "G"]
                (getColorCodeMap newCubeFaceAnalyzer) = Some cubeNet
    ∧ pixelAt cubeNet 5 5 = Some backgroundColor.
Proof.
  apply (drawCubeNet_background noStroke noText newCubeVisualizer
           [solidMatrix "R"; solidMatrix "G"]
           (getColorCodeMap newCubeFaceAnalyzer) 5 5).
  - repeat constructor.
  - simpl. lia.
  - simpl. lia.
  - reflexivity.
  - reflexivity.
Defined.

(** ** A count other than nine *)

Lemma regionsOf_indet self indet img k b :
  regionsOf self indet img !! k = Some b → (row b, col b) = indet k.
Proof. rewrite <- detectBlocks_regions. apply detectBlocks_indet. Qed.

Lemma lastGarbageAt_snoc indet r c blocks b :
  lastGarbageAt indet r c (blocks ++ [b])
  = if decide (indet (length blocks) = (Z.of_nat r, Z.of_nat c)) then Some b
    else lastGarbageAt indet r c blocks.
Proof.
  unfold lastGarbageAt. rewrite imap_app, filter_app. cbn [imap].
  rewrite filter_cons, filter_nil, Nat.add_0_r. cbn [fst].
  case_decide.
  - by rewrite last_snoc.
  - by rewrite app_nil_r.
Qed.

(** When every block carries the indeterminate pair of its index, the last
    block at a position is the last one whose pair is that position. *)
Lemma lastAt_garbage indet r c blocks :
  (∀ k b, blocks !! k = Some b → (row b, col b) = indet k) →
  lastAt r c blocks = lastGarbageAt indet r c blocks.
Proof.
  induction blocks as [|b blocks IH] using rev_ind; intros Hall; [done|].
  rewrite lastAt_snoc, lastGarbageAt_snoc.
  pose proof (Hall (length blocks) b (list_lookup_middle _ _ _ _ eq_refl))
    as Hb.
  rewrite <- Hb, IH.
  - repeat case_decide; try done; exfalso.
    + destruct_and!. congruence.
    + simplify_eq. tauto.
  - intros k b' Hk. apply Hall. rewrite lookup_app_l; [done|].
    by apply lookup_lt_Some in Hk.
Qed.

(** X24: when the number of detected regions is not nine, the blocks are
    returned as detected, each with the never-initialised row and column of
    its own declaration.  A cell of the matrix then holds the code of the
    last region whose indeterminate pair is the position of the cell, and
    the blank when there is none. *)
Theorem mismatch_matrix_cells (self : CubeFaceAnalyzer) (indet : nat → Z * Z)
    (img : Image) :
  length (regionsOf self indet img) ≠ 9%nat →
  ∃ blocks,
    analyzeCubeFace self indet img = Some blocks
    ∧ (∀ k b, blocks !! k = Some b → (row b, col b) = indet k)
    ∧ Forall (λ rc,
                cellCode (createColorMatrix self blocks).1 rc.1 rc.2
                = Some (from_option
                          (λ b, codeOf (colorCodes self) (colorName b))
                          " "%char (lastGarbageAt indet rc.1 rc.2 blocks)))
             gridCells.
Proof.
  intros Hne. exists (regionsOf self indet img). split; [|split].
  - unfold analyzeCubeFace. rewrite detectBlocks_regions.
    by rewrite decide_False.
  - apply regionsOf_indet.
  - apply Forall_forall. intros [r c] Hrc. simpl.
    rewrite createColorMatrix_cell.
    + by rewrite (lastAt_garbage indet) by apply regionsOf_indet.
    + unfold gridCells in Hrc. rewrite !elem_of_cons, elem_of_nil in Hrc.
      intuition (simplify_eq; lia).
    + unfold gridCells in Hrc. rewrite !elem_of_cons, elem_of_nil in Hrc.
      intuition (simplify_eq; lia).
Qed.

Lemma mismatch_matrix_cells_witness :
  ∃ blocks,
    analyzeCubeFace newCubeFaceAnalyzer mixedGarbage eightRegions = Some blocks
    ∧ (∀ k b, blocks !! k = Some b → (row b, col b) = mixedGarbage k)
    ∧ Forall (λ rc,
                cellCode (createColorMatrix newCubeFaceAnalyzer blocks).1
                         rc.1 rc.2
                = Some (from_option
                          (λ b, codeOf (colorCodes newCubeFaceAnalyzer)
                                       (colorName b))
                          " "%char
                          (lastGarbageAt mixedGarbage rc.1 rc.2 blocks)))
             gridCells.
Proof.
  apply (mismatch_matrix_cells newCubeFaceAnalyzer mixedGarbage eightRegions).
  vm_compute. discriminate.
Defined.

(** Eight regions whose first two blocks happen to read as (0, 0) and
    (1, 2), the others outside the grid: two cells are written. *)
Example eightRegions_mixed_matrix :
  (λ blocks, (createColorMatrix newCubeFaceAnalyzer blocks).1)
    <$> analyzeCubeFace newCubeFaceAnalyzer mixedGarbage eightRegions
  = (λ blocks, <[1%nat := [" "; " "; "R"]%char]>
                 (<[0%nat := ["R"; " "; " "]%char]>
                    (createColorMatrix newCubeFaceAnalyzer []).1))
      <$> analyzeCubeFace newCubeFaceAnalyzer mixedGarbage eightRegions.
Proof. by vm_compute. Qed.
